(** * A limit order book matching engine: shallow embedding and properties

    Source: [cpp/order_book_simulator/orderbook.cpp] (class [OrderBook]).

    Modelling choices, all read off the source.

    - Prices.  The source stores prices as [double] and only ever
      compares them ([<], [>], and the ordering of the two [std::map]s);
      the engine performs no arithmetic on them.  A run touches finitely
      many prices and a finite set of comparable doubles is order
      isomorphic to a set of integers, so prices are integers here
      (ticks, e.g. cents: 100.50 is [10050]).  NaN is outside the model.
    - Quantities, ids and counters are [uint64_t]: integers with the
      wrap-around [wrap64] written where the source does arithmetic.
    - [std::shared_ptr<Order>]: an order object lives in [heap]; a
      pointer is its index there.  The deques of a price level and
      [order_map] hold pointers, so a fill through the deque is seen
      through the index as in the source.  [std::make_shared] appends;
      the release of an object by its last pointer cannot be observed
      and is not modelled.
    - [std::map<double, deque, Compare>]: the list of its levels in
      iteration order, with find-or-insert and erase written for an
      arbitrary [Compare]; [bids] uses [std::less], [asks] uses
      [std::greater], as declared in the source.
    - The wall-clock [timestamp] fields are not modelled. *)

From stdpp Require Import base gmap list sorting.
From Stdlib Require Import ZArith Lia.

Set Warnings "-clear-no-such-hyp".

Local Open Scope Z_scope.

(** ** Machine integers *)

Definition wrap64 (z : Z) : Z := z mod 2 ^ 64.

Definition uint64 (z : Z) : Prop := 0 <= z < 2 ^ 64.

(** ** Orders and trades *)

Inductive OrderType := LIMIT | MARKET.

Inductive Side := BUY | SELL.

Module Order.
Record t := mk {
  order_id : Z;
  side : Side;
  type : OrderType;
  price : Z;
  quantity : Z }.

(** [o->quantity -= n] *)
Definition sub_quantity (n : Z) (o : t) : t :=
  mk (order_id o) (side o) (type o) (price o) (wrap64 (quantity o - n)).
End Order.

Module Trade.
Record t := mk {
  buy_order_id : Z;
  sell_order_id : Z;
  price : Z;
  quantity : Z }.
End Trade.

#[global] Instance Order_inhabited : Inhabited Order.t :=
  populate (Order.mk 0 BUY LIMIT 0 0).

#[global] Instance Side_eq_dec : EqDecision Side.
Proof. solve_decision. Defined.

#[global] Instance OrderType_eq_dec : EqDecision OrderType.
Proof. solve_decision. Defined.

(** ** Price levels: [std::map<double, std::deque<std::shared_ptr<Order>>, Compare>] *)

Abbreviation ptr := nat (only parsing).
Abbreviation PriceMap := (list (Z * list nat)) (only parsing).

Section PriceLevels.
(** [comp a b] is [Compare()(a, b)]: [a] is iterated before [b]. *)
Variable comp : Z -> Z -> bool.

(** [m[k]]: the level at [k], created empty when absent. *)
Fixpoint pm_index (k : Z) (m : PriceMap) : PriceMap :=
  match m with
  | [] => [(k, [])]
  | (k', q) :: m' =>
      if comp k k' then (k, []) :: m
      else if comp k' k then (k', q) :: pm_index k m'
      else m
  end.

(** The deque stored at key [k] (empty when there is none). *)
Fixpoint pm_at (k : Z) (m : PriceMap) : list ptr :=
  match m with
  | [] => []
  | (k', q) :: m' =>
      if comp k k' then []
      else if comp k' k then pm_at k m'
      else q
  end.

(** A write through the reference [auto& orders = m[k]]. *)
Fixpoint pm_modify (f : list ptr -> list ptr) (k : Z) (m : PriceMap) : PriceMap :=
  match m with
  | [] => []
  | (k', q) :: m' =>
      if comp k k' then m
      else if comp k' k then (k', q) :: pm_modify f k m'
      else (k', f q) :: m'
  end.

(** [m.erase(k)] *)
Fixpoint pm_erase (k : Z) (m : PriceMap) : PriceMap :=
  match m with
  | [] => []
  | (k', q) :: m' =>
      if comp k k' then m
      else if comp k' k then (k', q) :: pm_erase k m'
      else m'
  end.

(** [m[k].push_back(p)] *)
Definition pm_push_back (k : Z) (p : ptr) (m : PriceMap) : PriceMap :=
  pm_modify (fun q => q ++ [p]) k (pm_index k m).

(** The three statements of [cancelOrder] on one side:
    [auto& orders = m[k];
     orders.erase(std::remove(orders.begin(), orders.end(), p), orders.end());
     if (orders.empty()) m.erase(k);] *)
Definition pm_remove (k : Z) (p : ptr) (m : PriceMap) : PriceMap :=
  let m1 := pm_index k m in
  let m2 := pm_modify (filter (fun x => x <> p)) k m1 in
  match pm_at k m2 with
  | [] => pm_erase k m2
  | _ :: _ => m2
  end.
End PriceLevels.

(** ** The book *)

Record OrderBook := mkBook {
  heap : list Order.t;
  bids : list (Z * list nat);
  asks : list (Z * list nat);
  order_map : gmap Z nat;
  trade_history : list Trade.t;
  next_order_id : Z;
  total_orders_processed : Z;
  total_trades : Z }.

(** [bids] is declared with the default comparator [std::less<double>],
    [asks] with [std::greater<double>]. *)
Definition bids_comp : Z -> Z -> bool := Z.ltb.
Definition asks_comp : Z -> Z -> bool := Z.gtb.

Definition empty_book : OrderBook := mkBook [] [] [] ∅ [] 1 0 0.

Definition set_heap (h : list Order.t) (b : OrderBook) : OrderBook :=
  mkBook h (bids b) (asks b) (order_map b) (trade_history b)
         (next_order_id b) (total_orders_processed b) (total_trades b).

Definition set_bids (m : list (Z * list nat)) (b : OrderBook) : OrderBook :=
  mkBook (heap b) m (asks b) (order_map b) (trade_history b)
         (next_order_id b) (total_orders_processed b) (total_trades b).

Definition set_asks (m : list (Z * list nat)) (b : OrderBook) : OrderBook :=
  mkBook (heap b) (bids b) m (order_map b) (trade_history b)
         (next_order_id b) (total_orders_processed b) (total_trades b).

Definition set_order_map (om : gmap Z nat) (b : OrderBook) : OrderBook :=
  mkBook (heap b) (bids b) (asks b) om (trade_history b)
         (next_order_id b) (total_orders_processed b) (total_trades b).

(** [p->field] *)
Definition deref (b : OrderBook) (p : ptr) : Order.t := heap b !!! p.

(** [trade_history.emplace_back(...); total_trades++;] *)
Definition record_trade (t : Trade.t) (b : OrderBook) : OrderBook :=
  mkBook (heap b) (bids b) (asks b) (order_map b) (trade_history b ++ [t])
         (next_order_id b) (total_orders_processed b) (wrap64 (total_trades b + 1)).

(** [p->quantity -= n] *)
Definition sub_quantity (p : ptr) (n : Z) (b : OrderBook) : OrderBook :=
  set_heap (alter (Order.sub_quantity n) p (heap b)) b.

(** The passive side of an incoming order and its accessors. *)
Definition passive (aggressor : Side) (b : OrderBook) : list (Z * list nat) :=
  match aggressor with BUY => asks b | SELL => bids b end.

Definition set_passive (aggressor : Side) (m : list (Z * list nat)) (b : OrderBook) : OrderBook :=
  match aggressor with BUY => set_asks m b | SELL => set_bids m b end.

(** The [Trade] constructor call of each matching function: the incoming
    order is the buyer in [match*Buy] and the seller in [match*Sell]. *)
Definition new_trade (aggressor : Side) (incoming resting : Z) (p q : Z) : Trade.t :=
  match aggressor with
  | BUY => Trade.mk incoming resting p q
  | SELL => Trade.mk resting incoming p q
  end.

(** ** Matching

    The four functions [matchMarketBuy], [matchMarketSell],
    [matchLimitBuy] and [matchLimitSell] share one pair of nested loops
    and differ in the side they consume, the order of the two ids in the
    trade and the price gate of the limit versions.

    Inner loop,
    [while (!orders.empty() && order->quantity > 0) { ... }],
    on the deque [orders] of the first level.  An iteration that leaves
    the head in place (it keeps a remainder) is the last one: the
    incoming order is then exhausted (lemma [fill_level_exit]), so the
    recursion only continues after [pop_front]. *)
Fixpoint fill_level (aggressor : Side) (order : ptr) (level_price : Z)
    (orders : list ptr) (b : OrderBook) : list ptr * OrderBook :=
  match orders with
  | [] => ([], b)
  | resting :: rest =>
      if 0 <? Order.quantity (deref b order) then
        let trade_qty :=
          Z.min (Order.quantity (deref b order)) (Order.quantity (deref b resting)) in
        let b := record_trade
                   (new_trade aggressor (Order.order_id (deref b order))
                              (Order.order_id (deref b resting)) level_price trade_qty) b in
        let b := sub_quantity order trade_qty b in
        let b := sub_quantity resting trade_qty b in
        if Order.quantity (deref b resting) =? 0 then
          let b := set_order_map (delete (Order.order_id (deref b resting)) (order_map b)) b in
          fill_level aggressor order level_price rest b
        else (orders, b)
      else (orders, b)
  end.

(** The price gate: [if (order->price < best_ask) break;] for a limit buy,
    [if (order->price > best_bid) break;] for a limit sell, none for a
    market order. *)
Definition gate (aggressor : Side) (ty : OrderType) (order_price best : Z) : bool :=
  match ty, aggressor with
  | MARKET, _ => false
  | LIMIT, BUY => order_price <? best
  | LIMIT, SELL => order_price >? best
  end.

(** Outer loop,
    [while (!side.empty() && order->quantity > 0) { auto& [price, orders] = *side.begin(); ... }],
    over the levels in the iteration order of the map.  When the first
    level is left non-empty the incoming order is exhausted and the loop
    ends (lemma [sweep_exit]); otherwise the level is erased and the loop
    goes on. *)
Fixpoint sweep (aggressor : Side) (ty : OrderType) (order : ptr)
    (levels : list (Z * list nat)) (b : OrderBook) : list (Z * list nat) * OrderBook :=
  match levels with
  | [] => ([], b)
  | (best, orders) :: rest =>
      if 0 <? Order.quantity (deref b order) then
        if gate aggressor ty (Order.price (deref b order)) best then (levels, b)
        else
          let '(orders', b') := fill_level aggressor order best orders b in
          match orders' with
          | [] => sweep aggressor ty order rest b'
          | _ :: _ => ((best, orders') :: rest, b')
          end
      else (levels, b)
  end.

(** The loops work on the passive side through the references
    [*side.begin()] and [orders]; here its levels are threaded beside the
    book and stored back when the loops end. *)
Definition match_passive (aggressor : Side) (ty : OrderType) (order : ptr)
    (b : OrderBook) : OrderBook :=
  let '(levels, b') := sweep aggressor ty order (passive aggressor b) b in
  set_passive aggressor levels b'.

Definition matchMarketBuy (order : ptr) (b : OrderBook) : OrderBook :=
  match_passive BUY MARKET order b.

Definition matchMarketSell (order : ptr) (b : OrderBook) : OrderBook :=
  match_passive SELL MARKET order b.

Definition matchLimitBuy (order : ptr) (b : OrderBook) : OrderBook :=
  let b := match_passive BUY LIMIT order b in
  if 0 <? Order.quantity (deref b order) then
    let b := set_bids (pm_push_back bids_comp (Order.price (deref b order)) order (bids b)) b in
    set_order_map (<[Order.order_id (deref b order) := order]> (order_map b)) b
  else b.

Definition matchLimitSell (order : ptr) (b : OrderBook) : OrderBook :=
  let b := match_passive SELL LIMIT order b in
  if 0 <? Order.quantity (deref b order) then
    let b := set_asks (pm_push_back asks_comp (Order.price (deref b order)) order (asks b)) b in
    set_order_map (<[Order.order_id (deref b order) := order]> (order_map b)) b
  else b.

(** ** Public operations *)

(** [std::make_shared<Order>(next_order_id++, side, type, price, quantity)]
    followed by [total_orders_processed++]. *)
Definition new_order (side : Side) (type : OrderType) (price quantity : Z)
    (b : OrderBook) : ptr * OrderBook :=
  (length (heap b),
   mkBook (heap b ++ [Order.mk (next_order_id b) side type price quantity])
          (bids b) (asks b) (order_map b) (trade_history b)
          (wrap64 (next_order_id b + 1))
          (wrap64 (total_orders_processed b + 1))
          (total_trades b)).

Definition addOrder (side : Side) (type : OrderType) (price quantity : Z)
    (b : OrderBook) : Z * OrderBook :=
  let '(order, b) := new_order side type price quantity b in
  let b :=
    match type, side with
    | MARKET, BUY => matchMarketBuy order b
    | MARKET, SELL => matchMarketSell order b
    | LIMIT, BUY => matchLimitBuy order b
    | LIMIT, SELL => matchLimitSell order b
    end in
  (Order.order_id (deref b order), b).

Definition cancelOrder (id : Z) (b : OrderBook) : bool * OrderBook :=
  match order_map b !! id with
  | None => (false, b)
  | Some order =>
      let b :=
        match Order.side (deref b order) with
        | BUY => set_bids (pm_remove bids_comp (Order.price (deref b order)) order (bids b)) b
        | SELL => set_asks (pm_remove asks_comp (Order.price (deref b order)) order (asks b)) b
        end in
      (true, set_order_map (delete id (order_map b)) b)
  end.

(** [bids.empty() ? 0.0 : bids.begin()->first] *)
Definition getBestBid (b : OrderBook) : Z :=
  match bids b with
  | [] => 0
  | (p, _) :: _ => p
  end.

Definition getBestAsk (b : OrderBook) : Z :=
  match asks b with
  | [] => 0
  | (p, _) :: _ => p
  end.

(** ** Commands and runs *)

Inductive Command :=
| Add (side : Side) (type : OrderType) (price quantity : Z)
| Cancel (id : Z).

Definition exec (c : Command) (b : OrderBook) : OrderBook :=
  match c with
  | Add s t p q => snd (addOrder s t p q b)
  | Cancel id => snd (cancelOrder id b)
  end.

Definition run (cs : list Command) (b : OrderBook) : OrderBook :=
  foldl (fun b c => exec c b) b cs.

(** The demonstration book of [main]: five asks and five bids. *)
Definition demo_book : OrderBook :=
  run [ Add SELL LIMIT 10050 100; Add SELL LIMIT 10060 150;
        Add SELL LIMIT 10070 200; Add SELL LIMIT 10080 175;
        Add SELL LIMIT 10090 125;
        Add BUY LIMIT 10040 120; Add BUY LIMIT 10030 180;
        Add BUY LIMIT 10020 150; Add BUY LIMIT 10010 200;
        Add BUY LIMIT 10000 100 ] empty_book.

(** ** Notions of the specification *)

(** The pointers resting on one side, in matching order. *)
Definition resting_ptrs (m : list (Z * list nat)) : list nat := m ≫= snd.

(** The prices of the orders resting on one side. *)
Definition resting_prices (b : OrderBook) (m : list (Z * list nat)) : list Z :=
  (fun p => Order.price (deref b p)) <$> resting_ptrs m.

Definition highest (l : list Z) : option Z :=
  match l with
  | [] => None
  | x :: l' => Some (foldr Z.max x l')
  end.

Definition lowest (l : list Z) : option Z :=
  match l with
  | [] => None
  | x :: l' => Some (foldr Z.min x l')
  end.

Definition highest_bid (b : OrderBook) : option Z := highest (resting_prices b (bids b)).
Definition lowest_ask (b : OrderBook) : option Z := lowest (resting_prices b (asks b)).

(** A crossed book: both sides are non-empty and the highest resting bid
    is not strictly below the lowest resting ask. *)
Definition crossed (b : OrderBook) : bool :=
  match highest_bid b, lowest_ask b with
  | Some hb, Some la => la <=? hb
  | _, _ => false
  end.

(** The side an order of side [s] rests on, and its comparator. *)
Definition own (s : Side) (b : OrderBook) : list (Z * list nat) :=
  match s with BUY => bids b | SELL => asks b end.

Definition own_comp (s : Side) : Z -> Z -> bool :=
  match s with BUY => bids_comp | SELL => asks_comp end.

Definition set_own (s : Side) (m : list (Z * list nat)) (b : OrderBook) : OrderBook :=
  match s with BUY => set_bids m b | SELL => set_asks m b end.

(** The two limit functions in one: match, then rest what remains,
    [own[order->price].push_back(order); order_map[order->order_id] = order;]
    (lemmas [matchLimitBuy_eq] and [matchLimitSell_eq]). *)
Definition rest_order (s : Side) (order : nat) (b : OrderBook) : OrderBook :=
  let b := set_own s (pm_push_back (own_comp s) (Order.price (deref b order)) order (own s b)) b in
  set_order_map (<[Order.order_id (deref b order) := order]> (order_map b)) b.

Definition match_limit (s : Side) (order : nat) (b : OrderBook) : OrderBook :=
  let b := match_passive s LIMIT order b in
  if 0 <? Order.quantity (deref b order) then rest_order s order b else b.



(** ** Well-formed books *)

Definition opposite (s : Side) : Side :=
  match s with BUY => SELL | SELL => BUY end.

(** What holds of a pointer [p] resting at level [k] of side [s]. *)
Record resting_ok (b : OrderBook) (s : Side) (k : Z) (p : nat) : Prop := {
  rest_valid : (p < length (heap b))%nat;
  rest_price : Order.price (deref b p) = k;
  rest_side : Order.side (deref b p) = s;
  rest_quantity : 0 < Order.quantity (deref b p) }.

Definition levels_ok (b : OrderBook) (s : Side) (m : list (Z * list nat)) : Prop :=
  Forall (fun l => Forall (resting_ok b s l.1) l.2) m.

(** The keys of a side are strictly ordered by its comparator. *)
Definition sorted_keys (comp : Z -> Z -> bool) (m : list (Z * list nat)) : Prop :=
  StronglySorted (fun k1 k2 => comp k1 k2 = true) (m.*1).

Definition no_empty_level (m : list (Z * list nat)) : Prop :=
  Forall (fun l => l.2 <> []) m.

Definition all_resting (b : OrderBook) : list nat :=
  resting_ptrs (bids b) ++ resting_ptrs (asks b).

(** The part of well-formedness that holds at every iteration of the
    matching loops. *)
Record book_ok (b : OrderBook) : Prop := {
  ok_bids_sorted : sorted_keys bids_comp (bids b);
  ok_asks_sorted : sorted_keys asks_comp (asks b);
  ok_bids : levels_ok b BUY (bids b);
  ok_asks : levels_ok b SELL (asks b);
  ok_nodup : NoDup (all_resting b);
  ok_index : forall id p, order_map b !! id = Some p ->
             Order.order_id (deref b p) = id /\ p ∈ all_resting b;
  ok_heap : Forall (fun o => uint64 (Order.quantity o)) (heap b) }.

(** Between commands no level is empty either. *)
Record book_wf (b : OrderBook) : Prop := {
  wf_ok : book_ok b;
  wf_bids_nonempty : no_empty_level (bids b);
  wf_asks_nonempty : no_empty_level (asks b) }.

(** A command the caller can issue: the quantity is a [uint64_t]. *)
Definition command_ok (c : Command) : Prop :=
  match c with
  | Add _ _ _ q => uint64 q
  | Cancel _ => True
  end.

(** Two states of an order object that differ at most in the remaining
    quantity. *)
Definition same_identity (o1 o2 : Order.t) : Prop :=
  Order.order_id o1 = Order.order_id o2 /\ Order.side o1 = Order.side o2 /\
  Order.type o1 = Order.type o2 /\ Order.price o1 = Order.price o2.

(** ** One iteration of the matching loops *)

(** The body of the inner loop up to the test of the resting order's
    remainder. *)
Definition fill_one (aggressor : Side) (order : nat) (level_price : Z)
    (resting : nat) (b : OrderBook) : OrderBook :=
  let trade_qty :=
    Z.min (Order.quantity (deref b order)) (Order.quantity (deref b resting)) in
  let b := record_trade
             (new_trade aggressor (Order.order_id (deref b order))
                        (Order.order_id (deref b resting)) level_price trade_qty) b in
  let b := sub_quantity order trade_qty b in
  sub_quantity resting trade_qty b.

(** [order_map.erase(resting->order_id)] *)
Definition erase_index (resting : nat) (b : OrderBook) : OrderBook :=
  set_order_map (delete (Order.order_id (deref b resting)) (order_map b)) b.

(** The matching loops as a transition system on (passive levels, book):
    a fill of the head of the first level that exhausts it and pops it,
    a fill that leaves it in place, and the erasure of an empty first
    level. *)
Inductive fill_step (aggressor : Side) (order : nat) :
    list (Z * list nat) * OrderBook -> list (Z * list nat) * OrderBook -> Prop :=
| fill_pop k s q rest b :
    0 < Order.quantity (deref b order) ->
    Order.quantity (deref (fill_one aggressor order k s b) s) = 0 ->
    fill_step aggressor order
      ((k, s :: q) :: rest, b)
      ((k, q) :: rest, erase_index s (fill_one aggressor order k s b))
| fill_keep k s q rest b :
    0 < Order.quantity (deref b order) ->
    Order.quantity (deref (fill_one aggressor order k s b) s) <> 0 ->
    fill_step aggressor order
      ((k, s :: q) :: rest, b)
      ((k, s :: q) :: rest, fill_one aggressor order k s b)
| fill_erase k rest b :
    fill_step aggressor order ((k, []) :: rest, b) (rest, b).

(** Well-formedness seen from an incoming order of side [a], with the
    levels of the passive side and of its own side given apart: this is
    what the matching loops maintain while the passive levels are being
    consumed. *)
Record sides_ok (b : OrderBook) (a : Side) (pas own_ : list (Z * list nat)) : Prop := {
  so_pas_sorted : sorted_keys (own_comp (opposite a)) pas;
  so_own_sorted : sorted_keys (own_comp a) own_;
  so_pas : levels_ok b (opposite a) pas;
  so_own : levels_ok b a own_;
  so_nodup : NoDup (resting_ptrs pas ++ resting_ptrs own_);
  so_index : forall id p, order_map b !! id = Some p ->
             Order.order_id (deref b p) = id /\
             p ∈ resting_ptrs pas ++ resting_ptrs own_;
  so_heap : Forall (fun o => uint64 (Order.quantity o)) (heap b) }.

(** The loop invariant: the book is well formed and the incoming order
    is an object of the heap that rests nowhere. *)
Definition match_inv (a : Side) (order : nat)
    (x : list (Z * list nat) * OrderBook) : Prop :=
  sides_ok x.2 a x.1 (own a x.2) /\
  (order < length (heap x.2))%nat /\
  order ∉ resting_ptrs x.1 ++ resting_ptrs (own a x.2).

(** What no fill changes, relative to the book [b0] the matching started
    from: the heap keeps its size and every object its identity, the
    incoming order's own side and the id counter stay, the index only
    loses entries, the trade log only grows. *)
Record fill_frame (a : Side) (b0 b : OrderBook) : Prop := {
  ff_length : length (heap b) = length (heap b0);
  ff_identity : forall p, same_identity (deref b p) (deref b0 p);
  ff_own : own a b = own a b0;
  ff_next : next_order_id b = next_order_id b0;
  ff_index : forall id p, order_map b !! id = Some p -> order_map b0 !! id = Some p;
  ff_trades : exists new, trade_history b = trade_history b0 ++ new }.

(** ** Execution price *)

(** The id of the resting order in a trade made by an incoming order of
    side [a]: the seller when a buy order comes in, the buyer when a sell
    order does. *)
Definition resting_id (a : Side) (t : Trade.t) : Z :=
  match a with BUY => Trade.sell_order_id t | SELL => Trade.buy_order_id t end.

(** Trade [t], made by an incoming order of side [a] arriving on book
    [b], fills an order that rests on the passive side of [b], and its
    price is that order's price. *)
Definition at_resting_price (a : Side) (b : OrderBook) (t : Trade.t) : Prop :=
  exists r, r ∈ resting_ptrs (passive a b) /\
            Order.order_id (deref b r) = resting_id a t /\
            Order.side (deref b r) = opposite a /\
            Trade.price t = Order.price (deref b r).

(** The loop invariant for the trades made since the matching started
    on book [b0]. *)
Definition trades_inv (a : Side) (b0 : OrderBook)
    (x : list (Z * list nat) * OrderBook) : Prop :=
  (forall r, r ∈ resting_ptrs x.1 -> r ∈ resting_ptrs (passive a b0)) /\
  exists new, trade_history x.2 = trade_history b0 ++ new /\
              Forall (at_resting_price a b0) new.

(** ** Accounting of quantities *)

Definition sum_with {A} (f : A -> Z) (l : list A) : Z :=
  foldr (fun x acc => f x + acc) 0 l.

(** The quantity of trade [t] that names order [id], as buyer or seller. *)
Definition named (id : Z) (t : Trade.t) : Z :=
  (if decide (Trade.buy_order_id t = id) then Trade.quantity t else 0) +
  (if decide (Trade.sell_order_id t = id) then Trade.quantity t else 0).

Definition filled (id : Z) (ts : list Trade.t) : Z := sum_with (named id) ts.

(** The remaining quantity of the object at [p] if it is order [id]. *)
Definition remaining (id : Z) (b : OrderBook) (p : nat) : Z :=
  if decide (Order.order_id (deref b p) = id) then Order.quantity (deref b p) else 0.

(** The quantity of order [id] resting in the book. *)
Definition resting_quantity (id : Z) (b : OrderBook) : Z :=
  sum_with (remaining id b) (all_resting b).

(** During matching: what has been filled of order [id], what of it
    rests, and what of it is left in the incoming order. *)
Definition in_flight (id : Z) (a : Side) (order : nat)
    (x : list (Z * list nat) * OrderBook) : Z :=
  filled id (trade_history x.2) +
  sum_with (remaining id x.2) (resting_ptrs x.1 ++ resting_ptrs (own a x.2)) +
  remaining id x.2 order.

(** What the engine does not record: the initial quantity of every
    accepted order, and the remainders taken out of the book other than
    by a trade (cancellation, unfilled residual of a market order). *)
Record Ledger := mkLedger {
  accepted : list (Z * Z);
  dropped : list (Z * Z) }.

Definition ledger_total (id : Z) (es : list (Z * Z)) : Z :=
  sum_with (fun e => if decide (e.1 = id) then e.2 else 0) es.

Definition audit (c : Command) (b : OrderBook) (L : Ledger) : Ledger :=
  match c with
  | Add s t p q =>
      let r := addOrder s t p q b in
      mkLedger ((r.1, q) :: accepted L)
               (match t with
                | MARKET => (r.1, Order.quantity (deref r.2 (length (heap b)))) :: dropped L
                | LIMIT => dropped L
                end)
  | Cancel id =>
      match order_map b !! id with
      | Some p => mkLedger (accepted L) ((id, Order.quantity (deref b p)) :: dropped L)
      | None => L
      end
  end.

Fixpoint run_audit (cs : list Command) (b : OrderBook) (L : Ledger) : OrderBook * Ledger :=
  match cs with
  | [] => (b, L)
  | c :: cs' => run_audit cs' (exec c b) (audit c b L)
  end.

(** Conservation, per id: fills naming the id, plus what rests under
    it, plus what was dropped under it, is what was accepted under it. *)
Definition conserved (b : OrderBook) (L : Ledger) : Prop :=
  forall id,
    filled id (trade_history b) + resting_quantity id b + ledger_total id (dropped L) =
    ledger_total id (accepted L).

(** Before the id counter wraps around, the accepted orders have
    pairwise distinct ids, all below the counter. *)
Definition ids_distinct (b : OrderBook) (L : Ledger) : Prop :=
  1 <= next_order_id b /\
  Forall (fun e => 1 <= e.1 < next_order_id b) (accepted L) /\
  NoDup (accepted L).*1.

(** Before the id counter wraps around, the ids in the index are below
    the counter, so the next id is not in the index. *)
Definition index_below_counter (b : OrderBook) : Prop :=
  1 <= next_order_id b /\
  forall id p, order_map b !! id = Some p -> 1 <= id < next_order_id b.

(** An incoming limit order at price [p] on side [s] does not cross: it
    is strictly on its own side of every level of the opposite side. *)
Definition no_cross (s : Side) (p : Z) (b : OrderBook) : Prop :=
  Forall (fun l => match s with BUY => p < l.1 | SELL => l.1 < p end) (passive s b).

(** ** The rest of the class: statistics and printing

    [printOrderBook], [printRecentTrades] and [printStats] write text;
    what is modelled is the figures they compute and the order in which
    they list them.  The line with [getSpread] and [getMidPrice] does
    arithmetic on doubles and is left out. *)

(** [uint64_t total_qty = 0; for (order : orders) total_qty += order->quantity;] *)
Definition level_total (b : OrderBook) (orders : list nat) : Z :=
  foldl (fun total p => wrap64 (total + Order.quantity (deref b p))) 0 orders.

(** One printed row: price, aggregate quantity, [orders.size()]. *)
Definition level_row (b : OrderBook) (l : Z * list nat) : Z * Z * Z :=
  (l.1, level_total b l.2, Z.of_nat (length l.2)).

(** [for (auto it = asks.rbegin(); it != asks.rend() && count < depth; ++it, ++count)] *)
Definition printOrderBook_asks (depth : Z) (b : OrderBook) : list (Z * Z * Z) :=
  level_row b <$> take (Z.to_nat depth) (reverse (asks b)).

(** [for (const auto& [price, orders] : bids) { if (count >= depth) break; ... count++; }] *)
Definition printOrderBook_bids (depth : Z) (b : OrderBook) : list (Z * Z * Z) :=
  level_row b <$> take (Z.to_nat depth) (bids b).

(** The range of [int]. *)
Definition is_int (z : Z) : bool := (- 2 ^ 31 <=? z) && (z <? 2 ^ 31).

(** [int start = std::max(0, (int)trade_history.size() - n);
     for (int i = start; i < trade_history.size(); ++i) ... trade_history[i]]:
    the trades listed, or [None] when the size does not fit [int] or the
    subtraction overflows. *)
Definition printRecentTrades (n : Z) (b : OrderBook) : option (list Trade.t) :=
  let size := Z.of_nat (length (trade_history b)) in
  if is_int size && is_int (size - n) then
    Some (drop (Z.to_nat (Z.max 0 (size - n))) (trade_history b))
  else None.

(** The three counts of [printStats]: orders processed, trades executed,
    and [order_map.size()], which it prints as "Active bid orders". *)
Definition printStats_counts (b : OrderBook) : Z * Z * Z :=
  (total_orders_processed b, total_trades b, Z.of_nat (size (order_map b))).

(** ** Further notions for the properties of the engine *)

Definition is_add (c : Command) : bool :=
  match c with Add _ _ _ _ => true | Cancel _ => false end.

(** The number of [addOrder] calls in a sequence of commands. *)
Definition adds (cs : list Command) : nat := length (filter (fun c => is_add c = true) cs).

(** The id of the incoming order in a trade made by an incoming order of
    side [a]. *)
Definition incoming_id (a : Side) (t : Trade.t) : Z :=
  match a with BUY => Trade.buy_order_id t | SELL => Trade.sell_order_id t end.

(** A trade price that a limit order of side [a] at price [p] accepts. *)
Definition within_limit (a : Side) (p : Z) (t : Trade.t) : Prop :=
  match a with BUY => Trade.price t <= p | SELL => p <= Trade.price t end.

(** The counters agree with what they count, modulo [2^64]. *)
Definition counters_ok (n : nat) (b : OrderBook) : Prop :=
  total_trades b = wrap64 (Z.of_nat (length (trade_history b))) /\
  total_orders_processed b = wrap64 (Z.of_nat n) /\
  next_order_id b = wrap64 (Z.of_nat n + 1).

(** The loop invariant for the fills of the incoming order since the
    matching started on book [b0]: each has a positive quantity and names
    the incoming order, and together with what is left of the incoming
    order they make up what it had. *)
Definition fills_inv (a : Side) (order : nat) (b0 : OrderBook)
    (x : list (Z * list nat) * OrderBook) : Prop :=
  Order.order_id (deref x.2 order) = Order.order_id (deref b0 order) /\
  exists new,
    trade_history x.2 = trade_history b0 ++ new /\
    Forall (fun t => 0 < Trade.quantity t /\
                     incoming_id a t = Order.order_id (deref b0 order)) new /\
    sum_with Trade.quantity new + Order.quantity (deref x.2 order) =
      Order.quantity (deref b0 order).

(** The loop invariant for priority: the orders taken out so far are a
    prefix of the passive side as it was in [b0], each filled to 0; of
    the orders left only the first can have been touched, and only its
    quantity, downwards; the incoming order's own side is untouched. *)
Definition prio_inv (a : Side) (b0 : OrderBook)
    (x : list (Z * list nat) * OrderBook) : Prop :=
  exists gone,
    resting_ptrs (passive a b0) = gone ++ resting_ptrs x.1 /\
    Forall (fun p => Order.quantity (deref x.2 p) = 0) gone /\
    (forall p, p ∈ tail (resting_ptrs x.1) -> deref x.2 p = deref b0 p) /\
    (forall p, p ∈ resting_ptrs (own a b0) -> deref x.2 p = deref b0 p) /\
    (forall p, p ∈ resting_ptrs x.1 ->
       Order.quantity (deref x.2 p) <= Order.quantity (deref b0 p)).

(** Every resting order is in the index under its id. *)
Definition index_complete (b : OrderBook) : Prop :=
  forall p, p ∈ all_resting b -> order_map b !! Order.order_id (deref b p) = Some p.

Definition complete_inv (a : Side) (x : list (Z * list nat) * OrderBook) : Prop :=
  forall p, p ∈ resting_ptrs x.1 ++ resting_ptrs (own a x.2) ->
            order_map x.2 !! Order.order_id (deref x.2 p) = Some p.

(** Price [best] is beyond the limit [p] of an order of side [s]: the
    price gate stops there. *)
Definition beyond_limit (s : Side) (p best : Z) : Prop :=
  match s with BUY => p < best | SELL => best < p end.

(** Orders are numbered by arrival: before the id counter wraps around,
    the order object created by the [n]-th [addOrder] has id [n], and the
    counter is one more than the number of objects created. *)
Definition ids_by_arrival (b : OrderBook) : Prop :=
  next_order_id b = Z.of_nat (length (heap b)) + 1 /\
  forall x, (x < length (heap b))%nat -> Order.order_id (deref b x) = Z.of_nat x + 1.

(** * Properties *)

(** ** Basic facts about the heap *)

Lemma deref_new_order s t p q b :
  deref (new_order s t p q b).2 (new_order s t p q b).1 = Order.mk (next_order_id b) s t p q.
Proof.
  unfold deref, new_order; simpl.
  by apply list_lookup_total_middle.
Qed.

(** ** Empty sides *)

(** ** The iteration order of the two sides *)

(** C1, evaluated: with bids at 100.40 and 100.30 resting, [getBestBid]
    returns 100.30 although the highest resting bid is 100.40; with asks at
    100.50 and 100.60 resting, [getBestAsk] returns 100.60 although the
    lowest resting ask is 100.50. *)
Theorem best_bid_ask_on_two_levels :
  let b1 := run [Add BUY LIMIT 10040 120; Add BUY LIMIT 10030 180] empty_book in
  let b2 := run [Add SELL LIMIT 10050 100; Add SELL LIMIT 10060 150] empty_book in
  (getBestBid b1 = 10030 /\ highest_bid b1 = Some 10040) /\
  (getBestAsk b2 = 10060 /\ lowest_ask b2 = Some 10050).
Proof. vm_compute. auto. Qed.

(** C2, evaluated: on the demonstration book (asks 100.50 x 100,
    100.60 x 150, 100.70 x 200, 100.80 x 175, 100.90 x 125) a market buy
    of 250 trades 125 at 100.90 and then 125 at 100.80; afterwards
    [getBestAsk] is 100.80 and the lowest resting ask is still 100.50. *)
Theorem market_buy_on_demo_book :
  let b := exec (Add BUY MARKET 0 250) demo_book in
  resting_prices demo_book (asks demo_book) = [10090; 10080; 10070; 10060; 10050] /\
  trade_history demo_book = [] /\
  trade_history b = [Trade.mk 11 5 10090 125; Trade.mk 11 4 10080 125] /\
  getBestAsk b = 10080 /\
  lowest_ask b = Some 10050.
Proof. vm_compute. auto 10. Qed.

(** C3, evaluated: after two resting asks at 100.50 and 100.90, a limit
    buy at 100.55 rests without trading, and the book is crossed: the
    highest bid 100.55 is above the lowest ask 100.50. *)
Theorem crossed_book_after_three_orders :
  let b := run [Add SELL LIMIT 10050 100; Add SELL LIMIT 10090 100;
                Add BUY LIMIT 10055 10] empty_book in
  highest_bid b = Some 10055 /\ lowest_ask b = Some 10050 /\
  trade_history b = [] /\ crossed b = true.
Proof. vm_compute. auto. Qed.

(** C5, evaluated: with asks resting at 100.50 and 100.90, a limit buy
    priced at the lowest ask, 100.50, produces no trade; symmetrically,
    with bids at 100.40 and 100.00, a limit sell priced at the highest
    bid, 100.40, produces no trade. *)
Theorem limit_at_opposite_best_no_trade :
  let b1 := run [Add SELL LIMIT 10050 100; Add SELL LIMIT 10090 100] empty_book in
  let b2 := run [Add BUY LIMIT 10040 100; Add BUY LIMIT 10000 100] empty_book in
  (lowest_ask b1 = Some 10050 /\
   trade_history (addOrder BUY LIMIT 10050 10 b1).2 = trade_history b1) /\
  (highest_bid b2 = Some 10040 /\
   trade_history (addOrder SELL LIMIT 10040 10 b2).2 = trade_history b2).
Proof. vm_compute. auto. Qed.

(** ** Orders the specification calls invalid *)



Lemma set_passive_passive s b : set_passive s (passive s b) b = b.
Proof. by destruct s, b. Qed.

(** ** Machine arithmetic *)

Lemma wrap64_range z : uint64 (wrap64 z).
Proof. unfold uint64, wrap64. apply Z.mod_pos_bound. lia. Qed.

Lemma wrap64_small z : uint64 z -> wrap64 z = z.
Proof. unfold uint64, wrap64. intros H. by apply Z.mod_small. Qed.

Lemma sub_min_l a b : uint64 a -> uint64 b -> wrap64 (a - Z.min a b) = a - Z.min a b.
Proof. unfold uint64. intros Ha Hb. apply wrap64_small. unfold uint64. lia. Qed.

Lemma sub_min_r a b : uint64 a -> uint64 b -> wrap64 (b - Z.min a b) = b - Z.min a b.
Proof. unfold uint64. intros Ha Hb. apply wrap64_small. unfold uint64. lia. Qed.

(** ** Reads after writes *)

Lemma deref_sub_quantity b p n x :
  deref (sub_quantity p n b) x =
  if decide (p = x /\ (p < length (heap b))%nat)
  then Order.sub_quantity n (deref b p) else deref b x.
Proof. unfold deref, sub_quantity; simpl. apply list_lookup_total_alter. Qed.

Lemma deref_sub_quantity_ne b p n x : p <> x -> deref (sub_quantity p n b) x = deref b x.
Proof.
  intros Hne. rewrite deref_sub_quantity.
  case_decide as H; [by destruct H | done].
Qed.

Lemma deref_sub_quantity_eq b p n :
  (p < length (heap b))%nat ->
  deref (sub_quantity p n b) p = Order.sub_quantity n (deref b p).
Proof.
  intros Hlt. rewrite deref_sub_quantity.
  case_decide as H; [done | by destruct H].
Qed.

Lemma same_identity_refl o : same_identity o o.
Proof. by unfold same_identity. Qed.

Lemma same_identity_trans o1 o2 o3 :
  same_identity o1 o2 -> same_identity o2 o3 -> same_identity o1 o3.
Proof. unfold same_identity. intuition congruence. Qed.

Lemma sub_quantity_identity b p n x :
  same_identity (deref (sub_quantity p n b) x) (deref b x).
Proof.
  rewrite deref_sub_quantity. case_decide as H; [|apply same_identity_refl].
  destruct H as [Heq _]. subst x. by unfold same_identity.
Qed.

Lemma fill_one_identity a order k s b x :
  same_identity (deref (fill_one a order k s b) x) (deref b x).
Proof.
  unfold fill_one.
  eapply same_identity_trans; [apply sub_quantity_identity|].
  eapply same_identity_trans; [apply sub_quantity_identity|].
  apply same_identity_refl.
Qed.

Lemma fill_one_length a order k s b :
  length (heap (fill_one a order k s b)) = length (heap b).
Proof. unfold fill_one, sub_quantity; simpl. by rewrite !length_alter. Qed.

Lemma fill_one_other a order k s b x :
  x <> order -> x <> s -> deref (fill_one a order k s b) x = deref b x.
Proof.
  intros Ho Hs. unfold fill_one.
  rewrite !deref_sub_quantity_ne by done. reflexivity.
Qed.

Lemma sub_quantity_heap_uint64 b p n :
  Forall (fun o => uint64 (Order.quantity o)) (heap b) ->
  Forall (fun o => uint64 (Order.quantity o)) (heap (sub_quantity p n b)).
Proof.
  unfold sub_quantity; simpl. intros H.
  apply Forall_alter; [done|]. intros o _ _. simpl. apply wrap64_range.
Qed.

Lemma fill_one_heap_uint64 a order k s b :
  Forall (fun o => uint64 (Order.quantity o)) (heap b) ->
  Forall (fun o => uint64 (Order.quantity o)) (heap (fill_one a order k s b)).
Proof.
  intros H. unfold fill_one.
  by do 2 apply sub_quantity_heap_uint64.
Qed.

Lemma deref_uint64 b p :
  Forall (fun o => uint64 (Order.quantity o)) (heap b) ->
  uint64 (Order.quantity (deref b p)).
Proof.
  intros H. unfold deref.
  destruct (decide (p < length (heap b))%nat) as [Hlt|Hge].
  - apply (Forall_lookup_1 _ _ p _ H). by apply list_lookup_lookup_total_lt.
  - rewrite list_lookup_total_alt, lookup_ge_None_2 by lia. simpl.
    unfold uint64. simpl. lia.
Qed.

(** The two remainders after one fill, when the incoming order is not the
    resting one. *)
Lemma fill_one_quantities a order k s b :
  order <> s ->
  (order < length (heap b))%nat -> (s < length (heap b))%nat ->
  Forall (fun o => uint64 (Order.quantity o)) (heap b) ->
  let tq := Z.min (Order.quantity (deref b order)) (Order.quantity (deref b s)) in
  Order.quantity (deref (fill_one a order k s b) order) = Order.quantity (deref b order) - tq /\
  Order.quantity (deref (fill_one a order k s b) s) = Order.quantity (deref b s) - tq.
Proof.
  intros Hne Ho Hs Hh tq. unfold fill_one. fold tq.
  pose proof (deref_uint64 b order Hh) as Hqo.
  pose proof (deref_uint64 b s Hh) as Hqs.
  split.
  - rewrite deref_sub_quantity_ne by done.
    rewrite deref_sub_quantity_eq by done. simpl.
    by apply sub_min_l.
  - rewrite deref_sub_quantity_eq
      by (unfold sub_quantity; simpl; by rewrite length_alter).
    simpl. rewrite deref_sub_quantity_ne by done.
    by apply sub_min_r.
Qed.

(** ** The loops as sequences of single fills *)

Lemma fill_level_cons a order k s q b :
  fill_level a order k (s :: q) b =
  if 0 <? Order.quantity (deref b order) then
    if Order.quantity (deref (fill_one a order k s b) s) =? 0
    then fill_level a order k q (erase_index s (fill_one a order k s b))
    else (s :: q, fill_one a order k s b)
  else (s :: q, b).
Proof. reflexivity. Qed.

Lemma fill_level_steps a order k rest orders :
  forall b orders' b',
    fill_level a order k orders b = (orders', b') ->
    rtc (fill_step a order) ((k, orders) :: rest, b) ((k, orders') :: rest, b').
Proof.
  induction orders as [|s q IH]; intros b orders' b' Hf.
  - simpl in Hf. simplify_eq. apply rtc_refl.
  - rewrite fill_level_cons in Hf.
    destruct (0 <? Order.quantity (deref b order)) eqn:Hpos;
      [|simplify_eq; apply rtc_refl].
    apply Z.ltb_lt in Hpos.
    destruct (Order.quantity (deref (fill_one a order k s b) s) =? 0) eqn:Hz.
    + apply Z.eqb_eq in Hz.
      eapply rtc_l; [by apply fill_pop|]. by apply IH.
    + apply Z.eqb_neq in Hz. simplify_eq.
      apply rtc_once. by apply fill_keep.
Qed.

Lemma sweep_steps a ty order levels :
  forall b levels' b',
    sweep a ty order levels b = (levels', b') ->
    rtc (fill_step a order) (levels, b) (levels', b').
Proof.
  induction levels as [|[k orders] rest IH]; intros b levels' b' Hs; simpl in Hs.
  - simplify_eq. apply rtc_refl.
  - destruct (0 <? Order.quantity (deref b order)); [|simplify_eq; apply rtc_refl].
    destruct (gate a ty (Order.price (deref b order)) k); [simplify_eq; apply rtc_refl|].
    destruct (fill_level a order k orders b) as [orders' b1] eqn:Hf.
    apply (fill_level_steps a order k rest) in Hf.
    destruct orders' as [|s q].
    + etrans; [exact Hf|]. eapply rtc_l; [apply fill_erase|]. by apply IH.
    + by simplify_eq.
Qed.

(** A property that every single fill keeps is kept by the whole sweep,
    hence by [match_passive]. *)
Lemma sweep_preserves (I : list (Z * list nat) * OrderBook -> Prop) a ty order :
  (forall x y, I x -> fill_step a order x y -> I y) ->
  forall levels b, I (levels, b) -> I (sweep a ty order levels b).
Proof.
  intros Hstep levels b HI.
  destruct (sweep a ty order levels b) as [levels' b'] eqn:Hs.
  apply sweep_steps in Hs.
  induction Hs as [|x y z Hxy _ IH]; [done|].
  apply IH. by eapply Hstep.
Qed.

(** The sweep leaves no empty level behind. *)
Lemma sweep_no_empty_level a ty order levels :
  forall b, no_empty_level levels -> no_empty_level (sweep a ty order levels b).1.
Proof.
  unfold no_empty_level.
  induction levels as [|[k orders] rest IH]; intros b Hne; simpl; [done|].
  destruct (0 <? Order.quantity (deref b order)); [|done].
  destruct (gate a ty (Order.price (deref b order)) k); [done|].
  destruct (fill_level a order k orders b) as [orders' b1].
  apply Forall_cons in Hne as [_ Hne].
  destruct orders' as [|s q]; [by apply IH|].
  simpl. by constructor.
Qed.

(** ** Well-formedness is a loop invariant *)

Lemma resting_ptrs_cons k q rest :
  resting_ptrs ((k, q) :: rest) = q ++ resting_ptrs rest.
Proof. reflexivity. Qed.

Lemma elem_of_resting_ptrs x m :
  x ∈ resting_ptrs m <-> exists k q, (k, q) ∈ m /\ x ∈ q.
Proof.
  unfold resting_ptrs. rewrite list_elem_of_bind. split.
  - intros ([k q] & Hx & Hl). by exists k, q.
  - intros (k & q & Hl & Hx). by exists (k, q).
Qed.

Lemma levels_ok_alt b s m :
  levels_ok b s m <-> forall k q x, (k, q) ∈ m -> x ∈ q -> resting_ok b s k x.
Proof.
  unfold levels_ok. rewrite Forall_forall. split.
  - intros H k q x Hl Hx. specialize (H _ Hl). simpl in H.
    rewrite Forall_forall in H. by apply H.
  - intros H [k q] Hl. simpl. rewrite Forall_forall. intros x Hx. by eapply H.
Qed.

Lemma levels_ok_mono b b' s m :
  (forall k x, x ∈ resting_ptrs m -> resting_ok b s k x -> resting_ok b' s k x) ->
  levels_ok b s m -> levels_ok b' s m.
Proof.
  rewrite !levels_ok_alt. intros Hmono H k q x Hl Hx.
  apply Hmono; [|by eapply H].
  apply elem_of_resting_ptrs. by exists k, q.
Qed.

Lemma resting_ok_transfer b b' s k x :
  length (heap b') = length (heap b) ->
  same_identity (deref b' x) (deref b x) ->
  0 < Order.quantity (deref b' x) ->
  resting_ok b s k x -> resting_ok b' s k x.
Proof.
  intros Hlen (_ & Hside & _ & Hprice) Hq [Hv Hp Hs _].
  split; [by rewrite Hlen | by rewrite Hprice | by rewrite Hside | done].
Qed.

Lemma own_fill_one a a' order k s b : own a (fill_one a' order k s b) = own a b.
Proof. by destruct a. Qed.

Lemma own_erase_index a s b : own a (erase_index s b) = own a b.
Proof. by destruct a. Qed.

(** An order that is neither the incoming one nor the one being filled
    is not touched by a fill. *)
Lemma resting_ok_fill_one_other a order k s b sd kk x :
  x <> order -> x <> s ->
  resting_ok b sd kk x -> resting_ok (fill_one a order k s b) sd kk x.
Proof.
  intros Ho Hs H. eapply resting_ok_transfer; [|apply fill_one_identity| |exact H].
  - apply fill_one_length.
  - rewrite fill_one_other by done. by destruct H.
Qed.

Lemma levels_ok_same_heap b b' sd m :
  heap b' = heap b -> levels_ok b sd m -> levels_ok b' sd m.
Proof.
  intros Hh. apply levels_ok_mono. intros k x _ [Hv Hp Hs Hq].
  unfold deref in *. split; unfold deref; by rewrite Hh.
Qed.

Lemma levels_ok_erase_index s b sd m :
  levels_ok b sd m -> levels_ok (erase_index s b) sd m.
Proof. by apply levels_ok_same_heap. Qed.

Lemma order_map_erase_index s b :
  order_map (erase_index s b) = delete (Order.order_id (deref b s)) (order_map b).
Proof. reflexivity. Qed.

Lemma order_map_fill_one a order k s b : order_map (fill_one a order k s b) = order_map b.
Proof. reflexivity. Qed.

Lemma heap_erase_index s b : heap (erase_index s b) = heap b.
Proof. reflexivity. Qed.

Lemma deref_erase_index s b x : deref (erase_index s b) x = deref b x.
Proof. reflexivity. Qed.

Lemma match_inv_step a order x y :
  match_inv a order x -> fill_step a order x y -> match_inv a order y.
Proof.
  intros (Hok & Hlt & Hnot) Hstep.
  unfold match_inv.
  destruct Hstep as [k s q rest b Hpos Hz | k s q rest b Hpos Hnz | k rest b];
    cbn [fst snd] in *.
  - (* the head is exhausted and popped *)
    destruct Hok as [Hps Hos Hp Ho Hnd Hidx Hh].
    rewrite resting_ptrs_cons in Hnd, Hnot, Hidx. simpl in Hnd, Hnot, Hidx.
    apply NoDup_cons in Hnd as [Hs_notin Hnd].
    apply not_elem_of_cons in Hnot as [Hne Hnot].
    rewrite own_erase_index, own_fill_one.
    split; [split|split].
    + exact Hps.
    + exact Hos.
    + apply levels_ok_erase_index. apply levels_ok_mono with (b := b).
      * intros kk x Hx Hr. rewrite resting_ptrs_cons in Hx.
        apply resting_ok_fill_one_other; [| |done].
        -- intros ->. apply Hnot. apply elem_of_app. by left.
        -- intros ->. apply Hs_notin. apply elem_of_app. by left.
      * unfold levels_ok in *. apply Forall_cons in Hp as [Hq Hrest].
        simpl in Hq. apply Forall_cons in Hq as [_ Hq]. by constructor.
    + apply levels_ok_erase_index. apply levels_ok_mono with (b := b); [|done].
      intros kk x Hx Hr.
      apply resting_ok_fill_one_other; [| |done].
      * intros ->. apply Hnot. apply elem_of_app. by right.
      * intros ->. apply Hs_notin. apply elem_of_app. by right.
    + rewrite resting_ptrs_cons. exact Hnd.
    + intros id p Hl. rewrite resting_ptrs_cons.
      rewrite order_map_erase_index in Hl.
      apply lookup_delete_Some in Hl as [Hid Hl].
      rewrite order_map_fill_one in Hl.
      destruct (Hidx id p Hl) as [Hpid Hin].
      destruct (fill_one_identity a order k s b p) as (Hi & _).
      destruct (fill_one_identity a order k s b s) as (His & _).
      rewrite deref_erase_index.
      split; [congruence|].
      apply elem_of_cons in Hin as [->|Hin]; [|done].
      exfalso. apply Hid. congruence.
    + by apply fill_one_heap_uint64.
    + by rewrite heap_erase_index, fill_one_length.
    + by rewrite resting_ptrs_cons.
  - (* the head keeps a remainder *)
    destruct Hok as [Hps Hos Hp Ho Hnd Hidx Hh].
    rewrite resting_ptrs_cons in Hnd, Hnot, Hidx. simpl in Hnd, Hnot, Hidx.
    pose proof Hnd as Hnd'.
    apply NoDup_cons in Hnd' as [Hs_notin _].
    pose proof Hnot as Hnot'.
    apply not_elem_of_cons in Hnot' as [Hne Hnot'].
    rewrite own_fill_one.
    assert (Hsq : 0 < Order.quantity (deref (fill_one a order k s b) s)).
    { pose proof (deref_uint64 _ s (fill_one_heap_uint64 a order k s b Hh)) as Hu.
      unfold uint64 in Hu. lia. }
    assert (Hmono : forall sd kk x,
               x ∈ (s :: q ++ resting_ptrs rest) ++ resting_ptrs (own a b) ->
               resting_ok b sd kk x -> resting_ok (fill_one a order k s b) sd kk x).
    { intros sd kk x Hx Hr.
      destruct (decide (x = s)) as [->|Hxs].
      - eapply resting_ok_transfer; [apply fill_one_length|apply fill_one_identity|done|done].
      - apply resting_ok_fill_one_other; [|done|done].
        intros ->. by apply Hnot. }
    split; [split|split].
    + exact Hps.
    + exact Hos.
    + apply levels_ok_mono with (b := b); [|done].
      intros kk x Hx Hr. apply Hmono; [|done].
      rewrite resting_ptrs_cons in Hx. set_solver.
    + apply levels_ok_mono with (b := b); [|done].
      intros kk x Hx Hr. apply Hmono; [|done]. set_solver.
    + by rewrite resting_ptrs_cons.
    + intros id p Hl. rewrite resting_ptrs_cons.
      rewrite order_map_fill_one in Hl.
      destruct (Hidx id p Hl) as [Hpid Hin].
      destruct (fill_one_identity a order k s b p) as (Hi & _).
      split; [congruence | done].
    + by apply fill_one_heap_uint64.
    + by rewrite fill_one_length.
    + by rewrite resting_ptrs_cons.
  - (* an empty first level is erased *)
    destruct Hok as [Hps Hos Hp Ho Hnd Hidx Hh].
    rewrite resting_ptrs_cons in Hnd, Hnot, Hidx. simpl in Hnd, Hnot, Hidx.
    split; [split|split]; try done.
    + unfold sorted_keys in *. simpl in Hps. by apply StronglySorted_inv in Hps as [? _].
    + unfold levels_ok in *. by apply Forall_cons in Hp as [_ ?].
Qed.

(** ** Price levels under a strict total order *)

Section PriceLevelFacts.
Variable comp : Z -> Z -> bool.
Hypothesis comp_irrefl : forall a, comp a a = false.
Hypothesis comp_trans : forall a b c, comp a b = true -> comp b c = true -> comp a c = true.
Hypothesis comp_total : forall a b, comp a b = false -> comp b a = false -> a = b.

Lemma pm_index_cons k k' q m :
  pm_index comp k ((k', q) :: m) =
  if comp k k' then (k, []) :: (k', q) :: m
  else if comp k' k then (k', q) :: pm_index comp k m else (k', q) :: m.
Proof. reflexivity. Qed.

Lemma pm_modify_cons f k k' q m :
  pm_modify comp f k ((k', q) :: m) =
  if comp k k' then (k', q) :: m
  else if comp k' k then (k', q) :: pm_modify comp f k m else (k', f q) :: m.
Proof. reflexivity. Qed.

Lemma pm_at_cons k k' q m :
  pm_at comp k ((k', q) :: m) =
  if comp k k' then [] else if comp k' k then pm_at comp k m else q.
Proof. reflexivity. Qed.

Lemma pm_erase_cons k k' q m :
  pm_erase comp k ((k', q) :: m) =
  if comp k k' then (k', q) :: m
  else if comp k' k then (k', q) :: pm_erase comp k m else m.
Proof. reflexivity. Qed.

Lemma pm_push_back_nil k p : pm_push_back comp k p [] = [(k, [p])].
Proof.
  unfold pm_push_back. simpl pm_index.
  by rewrite pm_modify_cons, comp_irrefl.
Qed.

Lemma pm_push_back_cons k p k' q m :
  pm_push_back comp k p ((k', q) :: m) =
  if comp k k' then (k, [p]) :: (k', q) :: m
  else if comp k' k then (k', q) :: pm_push_back comp k p m
  else (k', q ++ [p]) :: m.
Proof.
  unfold pm_push_back. rewrite pm_index_cons.
  destruct (comp k k') eqn:H1; [|destruct (comp k' k) eqn:H2];
    by rewrite pm_modify_cons, ?comp_irrefl, ?H1, ?H2.
Qed.

Lemma pm_remove_nil k p : pm_remove comp k p [] = [].
Proof.
  unfold pm_remove. simpl pm_index. cbv zeta.
  rewrite pm_modify_cons, !comp_irrefl, pm_at_cons, !comp_irrefl.
  rewrite filter_nil. by rewrite pm_erase_cons, comp_irrefl.
Qed.

Lemma pm_remove_cons k p k' q m :
  pm_remove comp k p ((k', q) :: m) =
  if comp k k' then (k', q) :: m
  else if comp k' k then (k', q) :: pm_remove comp k p m
  else match filter (fun x => x <> p) q with
       | [] => m
       | x :: q' => (k', x :: q') :: m
       end.
Proof.
  unfold pm_remove. cbv zeta. rewrite pm_index_cons.
  destruct (comp k k') eqn:H1; [|destruct (comp k' k) eqn:H2].
  - rewrite pm_modify_cons, !comp_irrefl, pm_at_cons, !comp_irrefl.
    rewrite filter_nil. by rewrite pm_erase_cons, comp_irrefl.
  - rewrite pm_modify_cons, H1, H2, pm_at_cons, H1, H2.
    destruct (pm_at comp k _); [|done]. by rewrite pm_erase_cons, H1, H2.
  - rewrite pm_modify_cons, H1, H2, pm_at_cons, H1, H2.
    destruct (filter _ q); [|done]. by rewrite pm_erase_cons, H1, H2.
Qed.

Lemma pm_push_back_keys k p m x :
  x ∈ (pm_push_back comp k p m).*1 -> x = k \/ x ∈ m.*1.
Proof.
  induction m as [|[k' q] m IH].
  - rewrite pm_push_back_nil. set_solver.
  - rewrite pm_push_back_cons.
    destruct (comp k k'); [|destruct (comp k' k)]; rewrite !fmap_cons; cbn [fst].
    + intros [->|Hx]%elem_of_cons; [by left|by right].
    + intros [->|Hx]%elem_of_cons; [right; by left|].
      apply IH in Hx as [->|Hx]; [by left|right; by right].
    + by right.
Qed.

Lemma pm_push_back_sorted k p m :
  sorted_keys comp m -> sorted_keys comp (pm_push_back comp k p m).
Proof.
  unfold sorted_keys. induction m as [|[k' q] m IH]; intros Hs.
  - rewrite pm_push_back_nil. simpl. repeat constructor.
  - rewrite pm_push_back_cons. simpl in Hs.
    pose proof Hs as Hs'. apply StronglySorted_cons in Hs' as [Hall Hm].
    destruct (comp k k') eqn:H1; [|destruct (comp k' k) eqn:H2]; simpl.
    + apply StronglySorted_cons. split; [|done].
      constructor; [done|].
      eapply Forall_impl; [exact Hall|]. intros y Hy. simpl in Hy. by eapply comp_trans.
    + apply StronglySorted_cons. split; [|by apply IH].
      apply Forall_forall. intros y Hy.
      apply pm_push_back_keys in Hy as [->|Hy]; [done|].
      rewrite Forall_forall in Hall. by apply Hall.
    + done.
Qed.

Lemma pm_push_back_resting k p m :
  resting_ptrs (pm_push_back comp k p m) ≡ₚ p :: resting_ptrs m.
Proof.
  induction m as [|[k' q] m IH].
  - by rewrite pm_push_back_nil.
  - rewrite pm_push_back_cons.
    destruct (comp k k'); [done|].
    destruct (comp k' k); rewrite !resting_ptrs_cons.
    + rewrite IH. by rewrite Permutation_middle.
    + rewrite <- (assoc_L (++)). simpl.
      by rewrite <- Permutation_middle.
Qed.

Lemma pm_push_back_levels_ok b sd k p m :
  levels_ok b sd m -> resting_ok b sd k p ->
  levels_ok b sd (pm_push_back comp k p m).
Proof.
  unfold levels_ok. intros Hm Hp. induction m as [|[k' q] m IH].
  - rewrite pm_push_back_nil. constructor; [|constructor]. simpl. by constructor.
  - rewrite pm_push_back_cons. apply Forall_cons in Hm as [Hq Hm].
    destruct (comp k k') eqn:H1; [|destruct (comp k' k) eqn:H2].
    + constructor; [simpl; by constructor|by constructor].
    + constructor; [done|by apply IH].
    + constructor; [|done]. simpl in *.
      rewrite (comp_total _ _ H1 H2) in Hp.
      apply Forall_app. split; [done|by constructor].
Qed.

Lemma pm_push_back_no_empty_level k p m :
  no_empty_level m -> no_empty_level (pm_push_back comp k p m).
Proof.
  unfold no_empty_level. induction m as [|[k' q] m IH]; intros Hm.
  - rewrite pm_push_back_nil. by repeat constructor.
  - rewrite pm_push_back_cons. pose proof Hm as Hm'. apply Forall_cons in Hm' as [Hq Hm'].
    destruct (comp k k'); [by constructor|].
    destruct (comp k' k); constructor; auto.
    simpl. by destruct q.
Qed.

Lemma pm_remove_keys k p m x :
  x ∈ (pm_remove comp k p m).*1 -> x ∈ m.*1.
Proof.
  induction m as [|[k' q] m IH].
  - by rewrite pm_remove_nil.
  - rewrite pm_remove_cons.
    destruct (comp k k'); [done|].
    destruct (comp k' k); [set_solver|].
    destruct (filter _ q); set_solver.
Qed.

Lemma pm_remove_sorted k p m :
  sorted_keys comp m -> sorted_keys comp (pm_remove comp k p m).
Proof.
  unfold sorted_keys. induction m as [|[k' q] m IH]; intros Hs.
  - by rewrite pm_remove_nil.
  - rewrite pm_remove_cons. simpl in Hs.
    pose proof Hs as Hs'. apply StronglySorted_cons in Hs' as [Hall Hm].
    destruct (comp k k'); [done|].
    destruct (comp k' k).
    + simpl. apply StronglySorted_cons. split; [|by apply IH].
      apply Forall_forall. intros y Hy. apply pm_remove_keys in Hy.
      rewrite Forall_forall in Hall. by apply Hall.
    + by destruct (filter _ q).
Qed.

Lemma pm_remove_levels_ok b sd k p m :
  levels_ok b sd m -> levels_ok b sd (pm_remove comp k p m).
Proof.
  unfold levels_ok. intros Hm. induction m as [|[k' q] m IH].
  - by rewrite pm_remove_nil.
  - rewrite pm_remove_cons. pose proof Hm as Hm'. apply Forall_cons in Hm' as [Hq Hm'].
    destruct (comp k k'); [done|].
    destruct (comp k' k); [constructor; auto|].
    destruct (filter _ q) as [|x q'] eqn:Hf; [done|].
    constructor; [|done]. simpl in *. rewrite <- Hf.
    apply Forall_forall. intros y Hy. apply list_elem_of_filter in Hy as [_ Hy].
    rewrite Forall_forall in Hq. by apply Hq.
Qed.

Lemma pm_remove_no_empty_level k p m :
  no_empty_level m -> no_empty_level (pm_remove comp k p m).
Proof.
  unfold no_empty_level. induction m as [|[k' q] m IH]; intros Hm.
  - by rewrite pm_remove_nil.
  - rewrite pm_remove_cons. pose proof Hm as Hm'. apply Forall_cons in Hm' as [Hq Hm'].
    destruct (comp k k'); [done|].
    destruct (comp k' k); [constructor; auto|].
    destruct (filter _ q) as [|x q'] eqn:Hf; [done|].
    by constructor.
Qed.

Lemma filter_ne_id (p : nat) (l : list nat) : p ∉ l -> filter (fun x => x <> p) l = l.
Proof.
  induction l as [|y l IH]; intros Hp; [done|].
  apply not_elem_of_cons in Hp as [Hne Hp].
  rewrite filter_cons_True by done. by rewrite IH.
Qed.

(** On a sorted side where [p] occurs at level [k] only, [pm_remove]
    takes every occurrence of [p] out and nothing else. *)
Lemma pm_remove_resting k p m :
  sorted_keys comp m ->
  (forall k' q, (k', q) ∈ m -> p ∈ q -> k' = k) ->
  resting_ptrs (pm_remove comp k p m) = filter (fun x => x <> p) (resting_ptrs m).
Proof.
  unfold sorted_keys. induction m as [|[k' q] m IH]; intros Hs Hk.
  - by rewrite pm_remove_nil.
  - rewrite pm_remove_cons. simpl in Hs.
    apply StronglySorted_cons in Hs as [Hall Hm].
    rewrite Forall_forall in Hall.
    assert (Htail : forall k1 q1, (k1, q1) ∈ m -> p ∈ q1 -> k1 = k) by set_solver.
    destruct (comp k k') eqn:H1; [|destruct (comp k' k) eqn:H2].
    + symmetry. apply filter_ne_id. intros Hin.
      apply elem_of_resting_ptrs in Hin as (k1 & q1 & Hl & Hp).
      apply elem_of_cons in Hl as [Heq|Hl].
      * injection Heq as -> ->.
        rewrite (Hk k' q) in H1 by set_solver. by rewrite comp_irrefl in H1.
      * assert (k1 = k) as -> by (by eapply Htail).
        assert (comp k' k = true) as Hc by (apply Hall; set_solver).
        pose proof (comp_trans _ _ _ H1 Hc) as Hkk. by rewrite comp_irrefl in Hkk.
    + rewrite !resting_ptrs_cons, filter_app. rewrite IH by done.
      f_equal. symmetry. apply filter_ne_id. intros Hp.
      rewrite (Hk k' q) in H2 by set_solver. by rewrite comp_irrefl in H2.
    + pose proof (comp_total _ _ H1 H2) as ->.
      assert (Hm_notin : p ∉ resting_ptrs m).
      { intros Hin. apply elem_of_resting_ptrs in Hin as (k1 & q1 & Hl & Hp).
        assert (k1 = k') as -> by (by eapply Htail).
        assert (comp k' k' = true) as Hc by (apply Hall; set_solver).
        by rewrite comp_irrefl in Hc. }
      rewrite resting_ptrs_cons, filter_app, (filter_ne_id p (resting_ptrs m)) by done.
      by destruct (filter _ q).
Qed.

(** Resting an order that rests nowhere and removing it again gives back
    the side as it was. *)
Lemma pm_remove_push_back k p m :
  p ∉ resting_ptrs m -> no_empty_level m ->
  pm_remove comp k p (pm_push_back comp k p m) = m.
Proof.
  unfold no_empty_level. induction m as [|[k' q] m IH]; intros Hp Hne.
  - rewrite pm_push_back_nil, pm_remove_cons, comp_irrefl.
    rewrite filter_cons_False by (intros H; by apply H). done.
  - rewrite pm_push_back_cons. rewrite resting_ptrs_cons in Hp.
    apply not_elem_of_app in Hp as [Hq Hm].
    apply Forall_cons in Hne as [Hqne Hne]. simpl in Hqne.
    destruct (comp k k') eqn:H1; [|destruct (comp k' k) eqn:H2];
      rewrite pm_remove_cons, ?comp_irrefl, ?H1, ?H2.
    + rewrite filter_cons_False by (intros H; by apply H). done.
    + by rewrite IH.
    + rewrite filter_app, filter_ne_id by done.
      rewrite filter_cons_False by (intros H; by apply H).
      rewrite filter_nil, app_nil_r. by destruct q.
Qed.
End PriceLevelFacts.

(** ** The two comparators are strict total orders *)

Lemma own_comp_irrefl s a : own_comp s a a = false.
Proof. destruct s; unfold own_comp, bids_comp, asks_comp; rewrite ?Z.gtb_ltb; apply Z.ltb_irrefl. Qed.

Lemma own_comp_trans s a b c :
  own_comp s a b = true -> own_comp s b c = true -> own_comp s a c = true.
Proof.
  destruct s; unfold own_comp, bids_comp, asks_comp; rewrite ?Z.gtb_ltb, !Z.ltb_lt; lia.
Qed.

Lemma own_comp_total s a b :
  own_comp s a b = false -> own_comp s b a = false -> a = b.
Proof.
  destruct s; unfold own_comp, bids_comp, asks_comp; rewrite ?Z.gtb_ltb, !Z.ltb_ge; lia.
Qed.

(** ** The source functions in terms of the side-generic ones *)

Lemma matchLimitBuy_eq order b : matchLimitBuy order b = match_limit BUY order b.
Proof. reflexivity. Qed.

Lemma matchLimitSell_eq order b : matchLimitSell order b = match_limit SELL order b.
Proof. reflexivity. Qed.

Lemma addOrder_eq s t p q b :
  addOrder s t p q b =
  let b1 := (new_order s t p q b).2 in
  let order := length (heap b) in
  let b2 := match t with
            | MARKET => match_passive s MARKET order b1
            | LIMIT => match_limit s order b1
            end in
  (Order.order_id (deref b2 order), b2).
Proof. by destruct s, t. Qed.

Lemma cancelOrder_eq id b :
  cancelOrder id b =
  match order_map b !! id with
  | None => (false, b)
  | Some order =>
      let a := Order.side (deref b order) in
      (true, set_order_map (delete id (order_map b))
               (set_own a (pm_remove (own_comp a) (Order.price (deref b order)) order (own a b)) b))
  end.
Proof.
  unfold cancelOrder. destruct (order_map b !! id) as [order|]; [|done].
  by destruct (Order.side (deref b order)).
Qed.

(** ** Views of a well-formed book *)

Lemma book_ok_sides a b : book_ok b <-> sides_ok b a (passive a b) (own a b).
Proof.
  destruct a; simpl; split; intros [? ? ? ? Hnd Hidx ?]; split; try done.
  - unfold all_resting in Hnd. by rewrite Permutation_app_comm.
  - intros id p Hl. destruct (Hidx id p Hl) as [? Hin]. split; [done|].
    unfold all_resting in Hin. set_solver.
  - unfold all_resting. by rewrite Permutation_app_comm.
  - intros id p Hl. destruct (Hidx id p Hl) as [? Hin]. split; [done|].
    unfold all_resting. set_solver.
Qed.

Lemma passive_set_passive a m b : passive a (set_passive a m b) = m.
Proof. by destruct a. Qed.

Lemma own_set_passive a m b : own a (set_passive a m b) = own a b.
Proof. by destruct a. Qed.

Lemma passive_set_own a m b : passive a (set_own a m b) = passive a b.
Proof. by destruct a. Qed.

Lemma own_set_own a m b : own a (set_own a m b) = m.
Proof. by destruct a. Qed.

Lemma sides_ok_same_state b b' a pas o :
  heap b' = heap b -> order_map b' = order_map b ->
  sides_ok b a pas o -> sides_ok b' a pas o.
Proof.
  intros Hh Hm [? ? ? ? ? Hidx ?]. split; try done.
  - by apply (levels_ok_same_heap b).
  - by apply (levels_ok_same_heap b).
  - intros id p. rewrite Hm. unfold deref. rewrite Hh. apply Hidx.
  - by rewrite Hh.
Qed.

Lemma book_ok_set_passive a levels b :
  sides_ok b a levels (own a b) -> book_ok (set_passive a levels b).
Proof.
  intros H. apply (book_ok_sides a).
  rewrite passive_set_passive, own_set_passive.
  eapply sides_ok_same_state; [| |exact H]; by destruct a.
Qed.

Lemma all_resting_sides a b x :
  x ∈ all_resting b <-> x ∈ resting_ptrs (passive a b) ++ resting_ptrs (own a b).
Proof. unfold all_resting. destruct a; simpl; set_solver. Qed.

Lemma resting_valid b x : book_ok b -> x ∈ all_resting b -> (x < length (heap b))%nat.
Proof.
  intros [_ _ Hb Ha _ _ _] Hx. unfold all_resting in Hx.
  rewrite levels_ok_alt in Hb, Ha.
  apply elem_of_app in Hx as [Hx|Hx];
    apply elem_of_resting_ptrs in Hx as (k & q & Hl & Hx).
  - by destruct (Hb k q x Hl Hx).
  - by destruct (Ha k q x Hl Hx).
Qed.

(** ** What matching leaves alone *)

Lemma fill_frame_refl a b : fill_frame a b b.
Proof.
  split; [done|intros; apply same_identity_refl|done|done|done|].
  exists []. by rewrite app_nil_r.
Qed.

Lemma fill_frame_fill_one a a' order k s b0 b :
  fill_frame a b0 b -> fill_frame a b0 (fill_one a' order k s b).
Proof.
  intros [Hl Hi Ho Hn Hx [new Ht]]. split.
  - by rewrite fill_one_length.
  - intros p. eapply same_identity_trans; [apply fill_one_identity|apply Hi].
  - by rewrite own_fill_one.
  - done.
  - done.
  - eexists (new ++ [_]). unfold fill_one; simpl. by rewrite Ht, <- (assoc_L (++)).
Qed.

Lemma fill_frame_erase_index a s b0 b :
  fill_frame a b0 b -> fill_frame a b0 (erase_index s b).
Proof.
  intros [Hl Hi Ho Hn Hx Ht]. split; [done|done| |done| |done].
  - by rewrite own_erase_index.
  - intros id p. rewrite order_map_erase_index.
    intros [_ H]%lookup_delete_Some. by apply Hx.
Qed.

Lemma fill_frame_step a order b0 x y :
  fill_frame a b0 x.2 -> fill_step a order x y -> fill_frame a b0 y.2.
Proof.
  intros Hf Hstep.
  destruct Hstep as [k s q rest b Hpos Hz | k s q rest b Hpos Hnz | k rest b];
    cbn [fst snd] in *.
  - by apply fill_frame_erase_index, fill_frame_fill_one.
  - by apply fill_frame_fill_one.
  - done.
Qed.

Lemma fill_frame_set_passive a levels b0 b :
  fill_frame a b0 b -> fill_frame a b0 (set_passive a levels b).
Proof.
  intros [Hl Hi Ho Hn Hx Ht].
  split; by destruct a.
Qed.

(** ** Matching keeps the book well formed *)

Lemma match_passive_spec a ty order b :
  book_wf b -> (order < length (heap b))%nat -> (order ∉ all_resting b) ->
  let b' := match_passive a ty order b in
  book_wf b' /\ (order ∉ all_resting b') /\ fill_frame a b b'.
Proof.
  intros [Hok Hbn Han] Hlt Hnot. unfold match_passive.
  assert (Hinv : match_inv a order (passive a b, b)).
  { split; [by apply book_ok_sides|]. split; [done|].
    cbn [fst snd]. by rewrite <- all_resting_sides. }
  pose proof (sweep_preserves _ a ty order (match_inv_step a order) _ _ Hinv) as Hinv'.
  pose proof (sweep_preserves (fun x => fill_frame a b x.2) a ty order
                (fill_frame_step a order b) (passive a b) b (fill_frame_refl a b)) as Hfr.
  pose proof (sweep_no_empty_level a ty order (passive a b) b) as Hne.
  destruct (sweep a ty order (passive a b) b) as [levels' b1].
  cbn [fst snd] in *. destruct Hinv' as (Hs & Hlt' & Hnot').
  split; [split|split].
  - by apply book_ok_set_passive.
  - destruct a; cbn [set_passive bids set_bids set_asks];
      [change (no_empty_level (own BUY b1))|apply Hne; by simpl].
    destruct Hfr as [_ _ -> _ _ _]. done.
  - destruct a; cbn [set_passive asks set_bids set_asks];
      [apply Hne; by simpl|change (no_empty_level (own SELL b1))].
    destruct Hfr as [_ _ -> _ _ _]. done.
  - rewrite (all_resting_sides a), passive_set_passive, own_set_passive. done.
  - by apply fill_frame_set_passive.
Qed.

(** ** Allocation of the incoming order *)

Lemma deref_new_order_old s t p q b x :
  (x < length (heap b))%nat -> deref (new_order s t p q b).2 x = deref b x.
Proof. intros Hx. unfold deref, new_order; simpl. by apply lookup_total_app_l. Qed.

Lemma resting_ok_new_order s t p q b sd k x :
  resting_ok b sd k x -> resting_ok (new_order s t p q b).2 sd k x.
Proof.
  intros [Hv Hp Hs Hq].
  split; rewrite ?deref_new_order_old by done; try done.
  unfold new_order; simpl. rewrite length_app. lia.
Qed.

Lemma new_order_wf s t p q b :
  book_wf b -> uint64 q ->
  let b1 := (new_order s t p q b).2 in
  let order := length (heap b) in
  book_wf b1 /\ (order < length (heap b1))%nat /\ (order ∉ all_resting b1).
Proof.
  intros [Hok Hbn Han] Hq b1 order.
  assert (Hfresh : order ∉ all_resting b).
  { intros Hin. apply (resting_valid b) in Hin; [|done]. subst order. lia. }
  destruct Hok as [Hbs Has Hb Ha Hnd Hidx Hh].
  split; [split; [split|..]|split]; try done.
  - eapply levels_ok_mono; [|exact Hb]. intros. by apply resting_ok_new_order.
  - eapply levels_ok_mono; [|exact Ha]. intros. by apply resting_ok_new_order.
  - intros id x Hl. destruct (Hidx id x Hl) as [Hid Hin]. split; [|done].
    subst b1. rewrite deref_new_order_old; [done|].
    apply resting_valid; [by split|done].
  - subst b1. unfold new_order; simpl. apply Forall_app. split; [done|].
    constructor; [done|constructor].
  - subst b1 order. unfold new_order; simpl. rewrite length_app. simpl. lia.
Qed.

(** ** Resting the remainder of a limit order *)

#[local] Hint Resolve own_comp_irrefl own_comp_trans own_comp_total : core.

Lemma resting_ok_same_heap b b' sd k x :
  heap b' = heap b -> resting_ok b sd k x -> resting_ok b' sd k x.
Proof. intros Hh [Hv Hp Hs Hq]. unfold deref in *. split; unfold deref; by rewrite Hh. Qed.

Lemma rest_order_wf a order b :
  book_wf b -> (order < length (heap b))%nat -> (order ∉ all_resting b) ->
  Order.side (deref b order) = a ->
  0 < Order.quantity (deref b order) ->
  book_wf (rest_order a order b).
Proof.
  intros [Hok Hbn Han] Hlt Hnot Hside Hq.
  set (k := Order.price (deref b order)).
  set (m := pm_push_back (own_comp a) k order (own a b)).
  assert (Hb' : rest_order a order b =
                set_order_map (<[Order.order_id (deref b order) := order]> (order_map b))
                              (set_own a m b)) by (by destruct a).
  rewrite Hb'. clear Hb'.
  assert (Hro : resting_ok b a k order) by (by split).
  apply (book_ok_sides a) in Hok as [Hps Hos Hp Ho Hnd Hidx Hh].
  rewrite (all_resting_sides a) in Hnot.
  assert (Hperm : resting_ptrs m ≡ₚ order :: resting_ptrs (own a b)).
  { apply pm_push_back_resting; auto. }
  assert (Hok' : sides_ok (set_order_map (<[Order.order_id (deref b order) := order]> (order_map b))
                                         (set_own a m b)) a (passive a b) m).
  { split.
    - done.
    - apply pm_push_back_sorted; eauto.
    - eapply levels_ok_same_heap; [|exact Hp]. by destruct a.
    - eapply (levels_ok_same_heap b); [by destruct a|].
      apply pm_push_back_levels_ok; eauto.
    - rewrite Hperm. rewrite <- Permutation_middle. by apply NoDup_cons.
    - intros id x Hl.
      assert (Hl' : <[Order.order_id (deref b order) := order]> (order_map b) !! id = Some x)
        by (by destruct a).
      assert (Hd : forall y, deref (set_order_map (<[Order.order_id (deref b order) := order]> (order_map b))
                                         (set_own a m b)) y = deref b y) by (by destruct a).
      rewrite Hd, Hperm.
      apply lookup_insert_Some in Hl' as [[<- <-]|[Hne Hl']].
      + split; [done|set_solver].
      + destruct (Hidx id x Hl') as [? ?]. split; [done|set_solver].
    - by destruct a. }
  split.
  - apply (book_ok_sides a).
    replace (passive a _) with (passive a b) by (by destruct a).
    replace (own a _) with m by (by destruct a). done.
  - destruct a; simpl; [|done]. apply pm_push_back_no_empty_level; [apply (own_comp_irrefl BUY)|done].
  - destruct a; simpl; [done|]. apply pm_push_back_no_empty_level; [apply (own_comp_irrefl SELL)|done].
Qed.

(** ** Every command keeps the book well formed *)

Lemma deref_new_order_here s t p q b :
  deref (new_order s t p q b).2 (length (heap b)) = Order.mk (next_order_id b) s t p q.
Proof. apply (deref_new_order s t p q b). Qed.

Lemma addOrder_wf s t p q b :
  book_wf b -> uint64 q -> book_wf (addOrder s t p q b).2.
Proof.
  intros Hwf Hq. rewrite addOrder_eq. cbv zeta. cbn [snd].
  destruct (new_order_wf s t p q b Hwf Hq) as (Hwf1 & Hlt & Hnot).
  pose proof (deref_new_order_here s t p q b) as Hd.
  set (b1 := (new_order s t p q b).2) in *.
  set (order := length (heap b)) in *.
  destruct t.
  - unfold match_limit.
    destruct (match_passive_spec s LIMIT order b1 Hwf1 Hlt Hnot) as (Hwf2 & Hnot2 & Hfr).
    set (b2 := match_passive s LIMIT order b1) in *.
    destruct (0 <? Order.quantity (deref b2 order)) eqn:Hpos; [|done].
    apply Z.ltb_lt in Hpos.
    destruct Hfr as [Hlen Hid _ _ _ _].
    apply rest_order_wf; try done.
    + by rewrite Hlen.
    + destruct (Hid order) as (_ & -> & _). by rewrite Hd.
  - by destruct (match_passive_spec s MARKET order b1 Hwf1 Hlt Hnot) as (Hwf2 & _).
Qed.

(** A cancel that finds the id: the pointer leaves its own side, which
    is the only place where it rests, and the index. *)
Lemma cancelOrder_found id order b :
  book_wf b -> order_map b !! id = Some order ->
  let b' := (cancelOrder id b).2 in
  (cancelOrder id b).1 = true /\
  book_wf b' /\
  all_resting b' = filter (fun x => x <> order) (all_resting b) /\
  order_map b' = delete id (order_map b) /\
  heap b' = heap b /\ trade_history b' = trade_history b /\
  next_order_id b' = next_order_id b.
Proof.
  intros [Hok Hbn Han] Hl. rewrite cancelOrder_eq, Hl. cbv zeta. cbn [fst snd].
  set (a := Order.side (deref b order)).
  set (k := Order.price (deref b order)).
  set (m := pm_remove (own_comp a) k order (own a b)).
  set (b' := set_order_map (delete id (order_map b)) (set_own a m b)).
  assert (Hheap : heap b' = heap b) by (by destruct a).
  assert (Hpas : passive a b' = passive a b) by (by destruct a).
  assert (Hown : own a b' = m) by (by destruct a).
  assert (Hmap : order_map b' = delete id (order_map b)) by (by destruct a).
  pose proof Hok as Hok0.
  apply (book_ok_sides a) in Hok as [Hps Hos Hp Ho Hnd Hidx Hh].
  destruct (Hidx id order Hl) as [Hid Hin].
  assert (Hnotpas : order ∉ resting_ptrs (passive a b)).
  { intros Hx. apply elem_of_resting_ptrs in Hx as (k' & q & Hlv & Hx).
    rewrite levels_ok_alt in Hp. destruct (Hp k' q order Hlv Hx) as [_ _ Hs _].
    fold a in Hs. by destruct a. }
  assert (Honly : forall k' q, (k', q) ∈ own a b -> order ∈ q -> k' = k).
  { intros k' q Hlv Hx. rewrite levels_ok_alt in Ho.
    by destruct (Ho k' q order Hlv Hx) as [_ Hpr _ _]. }
  assert (Hrest : resting_ptrs m = filter (fun x => x <> order) (resting_ptrs (own a b))).
  { apply pm_remove_resting; eauto. }
  assert (Hall : all_resting b' = filter (fun x => x <> order) (all_resting b)).
  { unfold all_resting. rewrite filter_app.
    destruct a; simpl in *.
    - change (bids b') with m. change (asks b') with (asks b).
      by rewrite Hrest, (filter_ne_id order (resting_ptrs (asks b))).
    - change (asks b') with m. change (bids b') with (bids b).
      by rewrite Hrest, (filter_ne_id order (resting_ptrs (bids b))). }
  assert (Hok' : sides_ok b' a (passive a b) m).
  { split.
    - done.
    - apply pm_remove_sorted; eauto.
    - by apply (levels_ok_same_heap b).
    - apply (levels_ok_same_heap b); [done|]. apply pm_remove_levels_ok; eauto.
    - rewrite Hrest. eapply sublist_NoDup; [exact Hnd|].
      apply sublist_app; [done|apply sublist_filter].
    - intros id' x. rewrite Hmap. intros [Hne Hl']%lookup_delete_Some.
      destruct (Hidx id' x Hl') as [Hid' Hin'].
      unfold deref. rewrite Hheap. split; [done|].
      assert (x <> order) by (intros ->; unfold deref in *; congruence).
      rewrite Hrest. apply elem_of_app in Hin' as [?|?]; apply elem_of_app; [by left|right].
      by apply list_elem_of_filter.
    - by rewrite Hheap. }
  split; [done|]. split; [|by destruct a].
  split.
  - apply (book_ok_sides a). by rewrite Hpas, Hown.
  - destruct a; simpl; [|done]. apply pm_remove_no_empty_level; [apply (own_comp_irrefl BUY)|done].
  - destruct a; simpl; [done|]. apply pm_remove_no_empty_level; [apply (own_comp_irrefl SELL)|done].
Qed.

Lemma cancelOrder_unknown id b :
  order_map b !! id = None -> cancelOrder id b = (false, b).
Proof. intros Hl. unfold cancelOrder. by rewrite Hl. Qed.

Lemma cancelOrder_wf id b : book_wf b -> book_wf (cancelOrder id b).2.
Proof.
  intros Hwf. destruct (order_map b !! id) as [order|] eqn:Hl.
  - by destruct (cancelOrder_found id order b Hwf Hl) as (_ & ? & _).
  - by rewrite cancelOrder_unknown.
Qed.

Lemma exec_wf c b : book_wf b -> command_ok c -> book_wf (exec c b).
Proof.
  intros Hwf Hc. destruct c as [s t p q|id]; simpl.
  - by apply addOrder_wf.
  - by apply cancelOrder_wf.
Qed.

Lemma empty_book_wf : book_wf empty_book.
Proof.
  split; [split|..]; by constructor.
Qed.

Lemma run_wf cs b : book_wf b -> Forall command_ok cs -> book_wf (run cs b).
Proof.
  revert b. induction cs as [|c cs IH]; intros b Hwf Hcs; [done|].
  apply Forall_cons in Hcs as [Hc Hcs]. simpl. apply IH; [|done].
  by apply exec_wf.
Qed.

(** ** What [addOrder] changes, on any book *)

Lemma match_passive_frame a ty order b : fill_frame a b (match_passive a ty order b).
Proof.
  unfold match_passive.
  pose proof (sweep_preserves (fun x => fill_frame a b x.2) a ty order
                (fill_frame_step a order b) (passive a b) b (fill_frame_refl a b)) as Hfr.
  destruct (sweep a ty order (passive a b) b) as [levels' b1].
  by apply fill_frame_set_passive.
Qed.

Lemma addOrder_id s t p q b : (addOrder s t p q b).1 = next_order_id b.
Proof.
  rewrite addOrder_eq. cbv zeta. cbn [fst].
  pose proof (deref_new_order_here s t p q b) as Hd.
  set (b1 := (new_order s t p q b).2) in *.
  set (order := length (heap b)) in *.
  assert (Hid : forall a ty, Order.order_id (deref (match_passive a ty order b1) order) = next_order_id b).
  { intros a ty. destruct (match_passive_frame a ty order b1) as [_ Hi _ _ _ _].
    destruct (Hi order) as (-> & _). by rewrite Hd. }
  destruct t; [|apply Hid].
  unfold match_limit. destruct (0 <? _); [|apply Hid].
  rewrite <- (Hid s LIMIT). by destruct s.
Qed.

Lemma addOrder_index s t p q b id x :
  order_map (addOrder s t p q b).2 !! id = Some x ->
  (id = next_order_id b /\ x = length (heap b)) \/ order_map b !! id = Some x.
Proof.
  rewrite addOrder_eq. cbv zeta. cbn [snd].
  pose proof (deref_new_order_here s t p q b) as Hd.
  set (b1 := (new_order s t p q b).2) in *.
  set (order := length (heap b)) in *.
  assert (Hsub : forall ty, order_map (match_passive s ty order b1) !! id = Some x ->
                            order_map b !! id = Some x).
  { intros ty Hl. destruct (match_passive_frame s ty order b1) as [_ _ _ _ Hx _].
    by apply Hx in Hl. }
  destruct t; [|intros Hl; right; by eapply Hsub].
  unfold match_limit.
  destruct (0 <? _); [|intros Hl; right; by eapply Hsub].
  set (b2 := match_passive s LIMIT order b1) in *.
  assert (Hom : order_map (rest_order s order b2) =
                <[Order.order_id (deref b2 order) := order]> (order_map b2)) by (by destruct s).
  rewrite Hom. intros [[<- <-]|[Hne Hl]]%lookup_insert_Some.
  - left. split; [|done].
    destruct (match_passive_frame s LIMIT order b1) as [_ Hi _ _ _ _].
    fold b2 in Hi. destruct (Hi order) as (-> & _). by rewrite Hd.
  - right. by eapply Hsub.
Qed.

Lemma addOrder_trades s t p q b :
  exists new, trade_history (addOrder s t p q b).2 = trade_history b ++ new.
Proof.
  rewrite addOrder_eq. cbv zeta. cbn [snd].
  set (b1 := (new_order s t p q b).2) in *.
  set (order := length (heap b)) in *.
  assert (Hsub : forall ty, exists new,
             trade_history (match_passive s ty order b1) = trade_history b ++ new).
  { intros ty. by destruct (match_passive_frame s ty order b1) as [_ _ _ _ _ Ht]. }
  destruct t; [|apply Hsub].
  unfold match_limit. destruct (0 <? _); [|apply Hsub].
  destruct (Hsub LIMIT) as [new Hn]. exists new. rewrite <- Hn. by destruct s.
Qed.

Lemma resting_positive b x :
  book_wf b -> x ∈ all_resting b -> 0 < Order.quantity (deref b x).
Proof.
  intros [[_ _ Hb Ha _ _ _] _ _] Hx. unfold all_resting in Hx.
  rewrite levels_ok_alt in Hb, Ha.
  apply elem_of_app in Hx as [Hx|Hx];
    apply elem_of_resting_ptrs in Hx as (k & q & Hl & Hx).
  - by destruct (Hb k q x Hl Hx).
  - by destruct (Ha k q x Hl Hx).
Qed.

(** ** Add then cancel *)

Lemma sweep_cons a ty order best orders rest b :
  sweep a ty order ((best, orders) :: rest) b =
  if 0 <? Order.quantity (deref b order) then
    if gate a ty (Order.price (deref b order)) best then ((best, orders) :: rest, b)
    else
      let '(orders', b') := fill_level a order best orders b in
      match orders' with
      | [] => sweep a ty order rest b'
      | _ :: _ => ((best, orders') :: rest, b')
      end
  else ((best, orders) :: rest, b).
Proof. reflexivity. Qed.

(** A limit order that does not cross stops at the price gate at once. *)
Lemma sweep_no_cross s order p b :
  no_cross s p b ->
  Order.price (deref b order) = p ->
  sweep s LIMIT order (passive s b) b = (passive s b, b).
Proof.
  unfold no_cross. intros Hnc Hp.
  destruct (passive s b) as [|[best orders] rest]; [done|].
  apply Forall_cons in Hnc as [Hbest _]. simpl in Hbest. rewrite sweep_cons.
  destruct (0 <? Order.quantity (deref b order)); [|done].
  rewrite Hp.
  assert (gate s LIMIT p best = true) as ->; [|done].
  destruct s; simpl; [apply Z.ltb_lt|rewrite Z.gtb_ltb; apply Z.ltb_lt]; lia.
Qed.

Lemma rest_order_fields s order b :
  order_map (rest_order s order b) =
    <[Order.order_id (deref b order) := order]> (order_map b) /\
  own s (rest_order s order b) =
    pm_push_back (own_comp s) (Order.price (deref b order)) order (own s b) /\
  passive s (rest_order s order b) = passive s b /\
  heap (rest_order s order b) = heap b /\
  trade_history (rest_order s order b) = trade_history b /\
  next_order_id (rest_order s order b) = next_order_id b.
Proof. by destruct s. Qed.

Lemma rest_order_counters s order b :
  total_orders_processed (rest_order s order b) = total_orders_processed b /\
  total_trades (rest_order s order b) = total_trades b.
Proof. by destruct s. Qed.

(** C8: on a well-formed book, adding a limit order with a positive
    quantity that does not cross the opposite side, under an id that the
    index does not hold, and cancelling it at once gives back both sides
    and the index exactly; the add emits no trade, the cancel returns
    true, the trade log is unchanged, the id counter has advanced by one,
    and the heap only holds one more object, the cancelled order.  Of the
    two statistics the class keeps, [total_orders_processed] has counted
    the order and [total_trades] is unchanged. *)
Theorem add_then_cancel_restores (s : Side) (p q : Z) (b : OrderBook) :
  book_wf b -> uint64 q -> 0 < q ->
  no_cross s p b ->
  order_map b !! next_order_id b = None ->
  let r := addOrder s LIMIT p q b in
  let c := cancelOrder r.1 r.2 in
  r.1 = next_order_id b /\
  trade_history r.2 = trade_history b /\
  c.1 = true /\
  bids c.2 = bids b /\ asks c.2 = asks b /\
  order_map c.2 = order_map b /\
  trade_history c.2 = trade_history b /\
  next_order_id c.2 = wrap64 (next_order_id b + 1) /\
  heap c.2 = heap b ++ [Order.mk (next_order_id b) s LIMIT p q] /\
  total_orders_processed c.2 = wrap64 (total_orders_processed b + 1) /\
  total_trades c.2 = total_trades b.
Proof.
  intros Hwf Hq Hpos Hnc Hfresh. cbv zeta.
  rewrite addOrder_id.
  rewrite addOrder_eq. cbv zeta. cbn [snd].
  pose proof (deref_new_order_here s LIMIT p q b) as Hd.
  set (b1 := (new_order s LIMIT p q b).2) in *.
  set (order := length (heap b)) in *.
  assert (Hm : match_passive s LIMIT order b1 = b1).
  { unfold match_passive. rewrite sweep_no_cross with (p := p).
    - apply set_passive_passive.
    - unfold no_cross in *. by replace (passive s b1) with (passive s b) by (by destruct s).
    - by rewrite Hd. }
  unfold match_limit. rewrite Hm, Hd. cbn [Order.quantity].
  assert ((0 <? q) = true) as -> by (by apply Z.ltb_lt).
  set (b2 := rest_order s order b1).
  destruct (rest_order_fields s order b1) as (Hb2_map & Hb2_own & Hb2_pas & Hb2_heap & Hb2_tr & Hb2_next).
  fold b2 in Hb2_map, Hb2_own, Hb2_pas, Hb2_heap, Hb2_tr, Hb2_next.
  rewrite Hd in Hb2_map, Hb2_own. cbn [Order.order_id Order.price] in Hb2_map, Hb2_own.
  assert (Hb1 : own s b1 = own s b /\ passive s b1 = passive s b /\
                order_map b1 = order_map b /\
                heap b1 = heap b ++ [Order.mk (next_order_id b) s LIMIT p q] /\
                trade_history b1 = trade_history b /\
                next_order_id b1 = wrap64 (next_order_id b + 1)) by (by destruct s).
  destruct Hb1 as (Hb1_own & Hb1_pas & Hb1_map & Hb1_heap & Hb1_tr & Hb1_next).
  rewrite Hb1_own in Hb2_own. rewrite Hb1_map in Hb2_map. rewrite Hb1_pas in Hb2_pas.
  rewrite Hb1_heap in Hb2_heap. rewrite Hb1_tr in Hb2_tr. rewrite Hb1_next in Hb2_next.
  destruct (rest_order_counters s order b1) as (Hb2_top & Hb2_tt).
  fold b2 in Hb2_top, Hb2_tt.
  assert (Hb1_c : total_orders_processed b1 = wrap64 (total_orders_processed b + 1) /\
                  total_trades b1 = total_trades b) by done.
  destruct Hb1_c as (Hb1_top & Hb1_tt). rewrite Hb1_top in Hb2_top. rewrite Hb1_tt in Hb2_tt.
  assert (Hb2_d : deref b2 order = Order.mk (next_order_id b) s LIMIT p q).
  { rewrite <- Hd. unfold deref. by rewrite Hb2_heap, Hb1_heap. }
  split; [done|]. split; [done|].
  rewrite cancelOrder_eq, Hb2_map, lookup_insert_eq. cbv zeta. cbn [fst snd].
  rewrite Hb2_d. cbn [Order.side Order.price].
  rewrite Hb2_own, delete_insert_id by done.
  assert (Hback : pm_remove (own_comp s) p order
                    (pm_push_back (own_comp s) p order (own s b)) = own s b).
  { apply pm_remove_push_back; [by auto| |by destruct Hwf, s].
    intros Hin.
    assert (order ∈ all_resting b) as Hin' by (unfold all_resting; destruct s; set_solver).
    apply resting_valid in Hin'; [|by destruct Hwf]. subst order. lia. }
  rewrite Hback.
  split; [done|].
  destruct s; simpl in *; repeat split; congruence.
Qed.

Lemma add_then_cancel_restores_witness :
  let r := addOrder BUY LIMIT 10045 30 demo_book in
  let c := cancelOrder r.1 r.2 in
  bids c.2 = bids demo_book /\ asks c.2 = asks demo_book /\
  order_map c.2 = order_map demo_book.
Proof.
  assert (Hwf : book_wf demo_book).
  { apply run_wf; [apply empty_book_wf|].
    repeat constructor; simpl; unfold uint64; lia. }
  assert (Hnc : no_cross BUY 10045 demo_book).
  { unfold no_cross. vm_compute passive. repeat constructor; simpl; lia. }
  assert (Hq : uint64 30) by (unfold uint64; lia).
  destruct (add_then_cancel_restores BUY 10045 30 demo_book Hwf Hq ltac:(lia) Hnc eq_refl)
    as (_ & _ & _ & Hb & Ha & Hm & _).
  by repeat split.
Defined.

(** ** The loops end where the source's loops end

    [fill_level] and [sweep] return without a further test when the head
    of the level, respectively the first level, is left in place.  In the
    source the next test of [order->quantity > 0] then fails: *)

Lemma match_inv_steps a order x y :
  match_inv a order x -> rtc (fill_step a order) x y -> match_inv a order y.
Proof.
  intros Hx Hs. induction Hs as [|x y z Hxy _ IH]; [done|].
  apply IH. by eapply match_inv_step.
Qed.

Lemma quantity_nonpos_zero b p :
  Forall (fun o => uint64 (Order.quantity o)) (heap b) ->
  (0 <? Order.quantity (deref b p)) = false -> Order.quantity (deref b p) = 0.
Proof.
  intros Hh Hq. apply Z.ltb_ge in Hq.
  pose proof (deref_uint64 b p Hh) as Hu. unfold uint64 in Hu. lia.
Qed.

Lemma fill_level_exit a order k rest orders :
  forall b orders' b',
    match_inv a order ((k, orders) :: rest, b) ->
    fill_level a order k orders b = (orders', b') ->
    orders' = [] \/ Order.quantity (deref b' order) = 0.
Proof.
  induction orders as [|s q IH]; intros b orders' b' Hinv Hf.
  - simpl in Hf. simplify_eq. by left.
  - rewrite fill_level_cons in Hf.
    pose proof Hinv as (Hok & Hlt & Hnot). cbn [fst snd] in Hok, Hlt, Hnot.
    destruct Hok as [_ _ Hp _ _ _ Hh].
    destruct (0 <? Order.quantity (deref b order)) eqn:Hpos.
    + apply Z.ltb_lt in Hpos.
      destruct (Order.quantity (deref (fill_one a order k s b) s) =? 0) eqn:Hz.
      * apply Z.eqb_eq in Hz. eapply IH; [|exact Hf].
        eapply match_inv_step; [exact Hinv|]. by apply fill_pop.
      * apply Z.eqb_neq in Hz. simplify_eq. right.
        rewrite resting_ptrs_cons in Hnot.
        assert (Hne : order <> s) by set_solver.
        rewrite levels_ok_alt in Hp.
        destruct (Hp k (s :: q) s) as [Hsv _ _ _]; [set_solver..|].
        destruct (fill_one_quantities a order k s b Hne Hlt Hsv Hh) as [Hqo Hqs].
        rewrite Hqs in Hz. rewrite Hqo. lia.
    + simplify_eq. right. by apply quantity_nonpos_zero.
Qed.

Lemma sweep_exit a ty order levels :
  forall b levels' b',
    match_inv a order (levels, b) ->
    sweep a ty order levels b = (levels', b') ->
    levels' = [] \/
    Order.quantity (deref b' order) = 0 \/
    exists best orders rest,
      levels' = (best, orders) :: rest /\
      gate a ty (Order.price (deref b' order)) best = true.
Proof.
  induction levels as [|[k orders] rest IH]; intros b levels' b' Hinv Hs.
  - simpl in Hs. simplify_eq. by left.
  - rewrite sweep_cons in Hs.
    destruct (0 <? Order.quantity (deref b order)) eqn:Hpos.
    + destruct (gate a ty (Order.price (deref b order)) k) eqn:Hg.
      * simplify_eq. right. right. by exists k, orders, rest.
      * destruct (fill_level a order k orders b) as [orders' b1] eqn:Hf.
        pose proof (fill_level_exit a order k rest orders b orders' b1 Hinv Hf) as Hex.
        apply (fill_level_steps a order k rest) in Hf.
        pose proof (match_inv_steps a order _ _ Hinv Hf) as Hinv1.
        destruct orders' as [|s q].
        -- eapply IH; [|exact Hs].
           eapply match_inv_step; [exact Hinv1|]. apply fill_erase.
        -- simplify_eq. right. left. by destruct Hex.
    + simplify_eq. right. left.
      destruct Hinv as ([_ _ _ _ _ _ Hh] & _). by apply quantity_nonpos_zero.
Qed.

(** ** Execution price *)

Lemma trade_history_fill_one a order k s b :
  trade_history (fill_one a order k s b) =
  trade_history b ++
    [new_trade a (Order.order_id (deref b order)) (Order.order_id (deref b s)) k
       (Z.min (Order.quantity (deref b order)) (Order.quantity (deref b s)))].
Proof. reflexivity. Qed.

Lemma trades_inv_step a order b0 x y :
  match_inv a order x -> fill_frame a b0 x.2 -> trades_inv a b0 x ->
  fill_step a order x y -> trades_inv a b0 y.
Proof.
  intros (Hok & _ & _) Hfr (Hsub & new & Hnew & Hall) Hstep.
  unfold trades_inv.
  destruct Hstep as [k s q rest b Hpos Hz | k s q rest b Hpos Hnz | k rest b];
    cbn [fst snd] in *.
  1,2: assert (Hat : at_resting_price a b0
         (new_trade a (Order.order_id (deref b order)) (Order.order_id (deref b s)) k
            (Z.min (Order.quantity (deref b order)) (Order.quantity (deref b s))))).
  1,3: exists s; destruct Hok as [_ _ Hp _ _ _ _];
       rewrite levels_ok_alt in Hp;
       destruct (Hp k (s :: q) s) as [_ Hprice Hside _]; [set_solver..|];
       destruct Hfr as [_ Hi _ _ _ _];
       destruct (Hi s) as (Hi1 & Hi2 & _ & Hi4);
       (split; [apply Hsub; rewrite resting_ptrs_cons; set_solver|]);
       rewrite <- Hi1, <- Hi2, <- Hi4; by destruct a.
  - split.
    + intros r Hr. apply Hsub. rewrite resting_ptrs_cons in *. set_solver.
    + exists (new ++ [new_trade a (Order.order_id (deref b order))
                        (Order.order_id (deref b s)) k
                        (Z.min (Order.quantity (deref b order))
                               (Order.quantity (deref b s)))]).
      split.
      * change (trade_history (erase_index s (fill_one a order k s b)))
          with (trade_history (fill_one a order k s b)).
        by rewrite trade_history_fill_one, Hnew, <- (assoc_L (++)).
      * apply Forall_app. split; [done|]. by constructor.
  - split; [done|].
    exists (new ++ [new_trade a (Order.order_id (deref b order))
                      (Order.order_id (deref b s)) k
                      (Z.min (Order.quantity (deref b order))
                             (Order.quantity (deref b s)))]).
    split.
    + by rewrite trade_history_fill_one, Hnew, <- (assoc_L (++)).
    + apply Forall_app. split; [done|]. by constructor.
  - split; [|by exists new].
    intros r Hr. apply Hsub. rewrite resting_ptrs_cons. set_solver.
Qed.

Lemma match_passive_trades a ty order b :
  book_wf b -> (order < length (heap b))%nat -> (order ∉ all_resting b) ->
  exists new, trade_history (match_passive a ty order b) = trade_history b ++ new /\
              Forall (at_resting_price a b) new.
Proof.
  intros [Hok _ _] Hlt Hnot. unfold match_passive.
  set (I := fun x => match_inv a order x /\ fill_frame a b x.2 /\ trades_inv a b x).
  assert (Hstep : forall x y, I x -> fill_step a order x y -> I y).
  { intros x y (H1 & H2 & H3) Hs. split; [|split].
    - by eapply match_inv_step.
    - by eapply fill_frame_step.
    - by eapply trades_inv_step. }
  assert (HI : I (passive a b, b)).
  { split; [|split].
    - split; [by apply book_ok_sides|]. split; [done|].
      cbn [fst snd]. by rewrite <- all_resting_sides.
    - apply fill_frame_refl.
    - split; [done|]. exists []. cbn [snd]. by rewrite app_nil_r. }
  pose proof (sweep_preserves I a ty order Hstep _ _ HI) as HI'.
  destruct (sweep a ty order (passive a b) b) as [levels' b1].
  destruct HI' as (_ & _ & _ & new & Hnew & Hall). cbn [snd] in Hnew.
  exists new. split; [|done]. rewrite <- Hnew. by destruct a.
Qed.

(** C6: on a well-formed book, every trade that [addOrder] appends to
    the trade log fills an order that was resting on the opposite side
    when the order came in, names that order, and carries that order's
    price, whatever the price of the incoming order; [cancelOrder]
    appends no trade. *)
Theorem trades_execute_at_resting_price (s : Side) (t : OrderType) (p q : Z)
    (b : OrderBook) :
  book_wf b -> uint64 q ->
  (exists new,
     trade_history (addOrder s t p q b).2 = trade_history b ++ new /\
     Forall (at_resting_price s b) new) /\
  (forall id, trade_history (cancelOrder id b).2 = trade_history b).
Proof.
  intros Hwf Hq. split.
  - rewrite addOrder_eq. cbv zeta. cbn [snd].
    destruct (new_order_wf s t p q b Hwf Hq) as (Hwf1 & Hlt & Hnot).
    set (b1 := (new_order s t p q b).2) in *.
    set (order := length (heap b)) in *.
    assert (Hm : forall ty, exists new,
               trade_history (match_passive s ty order b1) = trade_history b ++ new /\
               Forall (at_resting_price s b) new).
    { intros ty.
      destruct (match_passive_trades s ty order b1 Hwf1 Hlt Hnot) as (new & Hnew & Hall).
      exists new. split; [done|].
      eapply Forall_impl; [exact Hall|].
      intros tr (r & Hr & Hid & Hside & Hpr).
      assert (Hpas : passive s b1 = passive s b) by (by destruct s).
      rewrite Hpas in Hr.
      assert (Hv : (r < length (heap b))%nat).
      { apply resting_valid; [by destruct Hwf|]. apply (all_resting_sides s). set_solver. }
      subst b1. rewrite deref_new_order_old in Hid, Hside, Hpr by done.
      by exists r. }
    destruct t; [|apply Hm].
    unfold match_limit. destruct (0 <? _); [|apply Hm].
    destruct (Hm LIMIT) as (new & Hnew & Hall). exists new. split; [|done].
    rewrite <- Hnew. by destruct s.
  - intros id. rewrite cancelOrder_eq.
    destruct (order_map b !! id) as [order|]; [|done].
    by destruct (Order.side (deref b order)).
Qed.

Lemma trades_execute_at_resting_price_witness :
  let b := run [Add SELL LIMIT 10050 100] empty_book in
  exists new,
    new = [Trade.mk 2 1 10050 100] /\
    trade_history (addOrder BUY LIMIT 10060 150 b).2 = trade_history b ++ new /\
    Forall (at_resting_price BUY b) new.
Proof.
  intros b.
  assert (Hwf : book_wf b).
  { apply run_wf; [apply empty_book_wf|].
    repeat constructor; simpl; unfold uint64; lia. }
  assert (Hq : uint64 150) by (unfold uint64; lia).
  destruct (proj1 (trades_execute_at_resting_price BUY LIMIT 10060 150 b Hwf Hq))
    as (new & Hnew & Hall).
  exists new. split; [|by split].
  assert (Ht : trade_history (addOrder BUY LIMIT 10060 150 b).2 = [Trade.mk 2 1 10050 100])
    by (vm_compute; reflexivity).
  rewrite Ht in Hnew. symmetry. exact Hnew.
Defined.

(** ** Sums *)

Lemma sum_with_app {A} (f : A -> Z) l1 l2 :
  sum_with f (l1 ++ l2) = sum_with f l1 + sum_with f l2.
Proof. induction l1 as [|x l1 IH]; simpl; lia. Qed.

Lemma sum_with_ext_in {A} (f g : A -> Z) l :
  (forall x, x ∈ l -> f x = g x) -> sum_with f l = sum_with g l.
Proof.
  induction l as [|x l IH]; intros H; simpl; [done|].
  rewrite (H x), IH; [done| |]; set_solver.
Qed.

Lemma sum_with_perm {A} (f : A -> Z) l1 l2 :
  l1 ≡ₚ l2 -> sum_with f l1 = sum_with f l2.
Proof. induction 1; simpl; lia. Qed.

Lemma sum_with_filter_ne (f : nat -> Z) (p : nat) l :
  NoDup l -> p ∈ l ->
  sum_with f l = f p + sum_with f (filter (fun x => x <> p) l).
Proof.
  induction l as [|x l IH]; intros Hnd Hin; [by apply elem_of_nil in Hin|].
  apply NoDup_cons in Hnd as [Hx Hnd].
  destruct (decide (x = p)) as [->|Hne].
  - rewrite filter_cons_False by (intros H; by apply H).
    by rewrite filter_ne_id.
  - rewrite filter_cons_True by done. simpl.
    rewrite IH; [lia|done|set_solver].
Qed.

Lemma filled_snoc id ts t : filled id (ts ++ [t]) = filled id ts + named id t.
Proof. unfold filled. rewrite sum_with_app. simpl. lia. Qed.

Lemma named_new_trade id a i j k n :
  named id (new_trade a i j k n) =
  (if decide (i = id) then n else 0) + (if decide (j = id) then n else 0).
Proof. destruct a; unfold named; simpl; lia. Qed.

(** ** Conservation across one fill *)

Lemma remaining_fill_one_other id a order k s b x :
  x <> order -> x <> s ->
  remaining id (fill_one a order k s b) x = remaining id b x.
Proof. intros Ho Hs. unfold remaining. by rewrite fill_one_other. Qed.

Lemma remaining_fill_one id a order k s b :
  order <> s ->
  (order < length (heap b))%nat -> (s < length (heap b))%nat ->
  Forall (fun o => uint64 (Order.quantity o)) (heap b) ->
  let tq := Z.min (Order.quantity (deref b order)) (Order.quantity (deref b s)) in
  remaining id (fill_one a order k s b) order =
    remaining id b order - (if decide (Order.order_id (deref b order) = id) then tq else 0) /\
  remaining id (fill_one a order k s b) s =
    remaining id b s - (if decide (Order.order_id (deref b s) = id) then tq else 0).
Proof.
  intros Hne Ho Hs Hh tq.
  destruct (fill_one_quantities a order k s b Hne Ho Hs Hh) as [Hqo Hqs].
  destruct (fill_one_identity a order k s b order) as (Hio & _).
  destruct (fill_one_identity a order k s b s) as (His & _).
  unfold remaining. rewrite Hio, His, Hqo, Hqs. fold tq.
  split; case_decide; lia.
Qed.

Lemma in_flight_step id a order x y :
  match_inv a order x -> fill_step a order x y ->
  in_flight id a order y = in_flight id a order x.
Proof.
  intros (Hok & Hlt & Hnot) Hstep. unfold in_flight.
  destruct Hstep as [k s q rest b Hpos Hz | k s q rest b Hpos Hnz | k rest b];
    cbn [fst snd] in *; [| |by rewrite !resting_ptrs_cons].
  all: destruct Hok as [_ _ Hp _ Hnd _ Hh];
    rewrite resting_ptrs_cons in Hnd, Hnot; simpl in Hnd, Hnot;
    apply NoDup_cons in Hnd as [Hs_notin Hnd];
    apply not_elem_of_cons in Hnot as [Hne Hnot];
    rewrite levels_ok_alt in Hp;
    destruct (Hp k (s :: q) s) as [Hsv _ _ _]; [set_solver..|];
    destruct (remaining_fill_one id a order k s b Hne Hlt Hsv Hh) as [Hro Hrs];
    rewrite ?own_erase_index, own_fill_one, !resting_ptrs_cons;
    set (others := (q ++ resting_ptrs rest) ++ resting_ptrs (own a b)) in *;
    assert (Hothers : sum_with (remaining id (fill_one a order k s b)) others =
                      sum_with (remaining id b) others)
      by (apply sum_with_ext_in; intros x Hx;
          apply remaining_fill_one_other; intros ->; tauto).
  - (* popped: its remainder was exactly the traded quantity *)
    change (trade_history (erase_index s (fill_one a order k s b)))
      with (trade_history (fill_one a order k s b)).
    change (remaining id (erase_index s (fill_one a order k s b)))
      with (remaining id (fill_one a order k s b)).
    rewrite trade_history_fill_one, filled_snoc, named_new_trade.
    replace ((s :: q) ++ resting_ptrs rest) with (s :: q ++ resting_ptrs rest) by done.
    cbn [app]. fold others. cbn [sum_with foldr].
    change (foldr (fun x acc => remaining id b x + acc) 0 others)
      with (sum_with (remaining id b) others).
    rewrite Hothers, Hro.
    assert (Hs0 : remaining id (fill_one a order k s b) s = 0).
    { unfold remaining. rewrite Hz.
      by destruct (decide (Order.order_id (deref (fill_one a order k s b) s) = id)). }
    rewrite Hs0 in Hrs. lia.
  - rewrite trade_history_fill_one, filled_snoc, named_new_trade.
    replace (((s :: q) ++ resting_ptrs rest) ++ resting_ptrs (own a b))
      with (s :: others) by done.
    cbn [sum_with foldr].
    change (foldr (fun x acc => remaining id (fill_one a order k s b) x + acc) 0 others)
      with (sum_with (remaining id (fill_one a order k s b)) others).
    change (foldr (fun x acc => remaining id b x + acc) 0 others)
      with (sum_with (remaining id b) others).
    rewrite Hothers, Hro, Hrs. lia.
Qed.

(** ** Conservation across a command *)

Lemma resting_quantity_sides id a b :
  resting_quantity id b =
  sum_with (remaining id b) (resting_ptrs (passive a b) ++ resting_ptrs (own a b)).
Proof.
  unfold resting_quantity, all_resting. destruct a; simpl; [|done].
  apply sum_with_perm, Permutation_app_comm.
Qed.

Lemma remaining_same_heap id b b' x : heap b' = heap b -> remaining id b' x = remaining id b x.
Proof. intros Hh. unfold remaining, deref. by rewrite Hh. Qed.

Lemma match_passive_conserves id a ty order b :
  book_wf b -> (order < length (heap b))%nat -> (order ∉ all_resting b) ->
  let b' := match_passive a ty order b in
  filled id (trade_history b') + resting_quantity id b' + remaining id b' order =
  filled id (trade_history b) + resting_quantity id b + remaining id b order.
Proof.
  intros [Hok _ _] Hlt Hnot. unfold match_passive.
  set (I := fun x => match_inv a order x /\
                     in_flight id a order x = in_flight id a order (passive a b, b)).
  assert (Hstep : forall x y, I x -> fill_step a order x y -> I y).
  { intros x y (H1 & H2) Hs. split; [by eapply match_inv_step|].
    rewrite <- H2. by eapply in_flight_step. }
  assert (HI : I (passive a b, b)).
  { split; [|done]. split; [by apply book_ok_sides|]. split; [done|].
    cbn [fst snd]. by rewrite <- all_resting_sides. }
  pose proof (sweep_preserves I a ty order Hstep _ _ HI) as HI'.
  destruct (sweep a ty order (passive a b) b) as [levels' b1].
  destruct HI' as (_ & Heq). unfold in_flight in Heq. cbn [fst snd] in Heq.
  cbv zeta. rewrite (resting_quantity_sides id a b), <- Heq.
  rewrite (resting_quantity_sides id a (set_passive a levels' b1)).
  rewrite passive_set_passive, own_set_passive.
  rewrite (remaining_same_heap id b1 (set_passive a levels' b1)) by (by destruct a).
  assert (Hext : forall l, sum_with (remaining id (set_passive a levels' b1)) l =
                           sum_with (remaining id b1) l).
  { intros l. apply sum_with_ext_in. intros x _.
    apply remaining_same_heap. by destruct a. }
  rewrite Hext. by destruct a.
Qed.

Lemma ledger_total_cons id e es :
  ledger_total id (e :: es) = (if decide (e.1 = id) then e.2 else 0) + ledger_total id es.
Proof. reflexivity. Qed.

Lemma addOrder_conserves id s t p q b :
  book_wf b -> uint64 q ->
  let r := addOrder s t p q b in
  filled id (trade_history r.2) + resting_quantity id r.2 +
    match t with
    | MARKET => remaining id r.2 (length (heap b))
    | LIMIT => 0
    end =
  filled id (trade_history b) + resting_quantity id b +
    (if decide (next_order_id b = id) then q else 0).
Proof.
  intros Hwf Hq. cbv zeta. rewrite addOrder_eq. cbv zeta. cbn [snd].
  destruct (new_order_wf s t p q b Hwf Hq) as (Hwf1 & Hlt & Hnot).
  pose proof (deref_new_order_here s t p q b) as Hd.
  set (b1 := (new_order s t p q b).2) in *.
  set (order := length (heap b)) in *.
  assert (H1 : filled id (trade_history b1) + resting_quantity id b1 + remaining id b1 order =
               filled id (trade_history b) + resting_quantity id b +
               (if decide (next_order_id b = id) then q else 0)).
  { unfold remaining. rewrite Hd. cbn [Order.order_id Order.quantity].
    replace (trade_history b1) with (trade_history b) by done.
    f_equal. f_equal. unfold resting_quantity.
    replace (all_resting b1) with (all_resting b) by done.
    apply sum_with_ext_in. intros x Hx. unfold remaining. subst b1.
    rewrite deref_new_order_old; [done|].
    apply resting_valid; [by destruct Hwf|done]. }
  pose proof (fun ty => match_passive_conserves id s ty order b1 Hwf1 Hlt Hnot) as Hm.
  cbv zeta in Hm.
  destruct t; [|by rewrite Hm].
  unfold match_limit.
  destruct (match_passive_spec s LIMIT order b1 Hwf1 Hlt Hnot) as (Hwf2 & Hnot2 & Hfr).
  specialize (Hm LIMIT). set (b2 := match_passive s LIMIT order b1) in *.
  destruct (0 <? Order.quantity (deref b2 order)) eqn:Hpos.
  - destruct (rest_order_fields s order b2) as (_ & Hown & Hpas & Hheap & Htr & _).
    rewrite Htr, <- H1, <- Hm.
    rewrite (resting_quantity_sides id s (rest_order s order b2)), Hpas, Hown.
    rewrite (resting_quantity_sides id s b2).
    assert (Hext : forall l, sum_with (remaining id (rest_order s order b2)) l =
                             sum_with (remaining id b2) l).
    { intros l. apply sum_with_ext_in. intros x _. by apply remaining_same_heap. }
    rewrite Hext.
    rewrite !sum_with_app.
    rewrite (sum_with_perm _ _ _ (pm_push_back_resting (own_comp s) (own_comp_irrefl s)
                                    (Order.price (deref b2 order)) order (own s b2))).
    simpl. lia.
  - apply Z.ltb_ge in Hpos.
    assert (Hz : remaining id b2 order = 0).
    { unfold remaining. destruct Hwf2 as [[_ _ _ _ _ _ Hh] _ _].
      pose proof (deref_uint64 b2 order Hh) as Hu. unfold uint64 in Hu.
      destruct (decide (Order.order_id (deref b2 order) = id)); [|done].
      apply Z.le_antisymm; [done|apply Hu]. }
    rewrite Hz in Hm. lia.
Qed.

Lemma audit_conserved c b L :
  book_wf b -> command_ok c -> conserved b L -> conserved (exec c b) (audit c b L).
Proof.
  intros Hwf Hc Hcons id. specialize (Hcons id).
  destruct c as [s t p q|id0].
  - change (uint64 q) in Hc.
    change (exec (Add s t p q) b) with (addOrder s t p q b).2.
    pose proof (addOrder_conserves id s t p q b Hwf Hc) as Ha. cbv zeta in Ha.
    assert (Hid : Order.order_id (deref (addOrder s t p q b).2 (length (heap b))) =
                  next_order_id b).
    { rewrite <- (addOrder_id s t p q b). by rewrite addOrder_eq. }
    unfold audit. cbv zeta. cbn [accepted dropped].
    rewrite ledger_total_cons, addOrder_id. cbn [fst snd].
    destruct t; [lia|].
    rewrite ledger_total_cons. cbn [fst snd].
    unfold remaining in Ha. rewrite Hid in Ha. lia.
  - change (exec (Cancel id0) b) with (cancelOrder id0 b).2.
    unfold audit.
    destruct (order_map b !! id0) as [order|] eqn:Hl.
    + destruct (cancelOrder_found id0 order b Hwf Hl) as (_ & _ & Hall & _ & Hheap & Htr & _).
      rewrite Htr. cbn [accepted dropped]. rewrite ledger_total_cons. cbn [fst snd].
      destruct Hwf as [[_ _ _ _ Hnd Hidx _] _ _].
      destruct (Hidx id0 order Hl) as [Hid Hin].
      unfold resting_quantity in *. rewrite Hall.
      rewrite (sum_with_filter_ne (remaining id b) order (all_resting b) Hnd Hin) in Hcons.
      assert (Hext : forall l, sum_with (remaining id (cancelOrder id0 b).2) l =
                               sum_with (remaining id b) l).
      { intros l. apply sum_with_ext_in. intros x _. by apply remaining_same_heap. }
      rewrite Hext. unfold remaining at 1 in Hcons. rewrite Hid in Hcons. lia.
    + by rewrite cancelOrder_unknown.
Qed.

(** ** Conservation along a run *)

Lemma run_audit_run cs b L : (run_audit cs b L).1 = run cs b.
Proof. revert b L. induction cs as [|c cs IH]; intros b L; simpl; [done|apply IH]. Qed.

Lemma run_audit_conserved cs b L :
  book_wf b -> Forall command_ok cs -> conserved b L ->
  book_wf (run_audit cs b L).1 /\ conserved (run_audit cs b L).1 (run_audit cs b L).2.
Proof.
  revert b L. induction cs as [|c cs IH]; intros b L Hwf Hcs Hcons; [done|].
  apply Forall_cons in Hcs as [Hc Hcs]. simpl.
  apply IH; [by apply exec_wf|done|by apply audit_conserved].
Qed.

Lemma addOrder_next s t p q b :
  next_order_id (addOrder s t p q b).2 = wrap64 (next_order_id b + 1).
Proof.
  rewrite addOrder_eq. cbv zeta. cbn [snd].
  set (b1 := (new_order s t p q b).2) in *.
  set (order := length (heap b)) in *.
  assert (Hn : forall ty, next_order_id (match_passive s ty order b1) =
                          wrap64 (next_order_id b + 1)).
  { intros ty. by destruct (match_passive_frame s ty order b1) as [_ _ _ -> _ _]. }
  destruct t; [|apply Hn].
  unfold match_limit. destruct (0 <? _); [|apply Hn].
  destruct (rest_order_fields s order (match_passive s LIMIT order b1)) as (_ & _ & _ & _ & _ & ->).
  apply Hn.
Qed.

Lemma cancelOrder_next id b : next_order_id (cancelOrder id b).2 = next_order_id b.
Proof.
  rewrite cancelOrder_eq. destruct (order_map b !! id) as [order|]; [|done].
  by destruct (Order.side (deref b order)).
Qed.

Lemma audit_ids_distinct c b L :
  ids_distinct b L -> next_order_id b + 1 < 2 ^ 64 ->
  ids_distinct (exec c b) (audit c b L) /\
  next_order_id (exec c b) <= next_order_id b + 1.
Proof.
  intros (H1 & Hall & Hnd) Hb.
  destruct c as [s t p q|id0].
  - change (exec (Add s t p q) b) with (addOrder s t p q b).2.
    unfold audit, ids_distinct. cbv zeta. rewrite addOrder_id, !addOrder_next.
    rewrite wrap64_small by (unfold uint64; lia).
    split; [|lia]. split; [lia|]. cbn [accepted]. split.
    + constructor; [simpl; lia|].
      eapply Forall_impl; [exact Hall|]. intros e He. simpl in He. lia.
    + rewrite fmap_cons. cbn [fst]. apply NoDup_cons. split; [|done].
      intros Hin. apply list_elem_of_fmap in Hin as (e & He & Hin).
      rewrite Forall_forall in Hall. specialize (Hall e Hin). lia.
  - change (exec (Cancel id0) b) with (cancelOrder id0 b).2.
    unfold ids_distinct. rewrite !cancelOrder_next. split; [|lia].
    unfold audit. by destruct (order_map b !! id0).
Qed.

Lemma run_audit_ids_distinct cs b L :
  ids_distinct b L -> next_order_id b + Z.of_nat (length cs) < 2 ^ 64 ->
  ids_distinct (run_audit cs b L).1 (run_audit cs b L).2.
Proof.
  revert b L. induction cs as [|c cs IH]; intros b L Hd Hb; [done|].
  simpl. simpl length in Hb.
  destruct (audit_ids_distinct c b L Hd) as [Hd' Hn]; [lia|].
  apply IH; [done|lia].
Qed.

Lemma ledger_total_distinct id q0 es :
  NoDup es.*1 -> (id, q0) ∈ es -> ledger_total id es = q0.
Proof.
  induction es as [|e es IH]; intros Hnd Hin; [by apply elem_of_nil in Hin|].
  rewrite fmap_cons in Hnd. apply NoDup_cons in Hnd as [Hne Hnd].
  rewrite ledger_total_cons.
  apply elem_of_cons in Hin as [<-|Hin].
  - cbn [fst snd]. rewrite decide_True by done.
    assert (ledger_total id es = 0) as ->; [|lia].
    clear IH Hnd. induction es as [|e es IH]; [done|].
    rewrite ledger_total_cons. rewrite fmap_cons in Hne.
    apply not_elem_of_cons in Hne as [Hne1 Hne2]. simpl in Hne1.
    rewrite decide_False by done. rewrite IH by done. lia.
  - rewrite decide_False.
    + rewrite IH by done. lia.
    + intros He. apply Hne. apply list_elem_of_fmap. exists (id, q0). by split.
Qed.

(** C9: run any sequence of commands on the empty book, keeping beside
    the engine a ledger of the initial quantity of every accepted order
    and of every remainder taken out by a cancellation or discarded as the
    unfilled residual of a market order.  At the end (hence at every
    point, a prefix being a sequence), for every id the quantities of the
    trades naming it, plus the quantity resting under it, plus the
    remainders dropped under it, equal the quantities accepted under it;
    and as long as the id counter has not wrapped around, every accepted
    order has an id of its own, so that this sum is that order's initial
    quantity. *)
Theorem quantity_conservation (cs : list Command) :
  Forall command_ok cs ->
  let b := (run_audit cs empty_book (mkLedger [] [])).1 in
  let L := (run_audit cs empty_book (mkLedger [] [])).2 in
  b = run cs empty_book /\
  (forall id,
     filled id (trade_history b) + resting_quantity id b + ledger_total id (dropped L) =
     ledger_total id (accepted L)) /\
  (Z.of_nat (length cs) < 2 ^ 64 - 1 ->
   forall id q0, (id, q0) ∈ accepted L ->
     filled id (trade_history b) + resting_quantity id b + ledger_total id (dropped L) = q0).
Proof.
  intros Hcs b L.
  assert (Hcons0 : conserved empty_book (mkLedger [] [])) by (by intros id).
  destruct (run_audit_conserved cs empty_book (mkLedger [] []) empty_book_wf Hcs Hcons0)
    as [_ Hcons].
  fold b L in Hcons.
  split; [apply run_audit_run|]. split; [exact Hcons|].
  intros Hlen id q0 Hin. rewrite (Hcons id).
  assert (Hd0 : ids_distinct empty_book (mkLedger [] [])).
  { split; [simpl; lia|]. split; constructor. }
  destruct (run_audit_ids_distinct cs empty_book (mkLedger [] []) Hd0) as (_ & _ & Hnd).
  { simpl. lia. }
  by apply ledger_total_distinct.
Qed.

Lemma quantity_conservation_witness :
  let cs := [Add SELL LIMIT 10050 50; Add SELL LIMIT 10050 50; Add BUY MARKET 0 70;
             Cancel 2; Add BUY MARKET 0 5] in
  let b := (run_audit cs empty_book (mkLedger [] [])).1 in
  let L := (run_audit cs empty_book (mkLedger [] [])).2 in
  accepted L = [(4, 5); (3, 70); (2, 50); (1, 50)] /\
  dropped L = [(4, 5); (2, 30); (3, 0)] /\
  filled 2 (trade_history b) + resting_quantity 2 b + ledger_total 2 (dropped L) = 50 /\
  filled 4 (trade_history b) + resting_quantity 4 b + ledger_total 4 (dropped L) = 5.
Proof.
  intros cs b L.
  assert (Hcs : Forall command_ok cs).
  { repeat constructor; simpl; unfold uint64; lia. }
  assert (Hlen : Z.of_nat (length cs) < 2 ^ 64 - 1) by (simpl; lia).
  assert (Hacc : accepted L = [(4, 5); (3, 70); (2, 50); (1, 50)]) by (vm_compute; reflexivity).
  assert (Hdrop : dropped L = [(4, 5); (2, 30); (3, 0)]) by (vm_compute; reflexivity).
  destruct (quantity_conservation cs Hcs) as (_ & _ & Hper).
  specialize (Hper Hlen). fold L in Hper. fold b in Hper.
  clearbody b L.
  split; [exact Hacc|]. split; [exact Hdrop|].
  split; apply Hper; rewrite Hacc.
  - do 2 apply list_elem_of_further. apply list_elem_of_here.
  - apply list_elem_of_here.
Defined.

(** ** What the accessors return *)

Lemma no_resting_no_level m : no_empty_level m -> resting_ptrs m = [] -> m = [].
Proof.
  intros Hne Hr. destruct m as [|[k q] rest]; [done|].
  apply Forall_cons in Hne as [Hq _]. simpl in Hq.
  rewrite resting_ptrs_cons in Hr. by destruct q.
Qed.

(** C10: on an empty side the best-price accessors return the sentinel 0:
    [getBestBid] when [bids] is empty, which on a well-formed book is
    when no bid rests, and [getBestAsk] when [asks] is empty, which on a
    well-formed book is when no ask rests. *)
Theorem best_price_of_empty_side (b : OrderBook) :
  (bids b = [] -> getBestBid b = 0) /\
  (asks b = [] -> getBestAsk b = 0) /\
  (book_wf b -> resting_ptrs (bids b) = [] -> getBestBid b = 0) /\
  (book_wf b -> resting_ptrs (asks b) = [] -> getBestAsk b = 0).
Proof.
  assert (Hb : bids b = [] -> getBestBid b = 0) by (unfold getBestBid; by intros ->).
  assert (Ha : asks b = [] -> getBestAsk b = 0) by (unfold getBestAsk; by intros ->).
  split; [done|]. split; [done|]. split.
  - intros [_ Hne _] Hr. apply Hb. by apply no_resting_no_level.
  - intros [_ _ Hne] Hr. apply Ha. by apply no_resting_no_level.
Qed.

Lemma best_price_of_empty_side_witness :
  let b := run [Add SELL LIMIT 10100 50; Cancel 1] empty_book in
  (getBestBid b = 0 /\ getBestAsk b = 0) /\ (getBestBid b = 0 /\ getBestAsk b = 0).
Proof.
  intros b.
  assert (Hwf : book_wf b).
  { apply run_wf; [apply empty_book_wf|].
    repeat constructor; simpl; unfold uint64; lia. }
  destruct (best_price_of_empty_side b) as (H1 & H2 & H3 & H4).
  split; split.
  - apply H1. reflexivity.
  - apply H2. reflexivity.
  - apply (H3 Hwf). reflexivity.
  - apply (H4 Hwf). reflexivity.
Defined.

Lemma resting_prices_cons b k q rest :
  resting_prices b ((k, q) :: rest) =
  ((fun p => Order.price (deref b p)) <$> q) ++ resting_prices b rest.
Proof. unfold resting_prices. by rewrite resting_ptrs_cons, fmap_app. Qed.

Lemma lowest_head (k : Z) (l : list Z) : Forall (fun y => k <= y) l -> lowest (k :: l) = Some k.
Proof.
  intros H. simpl. f_equal. induction H as [|y l Hy _ IH]; simpl; [done|].
  rewrite IH. lia.
Qed.

Lemma highest_head (k : Z) (l : list Z) : Forall (fun y => y <= k) l -> highest (k :: l) = Some k.
Proof.
  intros H. simpl. f_equal. induction H as [|y l Hy _ IH]; simpl; [done|].
  rewrite IH. lia.
Qed.

(** The first level of a well-formed side holds an order at the key's
    price, and every resting price is that key or comes after it. *)
Lemma first_level_prices b sd comp k q rest :
  levels_ok b sd ((k, q) :: rest) ->
  sorted_keys comp ((k, q) :: rest) ->
  q <> [] ->
  exists l, resting_prices b ((k, q) :: rest) = k :: l /\
            Forall (fun y => y = k \/ comp k y = true) l.
Proof.
  intros Hl Hs Hq. rewrite levels_ok_alt in Hl.
  unfold sorted_keys in Hs. simpl in Hs. apply StronglySorted_cons in Hs as [Hall _].
  rewrite Forall_forall in Hall.
  assert (Hin : Forall (fun y => y = k \/ comp k y = true) (resting_prices b ((k, q) :: rest))).
  { apply Forall_forall. intros y Hy. unfold resting_prices in Hy.
    apply list_elem_of_fmap in Hy as (x & -> & Hx).
    apply elem_of_resting_ptrs in Hx as (k' & q' & Hlv & Hx).
    destruct (Hl k' q' x Hlv Hx) as [_ -> _ _].
    apply elem_of_cons in Hlv as [Heq|Hlv]; [left; congruence|right].
    apply Hall. apply list_elem_of_fmap. by exists (k', q'). }
  rewrite resting_prices_cons in *. destruct q as [|s q']; [done|].
  rewrite fmap_cons in *. cbn [app] in *.
  destruct (Hl k (s :: q') s) as [_ Hp _ _]; [set_solver..|].
  rewrite Hp in *. eexists. split; [done|].
  by apply Forall_cons in Hin as [_ ?].
Qed.

(** What the accessors return on a well-formed book: [getBestBid] is the
    lowest resting bid and [getBestAsk] the highest resting ask. *)
Lemma best_bid_is_lowest_bid b :
  book_wf b -> bids b <> [] -> lowest (resting_prices b (bids b)) = Some (getBestBid b).
Proof.
  intros [[Hs _ Hl _ _ _ _] Hne _] Hb. unfold getBestBid.
  destruct (bids b) as [|[k q] rest]; [done|].
  apply Forall_cons in Hne as [Hq _]. simpl in Hq.
  destruct (first_level_prices b BUY bids_comp k q rest Hl Hs Hq) as (l & -> & Hall).
  apply lowest_head. eapply Forall_impl; [exact Hall|].
  intros y [->|Hy]; [lia|]. unfold bids_comp in Hy. apply Z.ltb_lt in Hy. lia.
Qed.

Lemma best_ask_is_highest_ask b :
  book_wf b -> asks b <> [] -> highest (resting_prices b (asks b)) = Some (getBestAsk b).
Proof.
  intros [[_ Hs _ Hl _ _ _] _ Hne] Hb. unfold getBestAsk.
  destruct (asks b) as [|[k q] rest]; [done|].
  apply Forall_cons in Hne as [Hq _]. simpl in Hq.
  destruct (first_level_prices b SELL asks_comp k q rest Hl Hs Hq) as (l & -> & Hall).
  apply highest_head. eapply Forall_impl; [exact Hall|].
  intros y [->|Hy]; [lia|]. unfold asks_comp in Hy.
  rewrite Z.gtb_ltb in Hy. apply Z.ltb_lt in Hy. lia.
Qed.

(** ** The next id is not in the index *)

Lemma exec_index_below_counter c b :
  index_below_counter b -> next_order_id b + 1 < 2 ^ 64 ->
  index_below_counter (exec c b) /\ next_order_id (exec c b) <= next_order_id b + 1.
Proof.
  intros [H1 Hidx] Hb. destruct c as [s t p q|id0].
  - change (exec (Add s t p q) b) with (addOrder s t p q b).2.
    unfold index_below_counter. rewrite !addOrder_next.
    rewrite wrap64_small by (unfold uint64; lia).
    split; [|lia]. split; [lia|].
    intros id x [[-> _]|Hl]%addOrder_index; [lia|].
    specialize (Hidx id x Hl). lia.
  - change (exec (Cancel id0) b) with (cancelOrder id0 b).2.
    unfold index_below_counter. rewrite !cancelOrder_next.
    split; [|lia]. split; [done|].
    intros id x. rewrite cancelOrder_eq.
    destruct (order_map b !! id0) as [order|] eqn:Hl0; [|apply Hidx].
    cbv zeta. cbn [snd].
    replace (order_map _) with (delete id0 (order_map b))
      by (by destruct (Order.side (deref b order))).
    intros [_ Hl]%lookup_delete_Some. by eapply Hidx.
Qed.

Lemma run_index_below_counter cs b :
  index_below_counter b -> next_order_id b + Z.of_nat (length cs) < 2 ^ 64 ->
  index_below_counter (run cs b).
Proof.
  revert b. induction cs as [|c cs IH]; intros b Hi Hb; [done|].
  simpl. simpl length in Hb.
  destruct (exec_index_below_counter c b Hi) as [Hi' Hn]; [lia|].
  apply IH; [done|lia].
Qed.

(** Fewer than [2^64 - 1] commands after the empty book, the id that the
    next [addOrder] assigns is not in the index. *)
Lemma next_id_fresh cs :
  Z.of_nat (length cs) < 2 ^ 64 - 1 ->
  let b := run cs empty_book in
  order_map b !! next_order_id b = None.
Proof.
  intros Hlen b.
  assert (Hi : index_below_counter b).
  { apply run_index_below_counter; [|simpl; lia].
    split; [simpl; lia|]. intros id p Hl. simpl in Hl. by rewrite lookup_empty in Hl. }
  destruct Hi as [_ Hidx].
  destruct (order_map b !! next_order_id b) as [p|] eqn:Hl; [|done].
  specialize (Hidx _ _ Hl). lia.
Qed.

(** ** Scenarios *)

(** A crossing limit order trades at the resting price and rests its
    remainder. *)
Example cross_then_rest :
  let b := run [Add SELL LIMIT 10050 100; Add BUY LIMIT 10060 150] empty_book in
  trade_history b = [Trade.mk 2 1 10050 100] /\
  asks b = [] /\ bids b = [(10060, [1%nat])] /\
  Order.quantity (deref b 1) = 50 /\ getBestBid b = 10060.
Proof. vm_compute. auto 10. Qed.

(** A limit order priced at the only level of the opposite side trades. *)
Example equal_price_single_level :
  let b := run [Add SELL LIMIT 10050 100; Add BUY LIMIT 10050 40] empty_book in
  trade_history b = [Trade.mk 2 1 10050 40] /\ bids b = [] /\
  Order.quantity (deref b 0) = 60.
Proof. vm_compute. auto. Qed.

(** Cancelling twice. *)
Example cancel_twice :
  let b := run [Add SELL LIMIT 10100 50] empty_book in
  (cancelOrder 1 b).1 = true /\
  (cancelOrder 1 (cancelOrder 1 b).2).1 = false /\
  asks (cancelOrder 1 b).2 = [] /\ trade_history (cancelOrder 1 b).2 = [].
Proof. vm_compute. auto. Qed.

(** Time priority inside one level. *)
Example time_priority :
  let b := run [Add SELL LIMIT 10050 50; Add SELL LIMIT 10050 50;
                Add BUY MARKET 0 70] empty_book in
  trade_history b = [Trade.mk 3 1 10050 50; Trade.mk 3 2 10050 20] /\
  asks b = [(10050, [1%nat])] /\ Order.quantity (deref b 1) = 30.
Proof. vm_compute. auto. Qed.

(** A market order on an empty opposite side trades nothing and leaves
    nothing behind. *)
Example market_on_empty_side :
  let r := addOrder BUY MARKET 0 10 empty_book in
  r.1 = 1 /\ trade_history r.2 = [] /\ bids r.2 = [] /\ asks r.2 = [] /\
  order_map r.2 = ∅.
Proof. vm_compute. auto 10. Qed.

(** * Further properties of the engine *)

(** ** A limit order trades within its limit *)

Lemma fill_level_prices a order k orders :
  forall b orders' b',
    fill_level a order k orders b = (orders', b') ->
    exists new, trade_history b' = trade_history b ++ new /\
                Forall (fun t => Trade.price t = k) new.
Proof.
  induction orders as [|s q IH]; intros b orders' b' Hf.
  - simpl in Hf. simplify_eq. exists []. by rewrite app_nil_r.
  - rewrite fill_level_cons in Hf.
    assert (Hone : Trade.price (new_trade a (Order.order_id (deref b order))
                     (Order.order_id (deref b s)) k
                     (Z.min (Order.quantity (deref b order)) (Order.quantity (deref b s)))) = k)
      by (by destruct a).
    destruct (0 <? Order.quantity (deref b order));
      [|simplify_eq; exists []; by rewrite app_nil_r].
    destruct (Order.quantity (deref (fill_one a order k s b) s) =? 0).
    + destruct (IH _ _ _ Hf) as (new & Hnew & Hall).
      eexists (_ :: new). split.
      * rewrite Hnew.
        change (trade_history (erase_index s (fill_one a order k s b)))
          with (trade_history (fill_one a order k s b)).
        rewrite trade_history_fill_one, <- (assoc_L (++)). done.
      * by constructor.
    + simplify_eq. eexists [_]. split; [apply trade_history_fill_one|].
      by constructor.
Qed.

Lemma fill_level_identity a order k orders x :
  forall b orders' b',
    fill_level a order k orders b = (orders', b') ->
    same_identity (deref b' x) (deref b x).
Proof.
  induction orders as [|s q IH]; intros b orders' b' Hf.
  - simpl in Hf. simplify_eq. apply same_identity_refl.
  - rewrite fill_level_cons in Hf.
    destruct (0 <? Order.quantity (deref b order));
      [|simplify_eq; apply same_identity_refl].
    destruct (Order.quantity (deref (fill_one a order k s b) s) =? 0).
    + eapply same_identity_trans; [by eapply IH|].
      rewrite deref_erase_index. apply fill_one_identity.
    + simplify_eq. apply fill_one_identity.
Qed.

Lemma sweep_prices a ty order levels :
  forall b levels' b',
    sweep a ty order levels b = (levels', b') ->
    exists new, trade_history b' = trade_history b ++ new /\
                Forall (fun t => gate a ty (Order.price (deref b order)) (Trade.price t) = false) new.
Proof.
  induction levels as [|[k orders] rest IH]; intros b levels' b' Hs.
  - simpl in Hs. simplify_eq. exists []. by rewrite app_nil_r.
  - rewrite sweep_cons in Hs.
    destruct (0 <? Order.quantity (deref b order));
      [|simplify_eq; exists []; by rewrite app_nil_r].
    destruct (gate a ty (Order.price (deref b order)) k) eqn:Hg;
      [simplify_eq; exists []; by rewrite app_nil_r|].
    destruct (fill_level a order k orders b) as [orders' b1] eqn:Hf.
    destruct (fill_level_prices _ _ _ _ _ _ _ Hf) as (new1 & Hnew1 & Hall1).
    destruct (fill_level_identity a order k orders order _ _ _ Hf) as (_ & _ & _ & Hp).
    assert (Hall1' : Forall (fun t => gate a ty (Order.price (deref b order)) (Trade.price t) = false) new1).
    { eapply Forall_impl; [exact Hall1|]. by intros t ->. }
    destruct orders' as [|s q].
    + destruct (IH _ _ _ Hs) as (new2 & Hnew2 & Hall2).
      exists (new1 ++ new2). split.
      * by rewrite Hnew2, Hnew1, <- (assoc_L (++)).
      * apply Forall_app. split; [done|]. by rewrite <- Hp.
    + simplify_eq. by exists new1.
Qed.

(** X1: whatever the book, every trade that a limit buy appends is at a
    price not above its limit, and every trade that a limit sell appends
    is at a price not below its limit. *)
Theorem limit_order_trades_within_limit (s : Side) (p q : Z) (b : OrderBook) :
  exists new,
    trade_history (addOrder s LIMIT p q b).2 = trade_history b ++ new /\
    Forall (within_limit s p) new.
Proof.
  rewrite addOrder_eq. cbv zeta. cbn [snd].
  pose proof (deref_new_order_here s LIMIT p q b) as Hd.
  set (b1 := (new_order s LIMIT p q b).2) in *.
  set (order := length (heap b)) in *.
  assert (Hm : exists new,
             trade_history (match_passive s LIMIT order b1) = trade_history b ++ new /\
             Forall (within_limit s p) new).
  { unfold match_passive.
    destruct (sweep s LIMIT order (passive s b1) b1) as [levels' b2] eqn:Hs.
    destruct (sweep_prices _ _ _ _ _ _ _ Hs) as (new & Hnew & Hall).
    exists new. split.
    - replace (trade_history (set_passive s levels' b2)) with (trade_history b2)
        by (by destruct s).
      by rewrite Hnew.
    - eapply Forall_impl; [exact Hall|]. intros t Hg.
      rewrite Hd in Hg. cbn [Order.price] in Hg. unfold within_limit.
      destruct s; simpl in Hg; [apply Z.ltb_ge in Hg|rewrite Z.gtb_ltb in Hg; apply Z.ltb_ge in Hg]; lia. }
  unfold match_limit. destruct (0 <? _); [|done].
  destruct Hm as (new & Hnew & Hall). exists new. split; [|done].
  rewrite <- Hnew. by destruct s.
Qed.

(** ** The counters *)

Lemma wrap64_succ z : wrap64 (wrap64 z + 1) = wrap64 (z + 1).
Proof. unfold wrap64. by rewrite Z.add_mod_idemp_l. Qed.

Lemma trade_count_step a order x y :
  total_trades x.2 = wrap64 (Z.of_nat (length (trade_history x.2))) ->
  fill_step a order x y ->
  total_trades y.2 = wrap64 (Z.of_nat (length (trade_history y.2))).
Proof.
  intros Hx Hstep.
  destruct Hstep as [k s q rest b Hpos Hz | k s q rest b Hpos Hnz | k rest b];
    cbn [fst snd] in *; [| |done].
  all: change (total_trades _) with (wrap64 (total_trades b + 1));
    change (trade_history _) with (trade_history (fill_one a order k s b));
    rewrite trade_history_fill_one, length_app, Hx, wrap64_succ; simpl length;
    f_equal; lia.
Qed.

Lemma processed_step a order c x y :
  total_orders_processed x.2 = c -> fill_step a order x y ->
  total_orders_processed y.2 = c.
Proof. intros Hx Hstep. by destruct Hstep. Qed.

Lemma match_passive_counters a ty order b :
  total_trades b = wrap64 (Z.of_nat (length (trade_history b))) ->
  let b' := match_passive a ty order b in
  total_trades b' = wrap64 (Z.of_nat (length (trade_history b'))) /\
  total_orders_processed b' = total_orders_processed b.
Proof.
  intros Hb. unfold match_passive.
  pose proof (sweep_preserves
                (fun x => total_trades x.2 = wrap64 (Z.of_nat (length (trade_history x.2))))
                a ty order (trade_count_step a order) (passive a b) b Hb) as H1.
  pose proof (sweep_preserves (fun x => total_orders_processed x.2 = total_orders_processed b)
                a ty order (processed_step a order _) (passive a b) b eq_refl) as H2.
  destruct (sweep a ty order (passive a b) b) as [levels' b1].
  cbn [snd] in H1, H2. by destruct a.
Qed.

Lemma exec_counters c n b :
  counters_ok n b ->
  counters_ok (if is_add c then S n else n) (exec c b).
Proof.
  intros (Ht & Hp & Hn). destruct c as [s t p q|id0]; cbn [is_add].
  - change (exec (Add s t p q) b) with (addOrder s t p q b).2.
    unfold counters_ok. rewrite addOrder_next.
    rewrite addOrder_eq. cbv zeta. cbn [snd].
    set (b1 := (new_order s t p q b).2) in *.
    set (order := length (heap b)) in *.
    assert (Hb1 : total_trades b1 = wrap64 (Z.of_nat (length (trade_history b1)))) by done.
    assert (Hm : forall ty,
               total_trades (match_passive s ty order b1) =
                 wrap64 (Z.of_nat (length (trade_history (match_passive s ty order b1)))) /\
               total_orders_processed (match_passive s ty order b1) =
                 wrap64 (total_orders_processed b + 1)).
    { intros ty. by destruct (match_passive_counters s ty order b1 Hb1) as [? ->]. }
    assert (Hgoal : forall b2,
               total_trades b2 = wrap64 (Z.of_nat (length (trade_history b2))) /\
               total_orders_processed b2 = wrap64 (total_orders_processed b + 1) ->
               total_trades b2 = wrap64 (Z.of_nat (length (trade_history b2))) /\
               total_orders_processed b2 = wrap64 (Z.of_nat (S n)) /\
               wrap64 (next_order_id b + 1) = wrap64 (Z.of_nat (S n) + 1)).
    { intros b2 [H1 H2]. split; [done|].
      rewrite H2, Hp, Hn, !wrap64_succ. split; f_equal; lia. }
    apply Hgoal.
    destruct t; [|apply Hm].
    unfold match_limit. destruct (0 <? _); [|apply Hm].
    destruct (rest_order_fields s order (match_passive s LIMIT order b1))
      as (_ & _ & _ & _ & -> & _).
    destruct (rest_order_counters s order (match_passive s LIMIT order b1)) as (-> & ->).
    apply Hm.
  - change (exec (Cancel id0) b) with (cancelOrder id0 b).2.
    unfold counters_ok. rewrite cancelOrder_next, cancelOrder_eq.
    destruct (order_map b !! id0) as [order|]; [|done].
    by destruct (Order.side (deref b order)).
Qed.

Lemma run_counters cs :
  forall n b, counters_ok n b -> counters_ok (n + adds cs) (run cs b).
Proof.
  induction cs as [|c cs IH]; intros n b Hb.
  - unfold adds. simpl. by rewrite Nat.add_0_r.
  - simpl. pose proof (exec_counters c n b Hb) as Hc.
    apply IH in Hc. unfold adds in *. rewrite filter_cons.
    destruct c; cbn [is_add] in *.
    + rewrite decide_True by done. simpl length.
      by replace (n + S (length (filter (fun c => is_add c = true) cs)))%nat
        with (S n + length (filter (fun c => is_add c = true) cs))%nat by lia.
    + by rewrite decide_False by done.
Qed.

(** X2: after any sequence of commands on the empty book,
    [total_trades] is the number of trades in the log,
    [total_orders_processed] is the number of [addOrder] calls and
    [next_order_id] is one more, all three modulo [2^64]; a cancel moves
    none of them. *)
Theorem counters_count (cs : list Command) :
  let b := run cs empty_book in
  total_trades b = wrap64 (Z.of_nat (length (trade_history b))) /\
  total_orders_processed b = wrap64 (Z.of_nat (adds cs)) /\
  next_order_id b = wrap64 (Z.of_nat (adds cs) + 1).
Proof.
  apply (run_counters cs 0 empty_book). by split.
Qed.

(** ** Well-formedness along runs *)

(** X3: every book reached from the empty book by commands with
    [uint64_t] quantities is well formed: the keys of each side are
    strictly ordered by its comparator, no level is empty, every resting
    order sits in the level of its own price on its own side with a
    remaining quantity in [1, 2^64), no order rests twice, and every
    entry of the index leads to a resting order with that id. *)
Theorem reachable_books_well_formed (cs : list Command) :
  Forall command_ok cs -> book_wf (run cs empty_book).
Proof. intros Hcs. apply run_wf; [apply empty_book_wf|done]. Qed.

Lemma reachable_books_well_formed_witness :
  book_wf (run [Add SELL LIMIT 10050 50; Add BUY LIMIT 10060 70; Cancel 2;
                Add BUY MARKET 0 5] empty_book).
Proof.
  apply reachable_books_well_formed.
  repeat constructor; simpl; unfold uint64; lia.
Defined.

(** ** The fills of one order *)

Lemma incoming_id_new_trade a i j k n : incoming_id a (new_trade a i j k n) = i.
Proof. by destruct a. Qed.

Lemma quantity_new_trade a i j k n : Trade.quantity (new_trade a i j k n) = n.
Proof. by destruct a. Qed.

Lemma trade_history_erase_index s b :
  trade_history (erase_index s b) = trade_history b.
Proof. reflexivity. Qed.

Lemma fills_inv_step a order b0 x y :
  match_inv a order x -> fills_inv a order b0 x ->
  fill_step a order x y -> fills_inv a order b0 y.
Proof.
  intros (Hok & Hlt & Hnot) (Hid & new & Hnew & Hall & Hsum) Hstep.
  unfold fills_inv.
  destruct Hstep as [k s q rest b Hpos Hz | k s q rest b Hpos Hnz | k rest b];
    cbn [fst snd] in *; [| |by eauto].
  all: destruct Hok as [_ _ Hp _ _ _ Hh];
    rewrite resting_ptrs_cons in Hnot;
    assert (Hne : order <> s) by set_solver;
    rewrite levels_ok_alt in Hp;
    destruct (Hp k (s :: q) s) as [Hsv _ _ Hsq]; [set_solver..|];
    destruct (fill_one_quantities a order k s b Hne Hlt Hsv Hh) as [Hqo _];
    destruct (fill_one_identity a order k s b order) as (Hio & _);
    rewrite ?deref_erase_index;
    (split; [congruence|]);
    exists (new ++ [new_trade a (Order.order_id (deref b order))
                      (Order.order_id (deref b s)) k
                      (Z.min (Order.quantity (deref b order))
                             (Order.quantity (deref b s)))]);
    (split; [by rewrite ?trade_history_erase_index, trade_history_fill_one, Hnew,
                        <- (assoc_L (++))|]);
    (split; [apply Forall_app; split; [done|]; constructor; [|done];
             rewrite incoming_id_new_trade, quantity_new_trade; split; [lia|done]|]);
    rewrite sum_with_app; simpl; rewrite quantity_new_trade, Hqo; lia.
Qed.

Lemma sum_with_bound {A} (f : A -> Z) l x :
  Forall (fun y => 0 < f y) l -> x ∈ l -> f x <= sum_with f l.
Proof.
  induction 1 as [|y l Hy Hl IH]; intros Hx; [by apply elem_of_nil in Hx|].
  assert (0 <= sum_with f l).
  { clear IH Hx. induction Hl as [|z l Hz _ IH]; simpl; lia. }
  apply elem_of_cons in Hx as [->|Hx]; simpl; [lia|]. specialize (IH Hx). lia.
Qed.

Lemma match_passive_fills a ty order b :
  book_wf b -> (order < length (heap b))%nat -> (order ∉ all_resting b) ->
  fills_inv a order b (passive a (match_passive a ty order b), match_passive a ty order b).
Proof.
  intros [Hok _ _] Hlt Hnot. unfold match_passive.
  set (I := fun x => match_inv a order x /\ fills_inv a order b x).
  assert (Hstep : forall x y, I x -> fill_step a order x y -> I y).
  { intros x y (H1 & H2) Hs. split; [by eapply match_inv_step|by eapply fills_inv_step]. }
  assert (HI : I (passive a b, b)).
  { split.
    - split; [by apply book_ok_sides|]. split; [done|].
      cbn [fst snd]. by rewrite <- all_resting_sides.
    - split; [done|]. exists []. cbn [snd]. rewrite app_nil_r. by repeat split. }
  pose proof (sweep_preserves I a ty order Hstep _ _ HI) as HI'.
  destruct (sweep a ty order (passive a b) b) as [levels' b1].
  destruct HI' as (_ & Hid & new & Hnew & Hall & Hsum). cbn [snd] in *.
  split; [by destruct a|]. exists new. cbn [snd]. by destruct a.
Qed.

(** X4: on a well-formed book, the trades that [addOrder] appends for an
    order of quantity [q] each have a positive quantity, at most [q],
    each name the id the call returns as buyer for a buy order and as
    seller for a sell order, and their quantities add up to [q] less what
    is left in the order object: an order is never filled beyond its
    quantity. *)
Theorem fills_of_an_order (s : Side) (t : OrderType) (p q : Z) (b : OrderBook) :
  book_wf b -> uint64 q ->
  let r := addOrder s t p q b in
  exists new,
    trade_history r.2 = trade_history b ++ new /\
    Forall (fun tr => 0 < Trade.quantity tr <= q /\ incoming_id s tr = r.1) new /\
    sum_with Trade.quantity new + Order.quantity (deref r.2 (length (heap b))) = q /\
    0 <= Order.quantity (deref r.2 (length (heap b))).
Proof.
  intros Hwf Hq. cbv zeta. rewrite addOrder_id.
  rewrite addOrder_eq. cbv zeta. cbn [snd].
  destruct (new_order_wf s t p q b Hwf Hq) as (Hwf1 & Hlt & Hnot).
  pose proof (deref_new_order_here s t p q b) as Hd.
  set (b1 := (new_order s t p q b).2) in *.
  set (order := length (heap b)) in *.
  assert (Hm : forall ty, exists new,
             trade_history (match_passive s ty order b1) = trade_history b ++ new /\
             Forall (fun tr => 0 < Trade.quantity tr <= q /\
                               incoming_id s tr = next_order_id b) new /\
             sum_with Trade.quantity new +
               Order.quantity (deref (match_passive s ty order b1) order) = q /\
             0 <= Order.quantity (deref (match_passive s ty order b1) order)).
  { intros ty.
    destruct (match_passive_fills s ty order b1 Hwf1 Hlt Hnot) as (_ & new & Hnew & Hall & Hsum).
    destruct (match_passive_spec s ty order b1 Hwf1 Hlt Hnot) as ([[_ _ _ _ _ _ Hh] _ _] & _).
    pose proof (deref_uint64 _ order Hh) as Hu. unfold uint64 in Hu.
    cbn [snd] in *. rewrite Hd in Hall, Hsum. cbn [Order.order_id Order.quantity] in Hall, Hsum.
    exists new. split; [done|]. split; [|split; [done|lia]].
    apply Forall_forall. intros tr Htr.
    pose proof (sum_with_bound Trade.quantity new tr) as Hb.
    rewrite Forall_forall in Hall. destruct (Hall tr Htr) as [Hpos Hinc].
    split; [|done]. split; [done|].
    assert (Trade.quantity tr <= sum_with Trade.quantity new).
    { apply Hb; [|done]. apply Forall_forall. intros y Hy. by destruct (Hall y Hy). }
    lia. }
  destruct t; [|apply Hm].
  unfold match_limit. destruct (0 <? _); [|apply Hm].
  destruct (Hm LIMIT) as (new & Hnew & Hall & Hsum & Hpos). exists new.
  destruct (rest_order_fields s order (match_passive s LIMIT order b1))
    as (_ & _ & _ & Hheap & Htr & _).
  unfold deref. rewrite Hheap, Htr. by repeat split.
Qed.

Lemma fills_of_an_order_witness :
  let b := run [Add SELL LIMIT 10050 50; Add SELL LIMIT 10050 50] empty_book in
  let r := addOrder BUY MARKET 0 70 b in
  exists new,
    new = [Trade.mk 3 1 10050 50; Trade.mk 3 2 10050 20] /\
    Forall (fun tr => 0 < Trade.quantity tr <= 70 /\ incoming_id BUY tr = r.1) new /\
    sum_with Trade.quantity new + Order.quantity (deref r.2 2) = 70.
Proof.
  intros b r.
  assert (Hwf : book_wf b).
  { apply run_wf; [apply empty_book_wf|].
    repeat constructor; simpl; unfold uint64; lia. }
  assert (Hq : uint64 70) by (unfold uint64; lia).
  destruct (fills_of_an_order BUY MARKET 0 70 b Hwf Hq) as (new & Hnew & Hall & Hsum & _).
  exists new. split; [|by split].
  assert (Ht : trade_history (addOrder BUY MARKET 0 70 b).2 =
               [Trade.mk 3 1 10050 50; Trade.mk 3 2 10050 20]) by (vm_compute; reflexivity).
  rewrite Ht in Hnew. symmetry. exact Hnew.
Defined.

(** ** Where an incoming order ends up *)

Section PriceLevelLookup.
Variable comp : Z -> Z -> bool.
Hypothesis comp_irrefl : forall a, comp a a = false.

Lemma pm_at_push_back k p m :
  pm_at comp k (pm_push_back comp k p m) = pm_at comp k m ++ [p].
Proof.
  induction m as [|[k' q] m IH].
  - rewrite pm_push_back_nil by done. by rewrite pm_at_cons, comp_irrefl.
  - rewrite pm_push_back_cons by done. rewrite (pm_at_cons comp k k' q m).
    destruct (comp k k') eqn:H1; [|destruct (comp k' k) eqn:H2].
    + by rewrite pm_at_cons, comp_irrefl.
    + by rewrite pm_at_cons, H1, H2.
    + by rewrite pm_at_cons, H1, H2.
Qed.
End PriceLevelLookup.

Lemma match_passive_exit a ty order b :
  book_wf b -> (order < length (heap b))%nat -> (order ∉ all_resting b) ->
  let b' := match_passive a ty order b in
  passive a b' = [] \/
  Order.quantity (deref b' order) = 0 \/
  exists best orders rest,
    passive a b' = (best, orders) :: rest /\
    gate a ty (Order.price (deref b' order)) best = true.
Proof.
  intros [Hok _ _] Hlt Hnot. unfold match_passive.
  assert (Hinv : match_inv a order (passive a b, b)).
  { split; [by apply book_ok_sides|]. split; [done|].
    cbn [fst snd]. by rewrite <- all_resting_sides. }
  destruct (sweep a ty order (passive a b) b) as [levels' b1] eqn:Hs.
  pose proof (sweep_exit a ty order _ _ _ _ Hinv Hs) as Hex.
  cbv zeta. rewrite passive_set_passive.
  replace (deref (set_passive a levels' b1) order) with (deref b1 order) by (by destruct a).
  done.
Qed.

(** X5: a market order never rests.  On a well-formed book [addOrder]
    with [MARKET] leaves the order's own side as it was, adds no entry to
    the index, leaves the order object out of the book, and stops only
    when the opposite side is empty or the order is filled to 0. *)
Theorem market_order_outcome (s : Side) (p q : Z) (b : OrderBook) :
  book_wf b -> uint64 q ->
  let r := addOrder s MARKET p q b in
  own s r.2 = own s b /\
  (forall id x, order_map r.2 !! id = Some x -> order_map b !! id = Some x) /\
  (length (heap b) ∉ all_resting r.2) /\
  (passive s r.2 = [] \/ Order.quantity (deref r.2 (length (heap b))) = 0).
Proof.
  intros Hwf Hq. cbv zeta. rewrite addOrder_eq. cbv zeta. cbn [snd].
  destruct (new_order_wf s MARKET p q b Hwf Hq) as (Hwf1 & Hlt & Hnot).
  set (b1 := (new_order s MARKET p q b).2) in *.
  set (order := length (heap b)) in *.
  destruct (match_passive_spec s MARKET order b1 Hwf1 Hlt Hnot) as (_ & Hnot2 & Hfr).
  pose proof (match_passive_exit s MARKET order b1 Hwf1 Hlt Hnot) as Hex. cbv zeta in Hex.
  destruct Hfr as [_ _ Hown _ Hidx _].
  split; [rewrite Hown; by destruct s|]. split; [exact Hidx|]. split; [done|].
  destruct Hex as [?|[?|(best & orders & rest & _ & Hg)]]; [by left|by right|].
  by destruct s.
Qed.

Lemma market_order_outcome_witness :
  let b := run [Add SELL LIMIT 10050 50; Add BUY LIMIT 10040 10] empty_book in
  let r := addOrder BUY MARKET 0 70 b in
  bids r.2 = bids b /\ order_map r.2 = {[ 2 := 1%nat ]} /\ asks r.2 = [] /\
  Order.quantity (deref r.2 2) = 20.
Proof.
  intros b r.
  assert (Hwf : book_wf b).
  { apply run_wf; [apply empty_book_wf|].
    repeat constructor; simpl; unfold uint64; lia. }
  assert (Hq : uint64 70) by (unfold uint64; lia).
  destruct (market_order_outcome BUY 0 70 b Hwf Hq) as (Hown & _ & _ & Hex).
  split; [exact Hown|]. split; [reflexivity|].
  destruct Hex as [Hex|Hex]; [|vm_compute in Hex; discriminate Hex].
  split; [exact Hex|reflexivity].
Defined.

(** X6: where a limit order ends up.  On a well-formed book, when
    [addOrder] with [LIMIT] leaves the order filled to 0 it does not
    rest: its own side and the index gain nothing.  When a remainder is
    left, the order is appended at the tail of the queue of its price on
    its own side, it is registered in the index under the returned id,
    and the opposite side is then empty or begins with a level whose
    price is beyond the order's limit. *)
Theorem limit_order_outcome (s : Side) (p q : Z) (b : OrderBook) :
  book_wf b -> uint64 q ->
  let r := addOrder s LIMIT p q b in
  let order := length (heap b) in
  let left := Order.quantity (deref r.2 order) in
  0 <= left /\
  (left = 0 ->
     own s r.2 = own s b /\ (order ∉ all_resting r.2) /\
     (forall id x, order_map r.2 !! id = Some x -> order_map b !! id = Some x)) /\
  (0 < left ->
     own s r.2 = pm_push_back (own_comp s) p order (own s b) /\
     pm_at (own_comp s) p (own s r.2) = pm_at (own_comp s) p (own s b) ++ [order] /\
     order_map r.2 !! r.1 = Some order /\
     (passive s r.2 = [] \/
      exists best orders rest,
        passive s r.2 = (best, orders) :: rest /\ beyond_limit s p best)).
Proof.
  intros Hwf Hq. cbv zeta. rewrite addOrder_id.
  rewrite addOrder_eq. cbv zeta. cbn [snd].
  destruct (new_order_wf s LIMIT p q b Hwf Hq) as (Hwf1 & Hlt & Hnot).
  pose proof (deref_new_order_here s LIMIT p q b) as Hd.
  set (b1 := (new_order s LIMIT p q b).2) in *.
  set (order := length (heap b)) in *.
  destruct (match_passive_spec s LIMIT order b1 Hwf1 Hlt Hnot) as (Hwf2 & Hnot2 & Hfr).
  pose proof (match_passive_exit s LIMIT order b1 Hwf1 Hlt Hnot) as Hex. cbv zeta in Hex.
  unfold match_limit.
  set (b2 := match_passive s LIMIT order b1) in *.
  destruct Hfr as [_ Hid Hown _ Hidx _].
  destruct (Hid order) as (Hi1 & _ & _ & Hi4). rewrite Hd in Hi1, Hi4.
  cbn [Order.order_id Order.price] in Hi1, Hi4.
  assert (Hown' : own s b2 = own s b) by (rewrite Hown; by destruct s).
  destruct Hwf2 as [[_ _ _ _ _ _ Hh] _ _].
  pose proof (deref_uint64 b2 order Hh) as Hu. unfold uint64 in Hu.
  destruct (0 <? Order.quantity (deref b2 order)) eqn:Hpos.
  - apply Z.ltb_lt in Hpos.
    destruct (rest_order_fields s order b2) as (Hmap & Hown2 & Hpas2 & Hheap & _ & _).
    assert (Hleft : deref (rest_order s order b2) order = deref b2 order)
      by (unfold deref; by rewrite Hheap).
    rewrite Hleft. split; [lia|]. split; [lia|]. intros _.
    rewrite Hown2, Hi4, Hown', Hmap, Hi1, Hpas2.
    split; [done|]. split; [apply pm_at_push_back, own_comp_irrefl|].
    split; [apply lookup_insert_eq|].
    destruct Hex as [?|[Hz|(best & orders & rest & Hp & Hg)]]; [by left|lia|].
    right. exists best, orders, rest. split; [done|].
    rewrite Hi4 in Hg. unfold beyond_limit.
    destruct s; simpl in Hg; [apply Z.ltb_lt in Hg|rewrite Z.gtb_ltb in Hg; apply Z.ltb_lt in Hg]; lia.
  - apply Z.ltb_ge in Hpos. split; [lia|]. split; [|lia]. by intros _.
Qed.

Lemma limit_order_outcome_witness :
  let b := run [Add SELL LIMIT 10050 50; Add SELL LIMIT 10070 50;
                Add BUY LIMIT 10040 10] empty_book in
  let r := addOrder BUY LIMIT 10060 70 b in
  bids r.2 = [(10040, [2%nat]); (10060, [3%nat])] /\
  order_map r.2 !! 4 = Some 3%nat /\
  exists best orders rest, asks r.2 = (best, orders) :: rest /\ 10060 < best.
Proof.
  intros b r.
  assert (Hwf : book_wf b).
  { apply run_wf; [apply empty_book_wf|].
    repeat constructor; simpl; unfold uint64; lia. }
  assert (Hq : uint64 70) by (unfold uint64; lia).
  destruct (limit_order_outcome BUY 10060 70 b Hwf Hq) as (_ & _ & Hrest).
  destruct Hrest as (Hown & _ & Hidx & Hex); [vm_compute; reflexivity|].
  split; [exact Hown|]. split; [exact Hidx|].
  destruct Hex as [Hex|Hex]; [vm_compute in Hex; discriminate Hex|exact Hex].
Defined.

(** ** Orders are filled in the order of the book *)

Lemma elem_of_tail {A} (x : A) (l : list A) : x ∈ tail l -> x ∈ l.
Proof. destruct l; simpl; [done|]. by right. Qed.

Lemma prio_inv_step a order b0 x y :
  NoDup (resting_ptrs (passive a b0)) ->
  (order ∉ resting_ptrs (passive a b0)) ->
  match_inv a order x -> own a x.2 = own a b0 -> prio_inv a b0 x ->
  fill_step a order x y -> prio_inv a b0 y.
Proof.
  intros Hnd0 Hnot0 (Hok & Hlt & Hnot) Hown (gone & Hsplit & Hgone & Htail & Hownd & Hle) Hstep.
  unfold prio_inv.
  destruct Hstep as [k s q rest b Hpos Hz | k s q rest b Hpos Hnz | k rest b];
    cbn [fst snd] in *; [| |exists gone; by rewrite resting_ptrs_cons in *].
  all: destruct Hok as [_ _ Hp _ Hnd _ Hh];
    rewrite Hown in Hnd, Hnot;
    rewrite resting_ptrs_cons in Hsplit, Hnd, Hnot, Htail, Hle;
    cbn [app tail] in Hsplit, Hnd, Hnot, Htail, Hle;
    apply NoDup_cons in Hnd as [Hs_notin Hnd];
    apply not_elem_of_cons in Hnot as [Hne Hnot];
    apply not_elem_of_app in Hs_notin as [Hs_pas Hs_own];
    apply not_elem_of_app in Hnot as [Ho_pas Ho_own];
    rewrite levels_ok_alt in Hp;
    destruct (Hp k (s :: q) s) as [Hsv _ _ _]; [set_solver..|];
    destruct (fill_one_quantities a order k s b Hne Hlt Hsv Hh) as [_ Hqs];
    assert (Hg_s : s ∉ gone)
      by (intros Hin; rewrite Hsplit in Hnd0;
          apply NoDup_app in Hnd0 as (_ & Hdisj & _); apply (Hdisj s Hin); by left);
    assert (Hg_o : order ∉ gone)
      by (intros Hin; apply Hnot0; rewrite Hsplit; apply elem_of_app; by left);
    assert (Hsame : forall p, p <> s -> p <> order ->
                      deref (fill_one a order k s b) p = deref b p)
      by (intros p ? ?; by apply fill_one_other).
  - exists (gone ++ [s]). rewrite resting_ptrs_cons.
    split; [by rewrite Hsplit, <- (assoc_L (++))|].
    split.
    { apply Forall_app. split; [|constructor; [by rewrite deref_erase_index|done]].
      apply Forall_forall. intros d Hd. rewrite deref_erase_index, Hsame.
      - rewrite Forall_forall in Hgone. by apply Hgone.
      - by intros ->.
      - by intros ->. }
    split.
    { intros p Hp'. apply elem_of_tail in Hp'.
      rewrite deref_erase_index, Hsame; [by apply Htail|by intros ->|by intros ->]. }
    split.
    { intros p Hp'. rewrite deref_erase_index, Hsame; [by apply Hownd|by intros ->|by intros ->]. }
    intros p Hp'.
    rewrite deref_erase_index, Hsame; [|by intros ->|by intros ->].
    rewrite (Htail p Hp'). lia.
  - exists gone. rewrite resting_ptrs_cons. cbn [app tail].
    split; [done|].
    split.
    { apply Forall_forall. intros d Hd. rewrite Hsame.
      - rewrite Forall_forall in Hgone. by apply Hgone.
      - by intros ->.
      - by intros ->. }
    split.
    { intros p Hp'. rewrite Hsame; [by apply Htail|by intros ->|by intros ->]. }
    split.
    { intros p Hp'. rewrite Hsame; [by apply Hownd|by intros ->|by intros ->]. }
    intros p [->|Hp']%elem_of_cons.
    + rewrite Hqs. specialize (Hle s). pose proof (deref_uint64 b order Hh) as Hu.
      unfold uint64 in Hu.
      assert (Order.quantity (deref b s) <= Order.quantity (deref b0 s)) by (apply Hle; by left).
      lia.
    + rewrite Hsame; [|by intros ->|by intros ->]. rewrite (Htail p Hp'). lia.
Qed.

Lemma match_passive_prio a ty order b :
  book_wf b -> (order < length (heap b))%nat -> (order ∉ all_resting b) ->
  prio_inv a b (passive a (match_passive a ty order b), match_passive a ty order b).
Proof.
  intros [Hok _ _] Hlt Hnot. unfold match_passive.
  pose proof Hok as Hs. apply (book_ok_sides a) in Hs as [_ _ _ _ Hnd _ _].
  pose proof Hnot as Hnot'. rewrite (all_resting_sides a) in Hnot'.
  apply NoDup_app in Hnd as (Hnd & _ & _).
  apply not_elem_of_app in Hnot' as [Hnp _].
  set (I := fun x => match_inv a order x /\ own a x.2 = own a b /\ prio_inv a b x).
  assert (Hstep : forall x y, I x -> fill_step a order x y -> I y).
  { intros x y (H1 & H2 & H3) Hst. split; [by eapply match_inv_step|]. split.
    - rewrite <- H2. by destruct Hst as [k s q rest b0 ? ?|k s q rest b0 ? ?|k rest b0];
        cbn [snd]; rewrite ?own_erase_index, ?own_fill_one.
    - by eapply prio_inv_step. }
  assert (HI : I (passive a b, b)).
  { split; [|split; [done|]].
    - split; [by apply book_ok_sides|]. split; [done|].
      cbn [fst snd]. by rewrite <- all_resting_sides.
    - exists []. cbn [fst snd]. by repeat split. }
  pose proof (sweep_preserves I a ty order Hstep _ _ HI) as HI'.
  destruct (sweep a ty order (passive a b) b) as [levels' b1].
  destruct HI' as (_ & _ & gone & H1 & H2 & H3 & H4 & H5). cbn [fst snd] in *.
  exists gone. cbn [fst snd]. rewrite passive_set_passive.
  assert (Hd : forall p, deref (set_passive a levels' b1) p = deref b1 p) by (by destruct a).
  split; [done|]. split; [|split; [|split]].
  - eapply Forall_impl; [exact H2|]. intros p Hp. by rewrite Hd.
  - intros p Hp. rewrite Hd. by apply H3.
  - intros p Hp. rewrite Hd. by apply H4.
  - intros p Hp. rewrite Hd. by apply H5.
Qed.

(** X7: fills follow the order of the book.  On a well-formed book the
    resting orders that [addOrder] takes out of the opposite side are a
    prefix of that side in its iteration order (level after level, each
    queue from its head), and each is filled to 0.  Of the orders left on
    that side only the first can have been touched, and only by a
    partial fill; no other object there changes, and no order on the
    incoming order's own side changes. *)
Theorem fills_follow_book_order (s : Side) (t : OrderType) (p q : Z) (b : OrderBook) :
  book_wf b -> uint64 q ->
  let r := addOrder s t p q b in
  exists gone,
    resting_ptrs (passive s b) = gone ++ resting_ptrs (passive s r.2) /\
    Forall (fun x => Order.quantity (deref r.2 x) = 0) gone /\
    (forall x, x ∈ tail (resting_ptrs (passive s r.2)) -> deref r.2 x = deref b x) /\
    (forall x, x ∈ resting_ptrs (own s b) -> deref r.2 x = deref b x) /\
    (forall x, x ∈ resting_ptrs (passive s r.2) ->
       0 < Order.quantity (deref r.2 x) <= Order.quantity (deref b x)).
Proof.
  intros Hwf Hq. cbv zeta.
  pose proof (addOrder_wf s t p q b Hwf Hq) as Hwf'.
  revert Hwf'. rewrite addOrder_eq. cbv zeta. cbn [snd]. intros Hwf'.
  destruct (new_order_wf s t p q b Hwf Hq) as (Hwf1 & Hlt & Hnot).
  set (b1 := (new_order s t p q b).2) in *.
  set (order := length (heap b)) in *.
  assert (Hold : forall x, x ∈ all_resting b -> deref b1 x = deref b x).
  { intros x Hx. subst b1. apply deref_new_order_old.
    apply resting_valid; [by destruct Hwf|done]. }
  assert (Hpas1 : passive s b1 = passive s b) by (by destruct s).
  assert (Hown1 : own s b1 = own s b) by (by destruct s).
  assert (Hm : forall ty b2,
             heap b2 = heap (match_passive s ty order b1) ->
             passive s b2 = passive s (match_passive s ty order b1) ->
             book_wf b2 ->
             exists gone,
               resting_ptrs (passive s b) = gone ++ resting_ptrs (passive s b2) /\
               Forall (fun x => Order.quantity (deref b2 x) = 0) gone /\
               (forall x, x ∈ tail (resting_ptrs (passive s b2)) -> deref b2 x = deref b x) /\
               (forall x, x ∈ resting_ptrs (own s b) -> deref b2 x = deref b x) /\
               (forall x, x ∈ resting_ptrs (passive s b2) ->
                  0 < Order.quantity (deref b2 x) <= Order.quantity (deref b x))).
  { intros ty b2 Hheap Hpas Hwf2.
    destruct (match_passive_prio s ty order b1 Hwf1 Hlt Hnot)
      as (gone & H1 & H2 & H3 & H4 & H5). cbn [fst snd] in *.
    rewrite Hpas1 in H1. rewrite Hown1 in H4.
    assert (Hd : forall x, deref b2 x = deref (match_passive s ty order b1) x)
      by (intros x; unfold deref; by rewrite Hheap).
    rewrite Hpas.
    assert (Hin : forall x, x ∈ resting_ptrs (passive s (match_passive s ty order b1)) ->
                            x ∈ all_resting b).
    { intros x Hx. apply (all_resting_sides s). rewrite H1. set_solver. }
    exists gone. split; [done|]. split; [|split; [|split]].
    - eapply Forall_impl; [exact H2|]. intros x Hx. by rewrite Hd.
    - intros x Hx. rewrite Hd, H3 by done. apply Hold, Hin. by apply elem_of_tail.
    - intros x Hx. rewrite Hd, H4 by done. apply Hold.
      apply (all_resting_sides s). set_solver.
    - intros x Hx. split.
      + apply resting_positive; [done|]. apply (all_resting_sides s).
        rewrite Hpas. set_solver.
      + rewrite Hd. rewrite <- (Hold x) by (by apply Hin). by apply H5. }
  destruct t; [|by apply (Hm MARKET)].
  unfold match_limit in *. destruct (0 <? _); [|by apply (Hm LIMIT)].
  destruct (rest_order_fields s order (match_passive s LIMIT order b1))
    as (_ & _ & Hpas & Hheap & _ & _).
  by apply (Hm LIMIT).
Qed.

Lemma fills_follow_book_order_witness :
  let b := run [Add SELL LIMIT 10050 50; Add SELL LIMIT 10050 50;
                Add SELL LIMIT 10050 40] empty_book in
  let r := addOrder BUY MARKET 0 70 b in
  exists gone,
    gone = [0%nat] /\
    resting_ptrs (asks b) = gone ++ resting_ptrs (asks r.2) /\
    Forall (fun x => Order.quantity (deref r.2 x) = 0) gone /\
    deref r.2 2 = deref b 2.
Proof.
  intros b r.
  assert (Hwf : book_wf b).
  { apply run_wf; [apply empty_book_wf|].
    repeat constructor; simpl; unfold uint64; lia. }
  assert (Hq : uint64 70) by (unfold uint64; lia).
  destruct (fills_follow_book_order BUY MARKET 0 70 b Hwf Hq)
    as (gone & Hsplit & Hgone & Htail & _).
  change (passive BUY b) with (asks b) in Hsplit.
  change (passive BUY (addOrder BUY MARKET 0 70 b).2) with (asks r.2) in Hsplit, Htail.
  assert (Ha : resting_ptrs (asks b) = [0; 1; 2]%nat) by (vm_compute; reflexivity).
  assert (Ha' : resting_ptrs (asks r.2) = [1; 2]%nat) by (vm_compute; reflexivity).
  exists gone. split.
  - rewrite Ha, Ha' in Hsplit. clear -Hsplit.
    symmetry. apply (app_inv_tail [1; 2]%nat). exact Hsplit.
  - split; [exact Hsplit|]. split; [exact Hgone|].
    apply Htail. rewrite Ha'. simpl. apply list_elem_of_here.
Defined.

(** ** The index holds every resting order *)

Lemma complete_inv_step a order x y :
  match_inv a order x -> complete_inv a x ->
  fill_step a order x y -> complete_inv a y.
Proof.
  intros (Hok & _ & _) Hc Hstep. unfold complete_inv in *.
  destruct Hstep as [k s q rest b Hpos Hz | k s q rest b Hpos Hnz | k rest b];
    cbn [fst snd] in *; [| |by rewrite resting_ptrs_cons in Hc].
  - destruct Hok as [_ _ _ _ Hnd _ _].
    rewrite resting_ptrs_cons in Hnd, Hc. cbn [app] in Hnd, Hc.
    apply NoDup_cons in Hnd as [Hs_notin _].
    rewrite own_erase_index, own_fill_one, resting_ptrs_cons.
    intros p Hp.
    rewrite order_map_erase_index, deref_erase_index, order_map_fill_one.
    destruct (fill_one_identity a order k s b p) as (-> & _).
    destruct (fill_one_identity a order k s b s) as (-> & _).
    rewrite lookup_delete_ne; [apply Hc; by right|].
    intros Heq.
    assert (Some s = Some p) as Hsp.
    { rewrite <- (Hc s) by (by left). rewrite Heq. apply Hc. by right. }
    simplify_eq. done.
  - rewrite own_fill_one. intros p Hp.
    rewrite order_map_fill_one.
    destruct (fill_one_identity a order k s b p) as (-> & _). by apply Hc.
Qed.

Lemma match_passive_complete a ty order b :
  book_wf b -> (order < length (heap b))%nat -> (order ∉ all_resting b) ->
  index_complete b -> index_complete (match_passive a ty order b).
Proof.
  intros [Hok _ _] Hlt Hnot Hc. unfold match_passive.
  set (I := fun x => match_inv a order x /\ complete_inv a x).
  assert (Hstep : forall x y, I x -> fill_step a order x y -> I y).
  { intros x y (H1 & H2) Hs. split; [by eapply match_inv_step|by eapply complete_inv_step]. }
  assert (HI : I (passive a b, b)).
  { split.
    - split; [by apply book_ok_sides|]. split; [done|].
      cbn [fst snd]. by rewrite <- all_resting_sides.
    - intros p Hp. cbn [fst snd] in *. apply Hc. by apply (all_resting_sides a). }
  pose proof (sweep_preserves I a ty order Hstep _ _ HI) as HI'.
  destruct (sweep a ty order (passive a b) b) as [levels' b1].
  destruct HI' as (_ & Hc'). unfold complete_inv in Hc'. cbn [fst snd] in Hc'.
  intros p Hp. apply (all_resting_sides a) in Hp.
  rewrite passive_set_passive, own_set_passive in Hp.
  replace (order_map (set_passive a levels' b1)) with (order_map b1) by (by destruct a).
  replace (deref (set_passive a levels' b1) p) with (deref b1 p) by (by destruct a).
  by apply Hc'.
Qed.

Lemma exec_index_complete c b :
  book_wf b -> command_ok c ->
  index_complete b -> index_below_counter b ->
  index_complete (exec c b).
Proof.
  intros Hwf Hc Hcomp [_ Hbelow].
  destruct c as [s t p q|id0].
  - change (uint64 q) in Hc.
    change (exec (Add s t p q) b) with (addOrder s t p q b).2.
    rewrite addOrder_eq. cbv zeta. cbn [snd].
    destruct (new_order_wf s t p q b Hwf Hc) as (Hwf1 & Hlt & Hnot).
    pose proof (deref_new_order_here s t p q b) as Hd.
    set (b1 := (new_order s t p q b).2) in *.
    set (order := length (heap b)) in *.
    assert (Hc1 : index_complete b1).
    { intros x Hx. change (all_resting b1) with (all_resting b) in Hx.
      change (order_map b1) with (order_map b).
      subst b1. rewrite deref_new_order_old; [by apply Hcomp|].
      apply resting_valid; [by destruct Hwf|done]. }
    pose proof (fun ty => match_passive_complete s ty order b1 Hwf1 Hlt Hnot Hc1) as Hm.
    destruct t; [|apply Hm].
    unfold match_limit.
    destruct (match_passive_spec s LIMIT order b1 Hwf1 Hlt Hnot) as (_ & _ & Hfr).
    specialize (Hm LIMIT).
    set (b2 := match_passive s LIMIT order b1) in *.
    destruct (0 <? _); [|done].
    destruct (rest_order_fields s order b2) as (Hmap & Hown & Hpas & Hheap & _ & _).
    destruct Hfr as [_ Hid _ _ Hidx _].
    destruct (Hid order) as (Hi1 & _). rewrite Hd in Hi1. cbn [Order.order_id] in Hi1.
    intros x Hx. apply (all_resting_sides s) in Hx. rewrite Hpas, Hown in Hx.
    rewrite Hmap, Hi1.
    replace (deref (rest_order s order b2) x) with (deref b2 x)
      by (unfold deref; by rewrite Hheap).
    assert (Hx' : x = order \/ x ∈ all_resting b2).
    { rewrite (all_resting_sides s b2).
      apply elem_of_app in Hx as [Hx|Hx]; [right; set_solver|].
      rewrite (pm_push_back_resting (own_comp s) (own_comp_irrefl s)) in Hx.
      apply elem_of_cons in Hx as [->|Hx]; [by left|right; set_solver]. }
    destruct Hx' as [->|Hx'].
    + rewrite Hi1. apply lookup_insert_eq.
    + specialize (Hm x Hx'). rewrite lookup_insert_ne; [done|].
      intros Heq. apply Hidx in Hm. change (order_map b1) with (order_map b) in Hm.
      specialize (Hbelow _ _ Hm). lia.
  - change (exec (Cancel id0) b) with (cancelOrder id0 b).2.
    destruct (order_map b !! id0) as [order|] eqn:Hl.
    + destruct (cancelOrder_found id0 order b Hwf Hl) as (_ & _ & Hall & Hmap & Hheap & _).
      intros x Hx. rewrite Hall in Hx. apply list_elem_of_filter in Hx as [Hne Hx].
      rewrite Hmap. unfold deref. rewrite Hheap. fold (deref b x).
      rewrite lookup_delete_ne; [by apply Hcomp|].
      intros Heq. specialize (Hcomp x Hx). rewrite <- Heq in Hcomp. congruence.
    + by rewrite cancelOrder_unknown.
Qed.

Lemma run_index_complete cs :
  forall b,
    book_wf b -> Forall command_ok cs ->
    index_complete b -> index_below_counter b ->
    next_order_id b + Z.of_nat (length cs) < 2 ^ 64 ->
    index_complete (run cs b).
Proof.
  induction cs as [|c cs IH]; intros b Hwf Hcs Hc Hb Hn; [done|].
  apply Forall_cons in Hcs as [Hc1 Hcs]. simpl. simpl length in Hn.
  destruct (exec_index_below_counter c b Hb) as [Hb' Hn']; [lia|].
  apply IH; [by apply exec_wf|done|by apply exec_index_complete|done|lia].
Qed.

Lemma index_size b :
  book_wf b -> index_complete b -> size (order_map b) = length (all_resting b).
Proof.
  intros [[_ _ _ _ Hnd Hidx _] _ _] Hc.
  set (l := (fun p => (Order.order_id (deref b p), p)) <$> all_resting b).
  assert (Hkeys : NoDup l.*1).
  { subst l. rewrite <- list_fmap_compose.
    apply NoDup_fmap_2_strong; [|done].
    intros x y Hx Hy Heq. simpl in Heq.
    pose proof (Hc x Hx) as H1. pose proof (Hc y Hy) as H2.
    rewrite Heq in H1. congruence. }
  assert (Heq : order_map b = list_to_map l).
  { apply map_eq. intros i.
    destruct (order_map b !! i) as [p|] eqn:Hl; symmetry.
    - apply elem_of_list_to_map; [done|].
      destruct (Hidx i p Hl) as [<- Hin].
      subst l. apply list_elem_of_fmap. by exists p.
    - apply not_elem_of_list_to_map. intros Hin.
      subst l. rewrite <- list_fmap_compose in Hin.
      apply list_elem_of_fmap in Hin as (p & -> & Hin). simpl in Hl.
      rewrite (Hc p Hin) in Hl. done. }
  rewrite Heq, map_size_list_to_map by done.
  subst l. by rewrite length_fmap.
Qed.

(** X8: fewer than [2^64 - 1] commands after the empty book, the index
    and the book hold the same orders: every resting order is in the
    index under its own id, every entry of the index leads to a resting
    order with that id, and [order_map.size()], the figure [printStats]
    prints as "Active bid orders", is the number of orders resting on
    both sides together. *)
Theorem index_holds_the_resting_orders (cs : list Command) :
  Forall command_ok cs -> Z.of_nat (length cs) < 2 ^ 64 - 1 ->
  let b := run cs empty_book in
  (forall x, x ∈ all_resting b -> order_map b !! Order.order_id (deref b x) = Some x) /\
  (forall id x, order_map b !! id = Some x ->
     Order.order_id (deref b x) = id /\ x ∈ all_resting b) /\
  (printStats_counts b).2 =
    Z.of_nat (length (resting_ptrs (bids b)) + length (resting_ptrs (asks b))).
Proof.
  intros Hcs Hlen b.
  assert (Hwf : book_wf b) by (apply run_wf; [apply empty_book_wf|done]).
  assert (Hc : index_complete b).
  { apply run_index_complete; [apply empty_book_wf|done| | |simpl; lia].
    - intros x Hx. by apply elem_of_nil in Hx.
    - split; [simpl; lia|]. intros id x Hl. simpl in Hl. by rewrite lookup_empty in Hl. }
  split; [exact Hc|]. split; [by destruct Hwf as [[_ _ _ _ _ ? _] _ _]|].
  unfold printStats_counts. cbn [snd]. rewrite (index_size b Hwf Hc).
  unfold all_resting. by rewrite length_app.
Qed.

Lemma index_holds_the_resting_orders_witness :
  let b := run [Add SELL LIMIT 10050 50; Add BUY LIMIT 10040 10;
                Add BUY LIMIT 10030 10; Cancel 2] empty_book in
  order_map b !! 1 = Some 0%nat /\ order_map b !! 3 = Some 2%nat /\
  (printStats_counts b).2 = 2.
Proof.
  intros b.
  assert (Hcs : Forall command_ok [Add SELL LIMIT 10050 50; Add BUY LIMIT 10040 10;
                                   Add BUY LIMIT 10030 10; Cancel 2]).
  { repeat constructor; simpl; unfold uint64; lia. }
  destruct (index_holds_the_resting_orders _ Hcs ltac:(simpl; lia)) as (H1 & _ & H3).
  fold b in H1, H3.
  assert (Ha : all_resting b = [2; 0]%nat) by (vm_compute; reflexivity).
  split; [|split].
  - apply (H1 0%nat). rewrite Ha. apply list_elem_of_further, list_elem_of_here.
  - apply (H1 2%nat). rewrite Ha. apply list_elem_of_here.
  - rewrite H3. vm_compute. reflexivity.
Defined.

(** ** Ids are handed out in sequence *)

(** X9: the id returned by [addOrder] is one more than the number of
    [addOrder] calls made before it since the empty book, whatever their
    kind and whether they traded, rested or were dropped; a cancel uses up
    no id.  This holds for the first [2^64 - 1] calls, after which the
    counter wraps around. *)
Theorem ids_in_sequence (cs : list Command) (s : Side) (t : OrderType) (p q : Z) :
  Z.of_nat (adds cs) < 2 ^ 64 - 1 ->
  (addOrder s t p q (run cs empty_book)).1 = Z.of_nat (adds cs) + 1.
Proof.
  intros Hn. rewrite addOrder_id.
  destruct (run_counters cs 0 empty_book) as (_ & _ & ->); [by split|].
  apply wrap64_small. unfold uint64. simpl. lia.
Qed.

Lemma ids_in_sequence_witness :
  (addOrder BUY MARKET 0 5
     (run [Add SELL LIMIT 10050 50; Cancel 1; Add BUY LIMIT 10060 70] empty_book)).1 = 3.
Proof.
  apply (ids_in_sequence [Add SELL LIMIT 10050 50; Cancel 1; Add BUY LIMIT 10060 70]
           BUY MARKET 0 5).
  vm_compute. reflexivity.
Defined.

(** ** The rows of [printOrderBook] *)

Lemma level_total_from b orders :
  forall a, uint64 a ->
    foldl (fun total p => wrap64 (total + Order.quantity (deref b p))) a orders =
    wrap64 (a + sum_with (fun p => Order.quantity (deref b p)) orders).
Proof.
  induction orders as [|x orders IH]; intros a Ha.
  - simpl. rewrite Z.add_0_r. symmetry. by apply wrap64_small.
  - simpl. rewrite IH by apply wrap64_range.
    unfold wrap64. rewrite Z.add_mod_idemp_l by lia. f_equal. unfold sum_with. lia.
Qed.

Lemma level_total_sum b orders :
  level_total b orders = wrap64 (sum_with (fun p => Order.quantity (deref b p)) orders).
Proof. unfold level_total. rewrite level_total_from; [done|unfold uint64; lia]. Qed.

Lemma foldr_min_spec (x : Z) (l : list Z) :
  foldr Z.min x l ∈ x :: l /\ Forall (fun y => foldr Z.min x l <= y) (x :: l).
Proof.
  induction l as [|y l [Hin Hall]]; simpl.
  - split; [apply list_elem_of_here|]. constructor; [lia|constructor].
  - apply Forall_cons in Hall as [Hx Hall].
    destruct (Z.le_ge_cases y (foldr Z.min x l)) as [Hle|Hle].
    + rewrite Z.min_l by done. split; [apply list_elem_of_further, list_elem_of_here|].
      constructor; [lia|]. constructor; [lia|].
      eapply Forall_impl; [exact Hall|]. simpl. intros; lia.
    + rewrite Z.min_r by done. split.
      * apply elem_of_cons in Hin as [Hin|Hin]; [rewrite Hin; apply list_elem_of_here|].
        by do 2 apply list_elem_of_further.
      * constructor; [done|]. by constructor.
Qed.

Lemma lowest_spec (k : Z) (l : list Z) :
  k ∈ l -> Forall (fun y => k <= y) l -> lowest l = Some k.
Proof.
  intros Hin Hall. destruct l as [|x l]; [by apply elem_of_nil in Hin|].
  simpl. f_equal. destruct (foldr_min_spec x l) as [Hm Hmall].
  rewrite Forall_forall in Hall, Hmall.
  specialize (Hall _ Hm). specialize (Hmall _ Hin). lia.
Qed.

Lemma sorted_reverse (l : list Z) :
  StronglySorted (fun k1 k2 => asks_comp k1 k2 = true) l -> StronglySorted Z.lt (reverse l).
Proof.
  induction 1 as [|k l _ IH Hall]; [constructor|].
  rewrite reverse_cons. apply StronglySorted_app_2; [|done|repeat constructor].
  intros x1 x2 Hx1 ->%list_elem_of_singleton.
  rewrite elem_of_reverse in Hx1. rewrite Forall_forall in Hall.
  specialize (Hall _ Hx1). unfold asks_comp in Hall.
  rewrite Z.gtb_ltb in Hall. by apply Z.ltb_lt in Hall.
Qed.

Lemma sorted_take {A} (R : relation A) (n : nat) (l : list A) :
  StronglySorted R l -> StronglySorted R (take n l).
Proof.
  intros H. rewrite <- (take_drop n l) in H. by apply StronglySorted_app_1_l in H.
Qed.

Lemma elem_of_taken {A} (n : nat) (l : list A) (x : A) : x ∈ take n l -> x ∈ l.
Proof. intros H. rewrite <- (take_drop n l). apply elem_of_app. by left. Qed.

Lemma row_prices b (m : list (Z * list nat)) : (level_row b <$> m).*1.*1 = m.*1.
Proof. induction m as [|[k q] m IH]; [done|]. rewrite !fmap_cons. by rewrite IH. Qed.

(** The last level of a well-formed ask side holds the lowest resting
    ask. *)
Lemma last_ask_is_lowest_ask b k q front :
  book_wf b -> asks b = front ++ [(k, q)] -> lowest_ask b = Some k.
Proof.
  intros [[_ Hs _ Hl _ _ _] _ Hne] Ha. unfold lowest_ask.
  rewrite levels_ok_alt in Hl.
  assert (Hq : q <> []).
  { unfold no_empty_level in Hne. rewrite Forall_forall in Hne.
    apply (Hne (k, q)). rewrite Ha. apply elem_of_app. right. apply list_elem_of_here. }
  apply lowest_spec.
  - destruct q as [|x q]; [done|].
    unfold resting_prices. apply list_elem_of_fmap. exists x.
    assert (Hx : x ∈ resting_ptrs (asks b)).
    { apply elem_of_resting_ptrs. exists k, (x :: q). split; [|apply list_elem_of_here].
      rewrite Ha. apply elem_of_app. right. apply list_elem_of_here. }
    split; [|done].
    assert (Hlv : (k, x :: q) ∈ asks b).
    { rewrite Ha. apply elem_of_app. right. apply list_elem_of_here. }
    by destruct (Hl k (x :: q) x Hlv ltac:(apply list_elem_of_here)) as [_ -> _ _].
  - apply Forall_forall. intros y Hy. unfold resting_prices in Hy.
    apply list_elem_of_fmap in Hy as (x & -> & Hx).
    apply elem_of_resting_ptrs in Hx as (k' & q' & Hlv & Hx).
    destruct (Hl k' q' x Hlv Hx) as [_ -> _ _].
    unfold sorted_keys in Hs. rewrite Ha in Hs, Hlv.
    apply elem_of_app in Hlv as [Hlv|Hlv].
    + rewrite fmap_app in Hs.
      assert (asks_comp k' k = true) as Hc.
      { apply (StronglySorted_app_1_elem_of _ _ _ k' k Hs).
        - apply list_elem_of_fmap. by exists (k', q').
        - simpl. apply list_elem_of_here. }
      unfold asks_comp in Hc. rewrite Z.gtb_ltb in Hc. apply Z.ltb_lt in Hc. lia.
    + apply list_elem_of_singleton in Hlv. simplify_eq. lia.
Qed.

Lemma sorted_bids_keys (l : list Z) :
  StronglySorted (fun k1 k2 => bids_comp k1 k2 = true) l -> StronglySorted Z.lt l.
Proof.
  intros H. eapply StronglySorted_fmap in H; [by rewrite list_fmap_id in H|].
  intros x y Hxy. unfold bids_comp in Hxy. by apply Z.ltb_lt in Hxy.
Qed.

(** The rows made of the first [n] levels of a list with strictly
    increasing keys: each row is one of the levels, and every level of
    the list whose price is not in a row has a higher price than every
    row. *)
Lemma rows_of_lowest_levels b (n : nat) (m : list (Z * list nat)) :
  StronglySorted Z.lt m.*1 -> no_empty_level m ->
  let rows := level_row b <$> take n m in
  (forall r, r ∈ rows ->
     exists orders, (r.1.1, orders) ∈ m /\
       r.1.2 = wrap64 (sum_with (fun p => Order.quantity (deref b p)) orders) /\
       r.2 = Z.of_nat (length orders) /\ 1 <= r.2) /\
  (forall r l, r ∈ rows -> l ∈ m -> (l.1 ∉ rows.*1.*1) -> r.1.1 < l.1).
Proof.
  intros Hs Hne rows. subst rows. split.
  - intros r Hr. apply list_elem_of_fmap in Hr as ([k q] & -> & Hl).
    apply elem_of_taken in Hl.
    exists q. unfold level_row. cbn [fst snd].
    split; [done|]. split; [apply level_total_sum|]. split; [done|].
    unfold no_empty_level in Hne. rewrite Forall_forall in Hne.
    specialize (Hne _ Hl). simpl in Hne. destruct q; [done|]. simpl length. lia.
  - intros r l Hr Hl Hnot. rewrite row_prices in Hnot.
    apply list_elem_of_fmap in Hr as (l0 & -> & Hl0). cbn [level_row fst snd].
    rewrite <- (take_drop n m) in Hs, Hl. rewrite fmap_app in Hs.
    apply elem_of_app in Hl as [Hl|Hl].
    + exfalso. apply Hnot. apply list_elem_of_fmap. by exists l.
    + apply (StronglySorted_app_1_elem_of _ _ _ l0.1 l.1 Hs);
        apply list_elem_of_fmap; eauto.
Qed.

(** X10: the rows of [printOrderBook] on a well-formed book.  Each side
    shows [depth] levels, or all of them when there are fewer, and none
    for a depth [<= 0]; on both sides the prices go up from row to row;
    every row under ASKS is a level of [asks] and every row under BIDS a
    level of [bids], with at least one order and the sum of its orders'
    remaining quantities modulo [2^64]; the levels shown are the lowest
    of the side: a level that has no row has a higher price than every
    row of its side.  So the first row under ASKS is the lowest resting
    ask, which is not what [getBestAsk] returns when there are two ask
    levels, and the first row under BIDS is the lowest resting bid. *)
Theorem order_book_rows (depth : Z) (b : OrderBook) :
  book_wf b ->
  let rows_a := printOrderBook_asks depth b in
  let rows_b := printOrderBook_bids depth b in
  length rows_a = Nat.min (Z.to_nat depth) (length (asks b)) /\
  length rows_b = Nat.min (Z.to_nat depth) (length (bids b)) /\
  StronglySorted Z.lt rows_a.*1.*1 /\
  StronglySorted Z.lt rows_b.*1.*1 /\
  (forall r, r ∈ rows_a ->
     exists orders, (r.1.1, orders) ∈ asks b /\
       r.1.2 = wrap64 (sum_with (fun p => Order.quantity (deref b p)) orders) /\
       r.2 = Z.of_nat (length orders) /\ 1 <= r.2) /\
  (forall r, r ∈ rows_b ->
     exists orders, (r.1.1, orders) ∈ bids b /\
       r.1.2 = wrap64 (sum_with (fun p => Order.quantity (deref b p)) orders) /\
       r.2 = Z.of_nat (length orders) /\ 1 <= r.2) /\
  (forall r l, r ∈ rows_a -> l ∈ asks b -> (l.1 ∉ rows_a.*1.*1) -> r.1.1 < l.1) /\
  (forall r l, r ∈ rows_b -> l ∈ bids b -> (l.1 ∉ rows_b.*1.*1) -> r.1.1 < l.1) /\
  (forall r rest, rows_a = r :: rest ->
     lowest_ask b = Some r.1.1 /\
     ((1 < length (asks b))%nat -> r.1.1 < getBestAsk b)) /\
  (forall r rest, rows_b = r :: rest ->
     lowest (resting_prices b (bids b)) = Some r.1.1).
Proof.
  intros Hwf rows_a rows_b. subst rows_a rows_b.
  unfold printOrderBook_asks, printOrderBook_bids.
  pose proof Hwf as [[Hsb Hsa _ _ _ _ _] Hneb Hnea].
  assert (Hsa' : StronglySorted Z.lt (reverse (asks b)).*1).
  { rewrite fmap_reverse. by apply sorted_reverse. }
  assert (Hsb' : StronglySorted Z.lt (bids b).*1) by (by apply sorted_bids_keys).
  assert (Hnea' : no_empty_level (reverse (asks b))).
  { unfold no_empty_level in *. rewrite Forall_forall in Hnea. apply Forall_forall.
    intros l Hl. rewrite elem_of_reverse in Hl. by apply Hnea. }
  destruct (rows_of_lowest_levels b (Z.to_nat depth) _ Hsa' Hnea') as [Ha1 Ha2].
  destruct (rows_of_lowest_levels b (Z.to_nat depth) _ Hsb' Hneb) as [Hb1 Hb2].
  split; [by rewrite length_fmap, length_take, length_reverse|].
  split; [by rewrite length_fmap, length_take|].
  split; [rewrite row_prices, fmap_take; by apply sorted_take|].
  split; [rewrite row_prices, fmap_take; by apply sorted_take|].
  split.
  { intros r Hr. destruct (Ha1 r Hr) as (orders & Hin & Hrest).
    exists orders. split; [|done]. by rewrite elem_of_reverse in Hin. }
  split; [exact Hb1|].
  split.
  { intros r l Hr Hl. apply Ha2; [done|]. by rewrite elem_of_reverse. }
  split; [exact Hb2|].
  split.
  { intros r rest Hrows.
    destruct (reverse (asks b)) as [|[k q] front] eqn:Hrev.
    { rewrite take_nil in Hrows. done. }
    destruct (Z.to_nat depth) as [|n]; [done|].
    simpl in Hrows. injection Hrows as <- _. cbn [level_row fst snd].
    assert (Ha : asks b = reverse front ++ [(k, q)]).
    { rewrite <- (reverse_involutive (asks b)), Hrev. by rewrite reverse_cons. }
    split; [by eapply last_ask_is_lowest_ask|].
    intros Hlen. unfold getBestAsk. rewrite Ha in Hlen, Hsa |- *.
    destruct (reverse front) as [|[k0 q0] mid]; [simpl in Hlen; lia|].
    simpl. unfold sorted_keys in Hsa. simpl in Hsa.
    apply StronglySorted_cons in Hsa as [Hall _].
    rewrite Forall_forall in Hall. specialize (Hall k).
    unfold asks_comp in Hall. rewrite Z.gtb_ltb in Hall. apply Z.ltb_lt, Hall.
    rewrite fmap_app. apply elem_of_app. right. apply list_elem_of_here. }
  intros r rest Hrows.
  destruct (bids b) as [|[k q] back] eqn:Hb; [by rewrite take_nil in Hrows|].
  destruct (Z.to_nat depth) as [|n]; [done|].
  simpl in Hrows. injection Hrows as <- _. cbn [level_row fst snd].
  rewrite <- Hb. rewrite (best_bid_is_lowest_bid b Hwf); [|by rewrite Hb].
  unfold getBestBid. by rewrite Hb.
Qed.

Lemma order_book_rows_witness :
  let b := run [Add SELL LIMIT 10050 100; Add SELL LIMIT 10060 150;
                Add SELL LIMIT 10060 25; Add SELL LIMIT 10090 40;
                Add BUY LIMIT 10040 120] empty_book in
  printOrderBook_asks 2 b = [(10050, 100, 1); (10060, 175, 2)] /\
  lowest_ask b = Some 10050 /\ 10050 < getBestAsk b /\ 10060 < 10090 /\
  exists orders, (10060, orders) ∈ asks b.
Proof.
  intros b.
  assert (Hwf : book_wf b).
  { apply run_wf; [apply empty_book_wf|]. repeat constructor; simpl; unfold uint64; lia. }
  assert (Hrows : printOrderBook_asks 2 b = [(10050, 100, 1); (10060, 175, 2)])
    by (vm_compute; reflexivity).
  assert (Hlen : (1 < length (asks b))%nat) by (vm_compute; lia).
  assert (Hasks : asks b = [(10090, [3%nat]); (10060, [1%nat; 2%nat]); (10050, [0%nat])])
    by (vm_compute; reflexivity).
  destruct (order_book_rows 2 b Hwf) as (_ & _ & _ & _ & Hrow & _ & Hlow & _ & Hfirst & _).
  rewrite Hrows in Hrow, Hlow.
  destruct (Hfirst _ _ Hrows) as (Hlowest & Hbest).
  split; [exact Hrows|]. split; [exact Hlowest|]. split; [exact (Hbest Hlen)|].
  split.
  - apply (Hlow (10060, 175, 2) (10090, [3%nat])).
    + apply list_elem_of_further, list_elem_of_here.
    + rewrite Hasks. apply list_elem_of_here.
    + simpl. intros Hin. apply elem_of_cons in Hin as [Hin|Hin]; [discriminate Hin|].
      apply elem_of_cons in Hin as [Hin|Hin]; [discriminate Hin|].
      by apply elem_of_nil in Hin.
  - destruct (Hrow (10060, 175, 2)) as (orders & Hin & _);
      [apply list_elem_of_further, list_elem_of_here|].
    by exists orders.
Defined.

(** ** The trades of [printRecentTrades] *)

(** X11: where its arithmetic on [int] is defined (the size of the log
    and [size - n] fit [int]), [printRecentTrades(n)] lists the last [n]
    trades of the log in the order they were made: all of them when the
    log has at most [n], and none when [n <= 0]. *)
Theorem recent_trades_are_the_last (n : Z) (b : OrderBook) :
  let size := Z.of_nat (length (trade_history b)) in
  is_int size = true -> is_int (size - n) = true ->
  exists older listed,
    printRecentTrades n b = Some listed /\
    trade_history b = older ++ listed /\
    Z.of_nat (length listed) = Z.min (Z.max n 0) size /\
    (n <= 0 -> listed = []) /\
    (size <= n -> listed = trade_history b).
Proof.
  intros size H1 H2. unfold printRecentTrades. fold size. rewrite H1, H2. simpl.
  set (k := Z.to_nat (Z.max 0 (size - n))).
  exists (take k (trade_history b)), (drop k (trade_history b)).
  split; [done|]. split; [by rewrite take_drop|].
  split; [rewrite length_drop; subst k size; lia|].
  split.
  - intros Hn. apply drop_ge. subst k size. lia.
  - intros Hn. replace k with 0%nat by (subst k; lia). done.
Qed.

Lemma recent_trades_are_the_last_witness :
  let b := run [Add SELL LIMIT 10050 50; Add SELL LIMIT 10040 50;
                Add BUY LIMIT 10060 70] empty_book in
  exists older listed,
    printRecentTrades 1 b = Some listed /\
    trade_history b = older ++ listed /\
    Z.of_nat (length listed) = 1.
Proof.
  intros b.
  destruct (recent_trades_are_the_last 1 b) as (older & listed & H1 & H2 & H3 & _);
    [vm_compute; reflexivity|vm_compute; reflexivity|].
  exists older, listed. split; [exact H1|]. split; [exact H2|].
  rewrite H3. vm_compute. reflexivity.
Defined.

(** ** When the best-price accessors are right *)

Lemma foldr_max_spec (x : Z) (l : list Z) :
  foldr Z.max x l ∈ x :: l /\ Forall (fun y => y <= foldr Z.max x l) (x :: l).
Proof.
  induction l as [|y l [Hin Hall]]; simpl.
  - split; [apply list_elem_of_here|]. constructor; [lia|constructor].
  - apply Forall_cons in Hall as [Hx Hall].
    destruct (Z.le_ge_cases (foldr Z.max x l) y) as [Hle|Hle].
    + rewrite Z.max_l by done. split; [apply list_elem_of_further, list_elem_of_here|].
      constructor; [lia|]. constructor; [lia|].
      eapply Forall_impl; [exact Hall|]. simpl. intros; lia.
    + rewrite Z.max_r by lia. split.
      * apply elem_of_cons in Hin as [Hin|Hin]; [rewrite Hin; apply list_elem_of_here|].
        by do 2 apply list_elem_of_further.
      * constructor; [done|]. constructor; [lia|done].
Qed.

Lemma highest_inv (m : Z) (l : list Z) :
  highest l = Some m -> m ∈ l /\ Forall (fun y => y <= m) l.
Proof.
  destruct l as [|x l]; [done|]. simpl. intros [= <-]. apply foldr_max_spec.
Qed.

Lemma lowest_inv (m : Z) (l : list Z) :
  lowest l = Some m -> m ∈ l /\ Forall (fun y => m <= y) l.
Proof.
  destruct l as [|x l]; [done|]. simpl. intros [= <-]. apply foldr_min_spec.
Qed.

(** With a second level, an order rests at a price that the comparator
    puts after the first key. *)
Lemma second_level_price b sd comp k q k2 q2 rest :
  levels_ok b sd ((k, q) :: (k2, q2) :: rest) ->
  sorted_keys comp ((k, q) :: (k2, q2) :: rest) ->
  q2 <> [] ->
  k2 ∈ resting_prices b ((k, q) :: (k2, q2) :: rest) /\ comp k k2 = true.
Proof.
  intros Hl Hs Hq. rewrite levels_ok_alt in Hl. split.
  - destruct q2 as [|x q2]; [done|].
    rewrite !resting_prices_cons. apply elem_of_app. right. apply elem_of_app. left.
    rewrite fmap_cons.
    destruct (Hl k2 (x :: q2) x) as [_ -> _ _];
      [apply list_elem_of_further, list_elem_of_here|apply list_elem_of_here|].
    apply list_elem_of_here.
  - unfold sorted_keys in Hs. simpl in Hs. apply StronglySorted_cons in Hs as [Hall _].
    by apply Forall_cons in Hall as [? _].
Qed.

Lemma single_level_prices b sd k q y :
  levels_ok b sd [(k, q)] -> y ∈ resting_prices b [(k, q)] -> y = k.
Proof.
  intros Hl Hy. rewrite levels_ok_alt in Hl. unfold resting_prices in Hy.
  apply list_elem_of_fmap in Hy as (x & -> & Hx).
  apply elem_of_resting_ptrs in Hx as (k' & q' & Hlv & Hx).
  destruct (Hl k' q' x Hlv Hx) as [_ -> _ _].
  apply list_elem_of_singleton in Hlv. by simplify_eq.
Qed.

(** X12: on a well-formed book, [getBestBid] is the lowest resting bid
    and [getBestAsk] the highest resting ask whenever the side is not
    empty; so [getBestBid] is never above the highest resting bid and
    [getBestAsk] never below the lowest resting ask, and each is the best
    price of its side exactly when the side has a single price level. *)
Theorem best_price_accessors (b : OrderBook) :
  book_wf b ->
  (bids b <> [] -> lowest (resting_prices b (bids b)) = Some (getBestBid b)) /\
  (asks b <> [] -> highest (resting_prices b (asks b)) = Some (getBestAsk b)) /\
  (forall hb, highest_bid b = Some hb ->
     getBestBid b <= hb /\ (getBestBid b = hb <-> length (bids b) = 1%nat)) /\
  (forall la, lowest_ask b = Some la ->
     la <= getBestAsk b /\ (getBestAsk b = la <-> length (asks b) = 1%nat)).
Proof.
  intros Hwf.
  split; [by apply best_bid_is_lowest_bid|]. split; [by apply best_ask_is_highest_ask|].
  destruct Hwf as [[Hsb Hsa Hlb Hla _ _ _] Hneb Hnea]. split.
  - intros hb Hhb. unfold highest_bid in Hhb. apply highest_inv in Hhb as [Hin Hall].
    unfold getBestBid. rewrite Forall_forall in Hall.
    destruct (bids b) as [|[k q] rest]; [by apply elem_of_nil in Hin|].
    apply Forall_cons in Hneb as [Hq Hneb]. simpl in Hq.
    destruct (first_level_prices b BUY bids_comp k q rest Hlb Hsb Hq) as (l & Hl & _).
    assert (Hk : k <= hb) by (apply Hall; rewrite Hl; apply list_elem_of_here).
    split; [done|]. split.
    + intros ->. destruct rest as [|[k2 q2] rest]; [done|exfalso].
      apply Forall_cons in Hneb as [Hq2 _]. simpl in Hq2.
      destruct (second_level_price b BUY bids_comp hb q k2 q2 rest Hlb Hsb Hq2) as [H2 Hc].
      apply Hall in H2. unfold bids_comp in Hc. apply Z.ltb_lt in Hc. lia.
    + intros Hlen. destruct rest; [|done].
      symmetry. by eapply single_level_prices.
  - intros la Hla'. unfold lowest_ask in Hla'. apply lowest_inv in Hla' as [Hin Hall].
    unfold getBestAsk. rewrite Forall_forall in Hall.
    destruct (asks b) as [|[k q] rest]; [by apply elem_of_nil in Hin|].
    apply Forall_cons in Hnea as [Hq Hnea]. simpl in Hq.
    destruct (first_level_prices b SELL asks_comp k q rest Hla Hsa Hq) as (l & Hl & _).
    assert (Hk : la <= k) by (apply Hall; rewrite Hl; apply list_elem_of_here).
    split; [done|]. split.
    + intros ->. destruct rest as [|[k2 q2] rest]; [done|exfalso].
      apply Forall_cons in Hnea as [Hq2 _]. simpl in Hq2.
      destruct (second_level_price b SELL asks_comp la q k2 q2 rest Hla Hsa Hq2) as [H2 Hc].
      apply Hall in H2. unfold asks_comp in Hc. rewrite Z.gtb_ltb in Hc.
      apply Z.ltb_lt in Hc. lia.
    + intros Hlen. destruct rest; [|done].
      symmetry. by eapply single_level_prices.
Qed.

Lemma best_price_accessors_witness :
  let b := run [Add BUY LIMIT 10040 120; Add BUY LIMIT 10030 180;
                Add SELL LIMIT 10050 100] empty_book in
  lowest (resting_prices b (bids b)) = Some (getBestBid b) /\
  getBestBid b <= 10040 /\ getBestAsk b = 10050.
Proof.
  intros b.
  assert (Hwf : book_wf b).
  { apply run_wf; [apply empty_book_wf|]. repeat constructor; simpl; unfold uint64; lia. }
  assert (Hne : bids b <> []) by (vm_compute; discriminate).
  assert (Hhb : highest_bid b = Some 10040) by (vm_compute; reflexivity).
  assert (Hla : lowest_ask b = Some 10050) by (vm_compute; reflexivity).
  assert (Hlen : length (asks b) = 1%nat) by (vm_compute; reflexivity).
  destruct (best_price_accessors b Hwf) as (H1 & _ & H3 & H4).
  split; [exact (H1 Hne)|].
  split; [exact (proj1 (H3 _ Hhb))|exact (proj2 (proj2 (H4 _ Hla)) Hlen)].
Defined.

(** ** An id that has left the index *)

(** The trades of one [addOrder]: each names the new order on the
    incoming side and an order that was resting on the other side. *)
Lemma addOrder_named_ids s t p q b :
  book_wf b -> uint64 q ->
  exists new,
    trade_history (addOrder s t p q b).2 = trade_history b ++ new /\
    Forall (fun tr => incoming_id s tr = next_order_id b /\
                      exists r, r ∈ all_resting b /\
                                Order.order_id (deref b r) = resting_id s tr) new.
Proof.
  intros Hwf Hq. rewrite addOrder_eq. cbv zeta. cbn [snd].
  destruct (new_order_wf s t p q b Hwf Hq) as (Hwf1 & Hlt & Hnot).
  pose proof (deref_new_order_here s t p q b) as Hd.
  set (b1 := (new_order s t p q b).2) in *.
  set (order := length (heap b)) in *.
  assert (Hm : forall ty, exists new,
             trade_history (match_passive s ty order b1) = trade_history b ++ new /\
             Forall (fun tr => incoming_id s tr = next_order_id b /\
                               exists r, r ∈ all_resting b /\
                                         Order.order_id (deref b r) = resting_id s tr) new).
  { intros ty.
    destruct (match_passive_trades s ty order b1 Hwf1 Hlt Hnot) as (new & Hnew & Hall).
    destruct (match_passive_fills s ty order b1 Hwf1 Hlt Hnot) as (_ & new' & Hnew' & Hall' & _).
    cbn [snd] in Hnew'. rewrite Hnew in Hnew'. apply app_inv_head in Hnew'. subst new'.
    rewrite Hd in Hall'. cbn [Order.order_id] in Hall'.
    exists new. split; [done|].
    rewrite Forall_forall in Hall, Hall'. apply Forall_forall. intros tr Htr.
    destruct (Hall' tr Htr) as [_ Hinc]. split; [done|].
    destruct (Hall tr Htr) as (r & Hr & Hid & _).
    assert (Hpas : passive s b1 = passive s b) by (by destruct s).
    rewrite Hpas in Hr.
    assert (Hin : r ∈ all_resting b) by (apply (all_resting_sides s); set_solver).
    assert (Hv : (r < length (heap b))%nat) by (apply resting_valid; [by destruct Hwf|done]).
    subst b1. rewrite deref_new_order_old in Hid by done.
    by exists r. }
  destruct t; [|apply Hm].
  unfold match_limit. destruct (0 <? _); [|apply Hm].
  destruct (Hm LIMIT) as (new & Hnew & Hall). exists new. split; [|done].
  rewrite <- Hnew. by destruct s.
Qed.

Lemma exec_next_mono c b :
  1 <= next_order_id b -> next_order_id b + 1 < 2 ^ 64 ->
  next_order_id b <= next_order_id (exec c b).
Proof.
  intros H1 Hb. destruct c as [s t p q|id0].
  - change (exec (Add s t p q) b) with (addOrder s t p q b).2.
    rewrite addOrder_next, wrap64_small by (unfold uint64; lia). lia.
  - change (exec (Cancel id0) b) with (cancelOrder id0 b).2.
    rewrite cancelOrder_next. lia.
Qed.

Lemma exec_left_index c b id :
  book_wf b -> command_ok c -> index_complete b ->
  1 <= id < next_order_id b -> order_map b !! id = None ->
  order_map (exec c b) !! id = None /\
  exists new, trade_history (exec c b) = trade_history b ++ new /\
              Forall (fun tr => Trade.buy_order_id tr <> id /\
                                Trade.sell_order_id tr <> id) new.
Proof.
  intros Hwf Hc Hcomp Hid Hnone. destruct c as [s t p q|id0].
  - change (uint64 q) in Hc.
    change (exec (Add s t p q) b) with (addOrder s t p q b).2. split.
    + destruct (order_map (addOrder s t p q b).2 !! id) as [x|] eqn:Hl; [|done].
      apply addOrder_index in Hl as [[-> _]|Hl]; [lia|congruence].
    + destruct (addOrder_named_ids s t p q b Hwf Hc) as (new & Hnew & Hall).
      exists new. split; [done|].
      eapply Forall_impl; [exact Hall|].
      intros tr (Hinc & r & Hr & Hres). cbv beta.
      assert (Hne : resting_id s tr <> id).
      { intros Heq. rewrite <- Hres in Heq. specialize (Hcomp r Hr).
        rewrite Heq in Hcomp. congruence. }
      destruct s; cbn [incoming_id resting_id] in *; split; (done || lia).
  - change (exec (Cancel id0) b) with (cancelOrder id0 b).2.
    destruct (order_map b !! id0) as [order|] eqn:Hl.
    + destruct (cancelOrder_found id0 order b Hwf Hl) as (_ & _ & _ & Hmap & _ & Htr & _).
      split.
      * rewrite Hmap. destruct (decide (id0 = id)) as [->|Hne];
          [apply lookup_delete_eq|by rewrite lookup_delete_ne].
      * exists []. by rewrite app_nil_r.
    + rewrite cancelOrder_unknown by done. split; [done|].
      exists []. by rewrite app_nil_r.
Qed.

Lemma run_left_index cs id :
  forall b,
    book_wf b -> Forall command_ok cs -> index_complete b -> index_below_counter b ->
    next_order_id b + Z.of_nat (length cs) < 2 ^ 64 ->
    1 <= id < next_order_id b -> order_map b !! id = None ->
    order_map (run cs b) !! id = None /\
    exists new, trade_history (run cs b) = trade_history b ++ new /\
                Forall (fun tr => Trade.buy_order_id tr <> id /\
                                  Trade.sell_order_id tr <> id) new.
Proof.
  induction cs as [|c cs IH]; intros b Hwf Hcs Hcomp Hbelow Hn Hid Hnone.
  - split; [done|]. exists []. by rewrite app_nil_r.
  - apply Forall_cons in Hcs as [Hc Hcs]. simpl. simpl length in Hn.
    destruct (exec_left_index c b id Hwf Hc Hcomp Hid Hnone) as (Hnone' & new1 & Hnew1 & Hall1).
    destruct (exec_index_below_counter c b Hbelow) as [Hbelow' Hle]; [lia|].
    pose proof (exec_next_mono c b) as Hmono.
    destruct (IH (exec c b)) as (Hfin & new2 & Hnew2 & Hall2);
      [by apply exec_wf|done|by apply exec_index_complete|done|lia|lia|done|].
    split; [done|]. exists (new1 ++ new2). split.
    + by rewrite Hnew2, Hnew1, app_assoc.
    + by apply Forall_app.
Qed.

Lemma run_next_bound cs :
  forall b,
    index_below_counter b -> next_order_id b + Z.of_nat (length cs) < 2 ^ 64 ->
    next_order_id (run cs b) <= next_order_id b + Z.of_nat (length cs).
Proof.
  induction cs as [|c cs IH]; intros b Hi Hb; [simpl; lia|].
  simpl. simpl length in Hb.
  destruct (exec_index_below_counter c b Hi) as [Hi' Hn]; [lia|].
  specialize (IH (exec c b) Hi'). simpl length. lia.
Qed.

(** X13: an id that has been assigned and is not in the index (its order
    was cancelled, filled completely, or was a market order) is finished:
    whatever commands follow, no later trade names it, as buyer or as
    seller, and it does not come back into the index.  This holds as long
    as fewer than [2^64 - 1] commands have run since the empty book. *)
Theorem finished_ids_never_trade (cs1 cs2 : list Command) (id : Z) :
  Forall command_ok cs1 -> Forall command_ok cs2 ->
  Z.of_nat (length cs1 + length cs2) < 2 ^ 64 - 1 ->
  let b1 := run cs1 empty_book in
  let b2 := run cs2 b1 in
  1 <= id < next_order_id b1 -> order_map b1 !! id = None ->
  order_map b2 !! id = None /\
  exists new, trade_history b2 = trade_history b1 ++ new /\
              Forall (fun tr => Trade.buy_order_id tr <> id /\
                                Trade.sell_order_id tr <> id) new.
Proof.
  intros Hcs1 Hcs2 Hlen b1 b2 Hid Hnone.
  assert (Hi0 : index_below_counter empty_book).
  { split; [simpl; lia|]. intros i x Hl. simpl in Hl. by rewrite lookup_empty in Hl. }
  assert (Hn1 : next_order_id b1 <= 1 + Z.of_nat (length cs1)).
  { apply (run_next_bound cs1 empty_book Hi0). simpl. lia. }
  apply run_left_index; [|done| | |lia|done|done].
  - apply run_wf; [apply empty_book_wf|done].
  - apply run_index_complete; [apply empty_book_wf|done| |done|simpl; lia].
    intros x Hx. by apply elem_of_nil in Hx.
  - apply run_index_below_counter; [done|simpl; lia].
Qed.

Lemma finished_ids_never_trade_witness :
  let b1 := run [Add SELL LIMIT 10050 50; Cancel 1] empty_book in
  let b2 := run [Add SELL LIMIT 10050 50; Add BUY LIMIT 10060 70] b1 in
  order_map b2 !! 1 = None /\
  exists new, trade_history b2 = trade_history b1 ++ new /\
              Forall (fun tr => Trade.buy_order_id tr <> 1 /\
                                Trade.sell_order_id tr <> 1) new.
Proof.
  apply (finished_ids_never_trade [Add SELL LIMIT 10050 50; Cancel 1]
           [Add SELL LIMIT 10050 50; Add BUY LIMIT 10060 70] 1).
  - repeat constructor; simpl; unfold uint64; lia.
  - repeat constructor; simpl; unfold uint64; lia.
  - simpl. lia.
  - vm_compute. split; [discriminate|reflexivity].
  - vm_compute. reflexivity.
Defined.

(** ** Orders the specification calls invalid, on any book *)





(** ** Orders are numbered by arrival *)

Lemma addOrder_heap s t p q b :
  length (heap (addOrder s t p q b).2) = S (length (heap b)) /\
  forall x, Order.order_id (deref (addOrder s t p q b).2 x) =
            Order.order_id (deref (new_order s t p q b).2 x).
Proof.
  rewrite addOrder_eq. cbv zeta. cbn [snd].
  set (b1 := (new_order s t p q b).2) in *.
  set (order := length (heap b)) in *.
  assert (Hm : forall ty,
             length (heap (match_passive s ty order b1)) = S (length (heap b)) /\
             forall x, Order.order_id (deref (match_passive s ty order b1) x) =
                       Order.order_id (deref b1 x)).
  { intros ty. destruct (match_passive_frame s ty order b1) as [Hlen Hid _ _ _ _]. split.
    - rewrite Hlen. unfold b1, new_order. simpl. rewrite length_app. simpl. lia.
    - intros x. by destruct (Hid x) as (-> & _). }
  destruct t; [|apply Hm]. unfold match_limit. destruct (0 <? _); [|apply Hm].
  destruct (rest_order_fields s order (match_passive s LIMIT order b1))
    as (_ & _ & _ & Hheap & _ & _).
  unfold deref. rewrite Hheap. apply Hm.
Qed.

Lemma cancelOrder_heap id b : heap (cancelOrder id b).2 = heap b.
Proof.
  rewrite cancelOrder_eq. destruct (order_map b !! id) as [order|]; [|done].
  by destruct (Order.side (deref b order)).
Qed.

Lemma exec_ids_by_arrival c b :
  ids_by_arrival b -> next_order_id b + 1 < 2 ^ 64 ->
  ids_by_arrival (exec c b) /\ next_order_id (exec c b) <= next_order_id b + 1.
Proof.
  intros [Hn Hids] Hb. destruct c as [s t p q|id0].
  - change (exec (Add s t p q) b) with (addOrder s t p q b).2.
    destruct (addOrder_heap s t p q b) as [Hlen Hid].
    unfold ids_by_arrival. rewrite addOrder_next, Hlen.
    rewrite wrap64_small by (unfold uint64; lia).
    split; [|lia]. split; [lia|].
    intros x Hx. rewrite Hid.
    destruct (decide (x = length (heap b))) as [->|Hne].
    + rewrite deref_new_order_here. simpl. lia.
    + rewrite deref_new_order_old by lia. apply Hids. lia.
  - change (exec (Cancel id0) b) with (cancelOrder id0 b).2.
    unfold ids_by_arrival, deref. rewrite cancelOrder_next, cancelOrder_heap.
    split; [by split|lia].
Qed.

Lemma run_ids_by_arrival cs :
  forall b,
    ids_by_arrival b -> next_order_id b + Z.of_nat (length cs) < 2 ^ 64 ->
    ids_by_arrival (run cs b).
Proof.
  induction cs as [|c cs IH]; intros b Hi Hb; [done|].
  simpl. simpl length in Hb.
  destruct (exec_ids_by_arrival c b Hi) as [Hi' Hn]; [lia|].
  apply IH; [done|lia].
Qed.

(** An order whose remainder is 0 is not in the index. *)
Lemma filled_order_not_indexed b x :
  book_wf b -> ids_by_arrival b ->
  (x < length (heap b))%nat -> Order.quantity (deref b x) = 0 ->
  order_map b !! Order.order_id (deref b x) = None.
Proof.
  intros Hwf [_ Hids] Hx Hz.
  destruct (order_map b !! Order.order_id (deref b x)) as [y|] eqn:Hl; [exfalso|done].
  pose proof Hwf as [[_ _ _ _ _ Hidx _] _ _].
  destruct (Hidx _ _ Hl) as [Hid Hin].
  assert (Hy : (y < length (heap b))%nat) by (apply resting_valid; [by destruct Hwf|done]).
  rewrite (Hids x Hx), (Hids y Hy) in Hid.
  assert (y = x) as -> by lia.
  pose proof (resting_positive b x Hwf Hin). lia.
Qed.

Lemma empty_book_invariants :
  index_complete empty_book /\ index_below_counter empty_book /\ ids_by_arrival empty_book.
Proof.
  split; [|split].
  - intros x Hx. by apply elem_of_nil in Hx.
  - split; [simpl; lia|]. intros i x Hl. simpl in Hl. by rewrite lookup_empty in Hl.
  - split; [done|]. intros x Hx. simpl in Hx. lia.
Qed.

(** ** Cancellation *)

(** C7: [cancelOrder] returns false on an id that is not in the index,
    and whenever it returns false the book is unchanged.  An id is not in
    the index when it was cancelled before (a cancel that returned true
    erased it), when its order has been fully filled (the fill that
    brought its remainder to 0 erased it), and it stays out of the index
    under every later command that does not assign that id anew.  When
    [cancelOrder] returns true on a well-formed book, the order's pointer
    is taken out of the book, every other resting order stays in place,
    the id leaves the index, heap and trade log are unchanged, and the
    book is well formed again.

    The three cases of the specification, one by one.  Unknown: on a
    well-formed book an id that no order object carries gets false.
    Fully filled: an order filled to 0 by the [addOrder] that brought it
    in, and a market order in any case, never enters the index, so a
    cancel of the id just returned gets false; and in every book reached
    from the empty one in fewer than [2^64 - 1] commands, a cancel of the
    id of any order object whose remainder is 0 gets false, whenever and
    however it was filled.  Previously cancelled: after a cancel that
    returned true, a cancel of the same id gets false after any further
    commands, as long as fewer than [2^64 - 1] commands have run. *)
Theorem cancel_order_outcomes (id : Z) (b : OrderBook) :
  (order_map b !! id = None -> cancelOrder id b = (false, b)) /\
  ((cancelOrder id b).1 = false -> (cancelOrder id b).2 = b) /\
  ((cancelOrder id b).1 = true ->
     cancelOrder id (cancelOrder id b).2 = (false, (cancelOrder id b).2)) /\
  (forall s t p q order,
     book_wf b -> uint64 q ->
     order_map b !! id = Some order -> id <> next_order_id b ->
     Order.quantity (deref (addOrder s t p q b).2 order) = 0 ->
     cancelOrder id (addOrder s t p q b).2 = (false, (addOrder s t p q b).2)) /\
  (forall c,
     order_map b !! id = None ->
     (forall s t p q, c = Add s t p q -> id <> next_order_id b) ->
     cancelOrder id (exec c b) = (false, exec c b)) /\
  (book_wf b -> (cancelOrder id b).1 = true ->
     exists order,
       order_map b !! id = Some order /\
       (order ∉ all_resting (cancelOrder id b).2) /\
       all_resting (cancelOrder id b).2 = filter (fun x => x <> order) (all_resting b) /\
       order_map (cancelOrder id b).2 = delete id (order_map b) /\
       heap (cancelOrder id b).2 = heap b /\
       trade_history (cancelOrder id b).2 = trade_history b /\
       book_wf (cancelOrder id b).2) /\
  (book_wf b ->
   (forall x, (x < length (heap b))%nat -> Order.order_id (deref b x) <> id) ->
   cancelOrder id b = (false, b)) /\
  (forall s t p q,
     book_wf b -> uint64 q ->
     id = next_order_id b -> order_map b !! id = None ->
     t = MARKET \/ Order.quantity (deref (addOrder s t p q b).2 (length (heap b))) = 0 ->
     (addOrder s t p q b).1 = id /\
     cancelOrder id (addOrder s t p q b).2 = (false, (addOrder s t p q b).2)) /\
  (forall cs x,
     Forall command_ok cs -> Z.of_nat (length cs) < 2 ^ 64 - 1 ->
     b = run cs empty_book ->
     (x < length (heap b))%nat ->
     Order.order_id (deref b x) = id -> Order.quantity (deref b x) = 0 ->
     cancelOrder id b = (false, b)) /\
  (forall cs cs',
     Forall command_ok cs -> Forall command_ok cs' ->
     Z.of_nat (length cs + length cs') < 2 ^ 64 - 1 ->
     b = run cs empty_book ->
     (cancelOrder id b).1 = true ->
     cancelOrder id (run cs' (cancelOrder id b).2) =
       (false, run cs' (cancelOrder id b).2)).
Proof.
  split; [apply cancelOrder_unknown|].
  split.
  { rewrite cancelOrder_eq. by destruct (order_map b !! id). }
  split.
  { intros Ht. apply cancelOrder_unknown.
    rewrite cancelOrder_eq in *. destruct (order_map b !! id) as [order|]; [|done].
    cbv zeta. cbn [snd].
    replace (order_map _) with (delete id (order_map b))
      by (by destruct (Order.side (deref b order))).
    apply lookup_delete_eq. }
  split.
  { intros s t p q order Hwf Hq Hl Hne Hz. apply cancelOrder_unknown.
    destruct (order_map (addOrder s t p q b).2 !! id) as [x|] eqn:Hl'; [exfalso|done].
    pose proof Hl' as Hl2.
    apply addOrder_index in Hl2 as [[? _]|Hl2]; [done|].
    assert (x = order) as -> by congruence.
    pose proof (addOrder_wf s t p q b Hwf Hq) as Hwf'.
    assert (Hin : order ∈ all_resting (addOrder s t p q b).2).
    { destruct Hwf' as [[_ _ _ _ _ Hidx _] _ _]. by destruct (Hidx id order Hl'). }
    pose proof (resting_positive _ _ Hwf' Hin). lia. }
  split.
  { intros c Hl Hc. apply cancelOrder_unknown.
    destruct c as [s t p q|id']; simpl.
    - destruct (order_map (addOrder s t p q b).2 !! id) as [x|] eqn:Hl'; [exfalso|done].
      apply addOrder_index in Hl' as [[? _]|Hl']; [|congruence].
      by eapply Hc.
    - rewrite cancelOrder_eq. destruct (order_map b !! id') as [order|]; [|done].
      cbv zeta. cbn [snd].
      replace (order_map _) with (delete id' (order_map b))
        by (by destruct (Order.side (deref b order))).
      apply lookup_delete_None. by right. }
  split.
  { intros Hwf Ht.
    destruct (order_map b !! id) as [order|] eqn:Hl.
    - exists order.
      destruct (cancelOrder_found id order b Hwf Hl) as (_ & Hwf' & Hall & Hom & Hh & Htr & _).
      split; [done|]. split; [|done].
      rewrite Hall. intros [Hne _]%list_elem_of_filter. by apply Hne.
    - rewrite cancelOrder_unknown in Ht by done. done. }
  split.
  { intros Hwf Hnone. apply cancelOrder_unknown.
    destruct (order_map b !! id) as [y|] eqn:Hl; [exfalso|done].
    pose proof Hwf as [[_ _ _ _ _ Hidx _] _ _].
    destruct (Hidx _ _ Hl) as [Hid Hin].
    apply (Hnone y); [|done]. apply resting_valid; [by destruct Hwf|done]. }
  split.
  { intros s t p q Hwf Hq -> Hfresh Hfilled.
    split; [apply addOrder_id|]. apply cancelOrder_unknown.
    destruct (order_map (addOrder s t p q b).2 !! next_order_id b) as [x|] eqn:Hl';
      [exfalso|done].
    pose proof Hl' as Hl2.
    apply addOrder_index in Hl2 as [[_ ->]|Hl2]; [|congruence].
    pose proof (addOrder_wf s t p q b Hwf Hq) as Hwf'.
    assert (Hin : length (heap b) ∈ all_resting (addOrder s t p q b).2).
    { destruct Hwf' as [[_ _ _ _ _ Hidx _] _ _]. by destruct (Hidx _ _ Hl'). }
    destruct Hfilled as [->|Hz].
    - revert Hin. rewrite addOrder_eq. cbv zeta. cbn [snd].
      destruct (new_order_wf s MARKET p q b Hwf Hq) as (Hwf1 & Hlt & Hnot).
      by destruct (match_passive_spec s MARKET _ _ Hwf1 Hlt Hnot) as (_ & Hnot2 & _).
    - pose proof (resting_positive _ _ Hwf' Hin). lia. }
  split.
  { intros cs x Hcs Hlen -> Hx Hid Hz. apply cancelOrder_unknown. rewrite <- Hid.
    destruct empty_book_invariants as (_ & _ & Hi0).
    apply filled_order_not_indexed; [|  |done|done].
    - apply run_wf; [apply empty_book_wf|done].
    - apply run_ids_by_arrival; [done|simpl; lia]. }
  intros cs cs' Hcs Hcs' Hlen -> Ht.
  set (b1 := run cs empty_book) in *.
  destruct empty_book_invariants as (Hc0 & Hb0 & _).
  assert (Hwf : book_wf b1) by (apply run_wf; [apply empty_book_wf|done]).
  assert (Hc : index_complete b1).
  { apply run_index_complete; [apply empty_book_wf|done|done|done|simpl; lia]. }
  assert (Hb : index_below_counter b1).
  { apply run_index_below_counter; [done|simpl; lia]. }
  assert (Hn1 : next_order_id b1 <= 1 + Z.of_nat (length cs)).
  { apply (run_next_bound cs empty_book Hb0). simpl. lia. }
  destruct (order_map b1 !! id) as [order|] eqn:Hl;
    [|by rewrite cancelOrder_unknown in Ht].
  destruct (cancelOrder_found id order b1 Hwf Hl) as (_ & Hwf' & _ & Hom & _ & _ & Hnext).
  cbv zeta in Hwf', Hom, Hnext.
  assert (Hrange : 1 <= id < next_order_id b1) by (by eapply (proj2 Hb)).
  apply cancelOrder_unknown.
  apply run_left_index; [done|done| | |lia|lia|].
  - apply (exec_index_complete (Cancel id) b1); done.
  - destruct Hb as [Hb1 Hb]. split; [by rewrite Hnext|].
    intros i x Hix. rewrite Hom in Hix. apply lookup_delete_Some in Hix as [_ Hix].
    rewrite Hnext. by eapply Hb.
  - rewrite Hom. apply lookup_delete_eq.
Qed.

Lemma cancel_order_outcomes_witness :
  let b := run [Add SELL LIMIT 10100 50] empty_book in
  let r := addOrder BUY LIMIT 10100 50 b in
  cancelOrder 1 b = (true, (cancelOrder 1 b).2) /\
  all_resting (cancelOrder 1 b).2 = [] /\
  order_map (cancelOrder 1 b).2 = ∅ /\
  trade_history (cancelOrder 1 b).2 = [] /\
  cancelOrder 1 (cancelOrder 1 b).2 = (false, (cancelOrder 1 b).2) /\
  cancelOrder 7 b = (false, b) /\
  cancelOrder 1 (addOrder BUY MARKET 0 50 b).2 = (false, (addOrder BUY MARKET 0 50 b).2) /\
  cancelOrder 7 (exec (Add SELL LIMIT 10200 5) b) = (false, exec (Add SELL LIMIT 10200 5) b) /\
  (r.1 = 2 /\ cancelOrder 2 r.2 = (false, r.2)) /\
  cancelOrder 1 (run [Add SELL LIMIT 10100 5] (cancelOrder 1 b).2) =
    (false, run [Add SELL LIMIT 10100 5] (cancelOrder 1 b).2).
Proof.
  intros b r.
  assert (Hcs : Forall command_ok [Add SELL LIMIT 10100 50]).
  { repeat constructor; simpl; unfold uint64; lia. }
  assert (Hcs' : Forall command_ok [Add SELL LIMIT 10100 5]).
  { repeat constructor; simpl; unfold uint64; lia. }
  assert (Hwf : book_wf b) by (apply run_wf; [apply empty_book_wf|done]).
  assert (Ht : (cancelOrder 1 b).1 = true) by reflexivity.
  assert (Hq : uint64 50) by (unfold uint64; lia).
  destruct (cancel_order_outcomes 1 b) as (_ & _ & H3 & H4 & _ & H6 & _ & _ & _ & H10).
  destruct (cancel_order_outcomes 7 b) as (H1 & _ & _ & _ & H5 & _ & H7 & _).
  destruct (cancel_order_outcomes 2 b) as (_ & _ & _ & _ & _ & _ & _ & H8 & _).
  destruct (H6 Hwf Ht) as (order & Hl & _ & Hall & Hom & _ & Htr & _).
  assert (order = 0%nat) as -> by (vm_compute in Hl; congruence).
  split; [reflexivity|].
  split; [rewrite Hall; reflexivity|].
  split; [rewrite Hom; reflexivity|].
  split; [rewrite Htr; reflexivity|].
  split; [by apply H3|].
  split.
  { apply (H7 Hwf). intros x Hx. vm_compute in Hx.
    assert (x = 0%nat) as -> by lia. vm_compute. discriminate. }
  split.
  { apply (H4 BUY MARKET 0 50 0%nat Hwf Hq); [reflexivity| |reflexivity].
    vm_compute. discriminate. }
  split.
  { apply H5; [reflexivity|]. intros s t p q _. vm_compute. discriminate. }
  split.
  { apply (H8 BUY LIMIT 10100 50 Hwf Hq); [reflexivity|reflexivity|].
    right. vm_compute. reflexivity. }
  apply (H10 [Add SELL LIMIT 10100 50] [Add SELL LIMIT 10100 5] Hcs Hcs');
    [simpl; lia|reflexivity|exact Ht].
Defined.
